(** * NEST-models: iaf_freq_sensor and stdp_synapse_multi

    A shallow embedding of the two numerical cores of the repository:

    - [STDPConnectionMulti] (src/stdp_connection_multi.h): the weight
      update [learn_] and the history replay of [send];
    - [iaf_freq_sensor] (src/iaf_freq_sensor.cpp): the parameter
      dictionary interface [Parameters_::get] / [Parameters_::set], the
      calibration of the propagators and the grid update [update].

    Numbers.  The development has two levels.

    The modules [STDP] and [Iaf] run the code on numbers: a [double_t]
    is a real number of [R], the arithmetic is exact and every
    comparison is the comparison of [R].  [std::exp], [std::sqrt],
    [std::abs] and [numerics::pi] are [exp], [sqrt], [Rabs] and [PI];
    [std::pow] is a variable there, and the statements that need one of
    its properties say which.  Integer fields ([long_t], [int_t],
    [size_t]) are [Z].  This level is the code on finite doubles, up to
    rounding.  It has no place for the two paths on which the code
    itself leaves the finite doubles: the constructors start [ti_] and
    [LowerBound_] at [-infinity], from where [update_currents_] computes
    NaN, and [std::pow] returns NaN on a negative base with an exponent
    that is not an integer, which passes both tests of [learn_].

    The modules [Double], [STDPDouble] and [IafDouble] run the same code
    on doubles with their infinities and NaN (the arithmetic on numbers
    still exact).  The lemmas [learn_of_numbers], [update_of_State] and
    [update_loop_unbounded] show that the two levels agree on numbers.
    A statement that fails on NaN is made on the second level, with its
    finiteness conditions written out.

    The member declarations of iaf_freq_sensor.h are read off the
    constructors and the uses in iaf_freq_sensor.cpp. *)

From stdpp Require Import gmap strings sorting.
From Stdlib Require Import Reals Lra Lia ZArith.

Local Open Scope R_scope.

(** Comparisons of doubles are decided through [decide]. *)
#[global] Instance Rlt_decision (x y : R) : Decision (x < y) := Rlt_dec x y.
#[global] Instance Rle_decision (x y : R) : Decision (x <= y) := Rle_dec x y.
#[global] Instance Rgt_decision (x y : R) : Decision (x > y) := Rgt_dec x y.
#[global] Instance Rge_decision (x y : R) : Decision (x >= y) := Rge_dec x y.

(** ** nest::Time conversions used by both models

    [Time(Time::step(n)).get_ms()] for a resolution of [h] ms per step. *)
Definition step_to_ms (h : R) (n : Z) : R := IZR n * h.

(* ================================================================== *)
(** * stdp_connection_multi.h                                          *)
(* ================================================================== *)

Module STDP.

(** An entry of the post-synaptic spike history (nest::histentry). *)
Record histentry : Type := mk_histentry {
  t_ : R;
  access_counter_ : nat
}.

(** The data members of a connection: those of ConnectionHetWD
    ([weight_], [delay_], [rport_]; the target is the history owner) and
    the ones the class adds. *)
Record STDPConnectionMulti : Type := mk_connection {
  weight_ : R;
  delay_ : Z;
  rport_ : Z;
  Aplus_ : R;
  Aneg_ : R;
  tplus_ : R;
  tneg_ : R;
  Wmax_ : R;
  Esyn_ : R;
  EmitSpk_ : bool
}.

Definition set_weight (c : STDPConnectionMulti) (w : R) : STDPConnectionMulti :=
  {| weight_ := w; delay_ := delay_ c; rport_ := rport_ c;
     Aplus_ := Aplus_ c; Aneg_ := Aneg_ c; tplus_ := tplus_ c;
     tneg_ := tneg_ c; Wmax_ := Wmax_ c; Esyn_ := Esyn_ c;
     EmitSpk_ := EmitSpk_ c |}.

(** The event handed to the receiver by [e()]. *)
Record SpikeEvent : Type := mk_event {
  ev_stamp : Z;
  ev_weight : R;
  ev_delay : Z;
  ev_rport : Z
}.

Section Connection.

(** [std::pow]. *)
Variable pow : R -> R -> R.

(** Resolution of the simulation, in ms per step. *)
Variable h : R.

(** [learn_(w, dt)]. *)
Definition learn_ (c : STDPConnectionMulti) (w dt : R) : R :=
  let '(wd, td) :=
    if decide (dt > 0)
    then (exp (- w) * Aplus_ c, pow (1 - 1 / tplus_ c) dt)
    else (- w * Aneg_ c, pow (1 - 1 / tneg_ c) (- dt)) in
  let nw := w + wd * td in
  if decide (nw < 0) then 0
  else if decide (nw > Wmax_ c) then Wmax_ c
  else nw.

(** Archiving_Node::get_history(t1, t2, &start, &finish) of the NEST
    kernel: [start] is the first entry with [t_ > t1], [finish] the
    first entry from there on with [t_ > t2].  [history_skip] and
    [history_take] are its two loops; the range [[start, finish)] is
    what [send] iterates over.  The kernel also counts the accesses to
    the entries of the range, which [send] does not read. *)
Fixpoint history_skip (t1 : R) (hist : list histentry) : list histentry :=
  match hist with
  | [] => []
  | e :: rest => if decide (t_ e <= t1) then history_skip t1 rest else hist
  end.

Fixpoint history_take (t2 : R) (hist : list histentry) : list histentry :=
  match hist with
  | [] => []
  | e :: rest => if decide (t_ e <= t2) then e :: history_take t2 rest else []
  end.

Definition get_history (t1 t2 : R) (hist : list histentry) : list histentry :=
  history_take t2 (history_skip t1 hist).

(** The [while (start != finish)] loop of [send], on the range returned
    by [get_history]: [weight_] is threaded through, [t_lastspike] and
    [dendritic_delay] are the locals of the call. *)
Fixpoint replay (c : STDPConnectionMulti) (t_lastspike dendritic_delay : R)
         (range : list histentry) (weight : R) : R :=
  match range with
  | [] => weight
  | start :: rest =>
      let minus_dt := t_lastspike - (t_ start + dendritic_delay) in
      replay c t_lastspike dendritic_delay rest (learn_ c weight minus_dt)
  end.

(** The values [weight_] takes, one per iteration of the loop. *)
Fixpoint replay_weights (c : STDPConnectionMulti) (t_lastspike dendritic_delay : R)
         (range : list histentry) (weight : R) : list R :=
  match range with
  | [] => []
  | start :: rest =>
      let minus_dt := t_lastspike - (t_ start + dendritic_delay) in
      let weight' := learn_ c weight minus_dt in
      weight' :: replay_weights c t_lastspike dendritic_delay rest weight'
  end.

(** [send(e, t_lastspike, cp)]: the connection after the call and the
    events delivered to the target.  [stamp] is [e.get_stamp()] in
    steps and [hist] the history of the target. *)
Definition send (c : STDPConnectionMulti) (stamp : Z) (t_lastspike : R)
           (hist : list histentry) : STDPConnectionMulti * list SpikeEvent :=
  let t_spike := step_to_ms h stamp in
  let dendritic_delay := step_to_ms h (delay_ c) in
  let range := get_history (t_lastspike - dendritic_delay)
                           (t_spike - dendritic_delay) hist in
  let c' := set_weight c (replay c t_lastspike dendritic_delay range (weight_ c)) in
  (c', if EmitSpk_ c'
       then [ {| ev_stamp := stamp; ev_weight := weight_ c' * Esyn_ c';
                 ev_delay := delay_ c'; ev_rport := rport_ c' |} ]
       else []).

(** The weights [send] assigns to [weight_], in order. *)
Definition send_weights (c : STDPConnectionMulti) (stamp : Z) (t_lastspike : R)
           (hist : list histentry) : list R :=
  let t_spike := step_to_ms h stamp in
  let dendritic_delay := step_to_ms h (delay_ c) in
  replay_weights c t_lastspike dendritic_delay
    (get_history (t_lastspike - dendritic_delay) (t_spike - dendritic_delay) hist)
    (weight_ c).

End Connection.

End STDP.

(** ** The on-send rule as the specification words it

    [clamp], the interval query and the two branches of the rule are
    written after the specification, to be compared with [STDP.send]. *)
Module STDPSpec.
Import STDP.

Section Rule.

Variable pow : R -> R -> R.

Definition clamp (x lo hi : R) : R :=
  if decide (x < lo) then lo else if decide (x > hi) then hi else x.

(** One history entry [t_post] against the anchor [t_lastspike]. *)
Definition spec_update (c : STDPConnectionMulti) (t_lastspike delay : R)
           (weight t_post : R) : R :=
  let dt := t_lastspike - (t_post + delay) in
  if decide (dt > 0)
  then clamp (weight + exp (- weight) * Aplus_ c * pow (1 - 1 / tplus_ c) dt)
             0 (Wmax_ c)
  else clamp (weight - weight * Aneg_ c * pow (1 - 1 / tneg_ c) (- dt))
             0 (Wmax_ c).

(** The timestamps of the history in [(t1, t2]], in the order of the
    history. *)
Definition spec_window (t1 t2 : R) (hist : list histentry) : list R :=
  map t_ (filter (fun e => t1 < t_ e /\ t_ e <= t2) hist).

(** The weight after an on-send at [t_spike]. *)
Definition spec_on_send (c : STDPConnectionMulti) (t_spike t_lastspike delay : R)
           (hist : list histentry) : R :=
  fold_left (spec_update c t_lastspike delay)
            (spec_window (t_lastspike - delay) (t_spike - delay) hist)
            (weight_ c).

End Rule.

(** The history service keeps its entries in the order of time. *)
Definition time_ordered (hist : list histentry) : Prop :=
  StronglySorted (fun a b => t_ a <= t_ b) hist.

(** [n] applications of [learn_] with the same [dt]. *)
Fixpoint learn_iter (pow : R -> R -> R) (c : STDPConnectionMulti) (dt : R)
         (n : nat) (w : R) : R :=
  match n with
  | O => w
  | S n' => learn_ pow c (learn_iter pow c dt n' w) dt
  end.

End STDPSpec.

(* ================================================================== *)
(** * iaf_freq_sensor.cpp                                              *)
(* ================================================================== *)

Module Iaf.

(** ** Parameters, state, internal variables *)

Record Parameters_ : Type := mk_Parameters {
  Tau_ : R;
  C_ : R;
  TauR_ : R;
  U0_ : R;
  I_e_ : R;
  V_reset_ : R;
  Theta_ : R;
  LowerBound_ : R;
  Sigma_ : R;
  Ti_ : R;
  num_of_receptors_ : Z;
  receptor_types_ : list Z
}.

Record State_ : Type := mk_State {
  y0_ : R;
  y1_ : R;
  y2_ : R;
  y3_ : R;
  currents_ : R;
  ti_ : R;
  r_ : Z
}.

Record Variables_ : Type := mk_Variables {
  P21_ : R;
  P22_ : R;
  P31_ : R;
  P33_ : R;
  RefractoryCounts_ : Z
}.

(** The ring buffers, as the block reads them: [spikes_ B i lag] is
    [B_.spikes_[i].get_value(lag)] and [currents B lag] is
    [B_.currents_.get_value(lag)]. *)
Record Buffers_ : Type := mk_Buffers {
  spikes_ : nat -> Z -> R;
  currents : Z -> R
}.

(** Assignments to a single member. *)
Definition set_U0 (x : R) (p : Parameters_) : Parameters_ :=
  mk_Parameters (Tau_ p) (C_ p) (TauR_ p) x (I_e_ p) (V_reset_ p) (Theta_ p)
    (LowerBound_ p) (Sigma_ p) (Ti_ p) (num_of_receptors_ p) (receptor_types_ p).
Definition set_V_reset (x : R) (p : Parameters_) : Parameters_ :=
  mk_Parameters (Tau_ p) (C_ p) (TauR_ p) (U0_ p) (I_e_ p) x (Theta_ p)
    (LowerBound_ p) (Sigma_ p) (Ti_ p) (num_of_receptors_ p) (receptor_types_ p).
Definition set_Theta (x : R) (p : Parameters_) : Parameters_ :=
  mk_Parameters (Tau_ p) (C_ p) (TauR_ p) (U0_ p) (I_e_ p) (V_reset_ p) x
    (LowerBound_ p) (Sigma_ p) (Ti_ p) (num_of_receptors_ p) (receptor_types_ p).
Definition set_LowerBound (x : R) (p : Parameters_) : Parameters_ :=
  mk_Parameters (Tau_ p) (C_ p) (TauR_ p) (U0_ p) (I_e_ p) (V_reset_ p) (Theta_ p)
    x (Sigma_ p) (Ti_ p) (num_of_receptors_ p) (receptor_types_ p).
Definition set_I_e (x : R) (p : Parameters_) : Parameters_ :=
  mk_Parameters (Tau_ p) (C_ p) (TauR_ p) (U0_ p) x (V_reset_ p) (Theta_ p)
    (LowerBound_ p) (Sigma_ p) (Ti_ p) (num_of_receptors_ p) (receptor_types_ p).
Definition set_C (x : R) (p : Parameters_) : Parameters_ :=
  mk_Parameters (Tau_ p) x (TauR_ p) (U0_ p) (I_e_ p) (V_reset_ p) (Theta_ p)
    (LowerBound_ p) (Sigma_ p) (Ti_ p) (num_of_receptors_ p) (receptor_types_ p).
Definition set_Tau (x : R) (p : Parameters_) : Parameters_ :=
  mk_Parameters x (C_ p) (TauR_ p) (U0_ p) (I_e_ p) (V_reset_ p) (Theta_ p)
    (LowerBound_ p) (Sigma_ p) (Ti_ p) (num_of_receptors_ p) (receptor_types_ p).
Definition set_TauR (x : R) (p : Parameters_) : Parameters_ :=
  mk_Parameters (Tau_ p) (C_ p) x (U0_ p) (I_e_ p) (V_reset_ p) (Theta_ p)
    (LowerBound_ p) (Sigma_ p) (Ti_ p) (num_of_receptors_ p) (receptor_types_ p).
Definition set_Sigma (x : R) (p : Parameters_) : Parameters_ :=
  mk_Parameters (Tau_ p) (C_ p) (TauR_ p) (U0_ p) (I_e_ p) (V_reset_ p) (Theta_ p)
    (LowerBound_ p) x (Ti_ p) (num_of_receptors_ p) (receptor_types_ p).
Definition set_Ti (x : R) (p : Parameters_) : Parameters_ :=
  mk_Parameters (Tau_ p) (C_ p) (TauR_ p) (U0_ p) (I_e_ p) (V_reset_ p) (Theta_ p)
    (LowerBound_ p) (Sigma_ p) x (num_of_receptors_ p) (receptor_types_ p).

Definition set_y0 (x : R) (st : State_) : State_ :=
  mk_State x (y1_ st) (y2_ st) (y3_ st) (currents_ st) (ti_ st) (r_ st).
Definition set_y1 (x : R) (st : State_) : State_ :=
  mk_State (y0_ st) x (y2_ st) (y3_ st) (currents_ st) (ti_ st) (r_ st).
Definition set_y2 (x : R) (st : State_) : State_ :=
  mk_State (y0_ st) (y1_ st) x (y3_ st) (currents_ st) (ti_ st) (r_ st).
Definition set_y3 (x : R) (st : State_) : State_ :=
  mk_State (y0_ st) (y1_ st) (y2_ st) x (currents_ st) (ti_ st) (r_ st).
Definition set_currents (x : R) (st : State_) : State_ :=
  mk_State (y0_ st) (y1_ st) (y2_ st) (y3_ st) x (ti_ st) (r_ st).
Definition set_ti (x : R) (st : State_) : State_ :=
  mk_State (y0_ st) (y1_ st) (y2_ st) (y3_ st) (currents_ st) x (r_ st).
Definition set_r (n : Z) (st : State_) : State_ :=
  mk_State (y0_ st) (y1_ st) (y2_ st) (y3_ st) (currents_ st) (ti_ st) n.

(** ** The status dictionary

    A DictionaryDatum maps names to tokens; the node stores doubles and
    one int.  [def<T>(d, n, v)] inserts or overwrites.
    [updateValue<double>(d, n, x)] assigns to [x] when [n] is present,
    and the library raises TypeMismatch when the token found is not a
    double. *)
Inductive Datum : Type :=
| DoubleDatum (x : R)
| IntegerDatum (n : Z).

Abbreviation DictionaryDatum := (gmap string Datum).

Definition def_double (d : DictionaryDatum) (n : string) (x : R) : DictionaryDatum :=
  <[n := DoubleDatum x]> d.

Definition def_int (d : DictionaryDatum) (n : string) (k : Z) : DictionaryDatum :=
  <[n := IntegerDatum k]> d.

Module names.
Definition E_L : string := "E_L".
Definition I_e : string := "I_e".
Definition V_th : string := "V_th".
Definition V_reset : string := "V_reset".
Definition V_min : string := "V_min".
Definition C_m : string := "C_m".
Definition tau_m : string := "tau_m".
Definition t_ref : string := "t_ref".
Definition V_m : string := "V_m".
End names.

(** ** A member function that may throw: state and exception

    [M A] is a computation on the object [*this : Parameters_] that
    returns an [A] or throws; the object it leaves behind is part of the
    result in both cases. *)
Inductive exn : Type :=
| BadProperty (msg : string)
| TypeMismatch.

Definition M (A : Type) : Type := Parameters_ -> Parameters_ * (exn + A).

#[global] Instance M_ret : MRet M := fun A a p => (p, inr a).

#[global] Instance M_bind : MBind M := fun A B k m p =>
  match m p with
  | (p', inr a) => k a p'
  | (p', inl e) => (p', inl e)
  end.

Definition throw {A : Type} (e : exn) : M A := fun p => (p, inl e).

Definition member {A : Type} (f : Parameters_ -> A) : M A := fun p => (p, inr (f p)).

Definition assign (f : Parameters_ -> Parameters_) : M unit := fun p => (f p, inr tt).

Definition updateValue_double (d : DictionaryDatum) (n : string)
           (setter : R -> Parameters_ -> Parameters_) : M bool :=
  match d !! n with
  | None => mret false
  | Some (DoubleDatum x) => assign (setter x) ;; mret true
  | Some (IntegerDatum _) => throw TypeMismatch
  end.

(** [Parameters_::get(d)]. *)
Definition get (p : Parameters_) (d : DictionaryDatum) : DictionaryDatum :=
  let d := def_double d names.E_L (U0_ p) in
  let d := def_double d names.I_e (I_e_ p) in
  let d := def_double d names.V_th (Theta_ p + U0_ p) in
  let d := def_double d names.V_reset (V_reset_ p + U0_ p) in
  let d := def_double d names.V_min (LowerBound_ p + U0_ p) in
  let d := def_double d names.C_m (C_ p) in
  let d := def_double d names.tau_m (Tau_ p) in
  let d := def_double d names.t_ref (TauR_ p) in
  let d := def_double d "Sigma" (Sigma_ p) in
  let d := def_double d "Ti" (Ti_ p) in
  def_int d "n_synapses" (num_of_receptors_ p).

(** The four [if (...) throw BadProperty(...)] statements of [set]. *)
Definition checks (this : Parameters_) : M unit :=
  if decide (C_ this <= 0) then throw (BadProperty "Capacitance must be > 0.")
  else if decide (Tau_ this <= 0) then throw (BadProperty "Membrane time constant must be > 0.")
  else if decide (Ti_ this <= 0) then throw (BadProperty "Integration time must be > 0.")
  else if decide (TauR_ this < 0) then throw (BadProperty "The refractory time t_ref can't be negative.")
  else mret tt.

(** [Parameters_::set(d)]: returns [delta_EL] or throws. *)
Definition set (d : DictionaryDatum) : M R :=
  ELold ← member U0_ ;
  updateValue_double d names.E_L set_U0 ;;
  U0 ← member U0_ ;
  let delta_EL := U0 - ELold in
  updateValue_double d names.V_reset set_V_reset ;;
  updateValue_double d names.V_th set_Theta ;;
  updateValue_double d names.V_min set_LowerBound ;;
  updateValue_double d names.I_e set_I_e ;;
  updateValue_double d names.C_m set_C ;;
  updateValue_double d names.tau_m set_Tau ;;
  updateValue_double d names.t_ref set_TauR ;;
  updateValue_double d "Sigma" set_Sigma ;;
  updateValue_double d "Ti" set_Ti ;;
  this ← member (fun p => p) ;
  checks this ;;
  mret delta_EL.

(** ** Calibration *)

Section Calibrate.

(** [std::pow]. *)
Variable pow : R -> R -> R.

(** [Time(Time::ms(x)).get_steps()]: a duration in ms as a number of
    steps, by the rounding of nest::Time. *)
Variable ms_to_steps : R -> Z.

(** Resolution of the simulation, in ms per step. *)
Variable h : R.

(** The assignments of [calibrate] to [V_]. *)
Definition calibrate_V (P : Parameters_) : Variables_ :=
  let P21 := 2 / (sqrt (3 * Sigma_ P) * pow PI 0.25 * Sigma_ P) in
  let P22 := - 1 / (Sigma_ P * Sigma_ P) in
  let P33 := exp (- h / Tau_ P) in
  let P31 := Tau_ P / C_ P * (1 - P33) in
  {| P21_ := P21; P22_ := P22; P31_ := P31; P33_ := P33;
     RefractoryCounts_ := ms_to_steps (TauR_ P) |}.

(** [calibrate()]: the receptor types become [1 .. num_of_receptors_];
    [None] is the failure of [assert(V_.RefractoryCounts_ >= 0)]. *)
Definition calibrate (P : Parameters_) : option (Parameters_ * Variables_) :=
  let P' :=
    mk_Parameters (Tau_ P) (C_ P) (TauR_ P) (U0_ P) (I_e_ P) (V_reset_ P)
      (Theta_ P) (LowerBound_ P) (Sigma_ P) (Ti_ P) (num_of_receptors_ P)
      (map (fun i => (Z.of_nat i + 1)%Z) (seq 0 (Z.to_nat (num_of_receptors_ P)))) in
  let V := calibrate_V P' in
  if decide (RefractoryCounts_ V >= 0)%Z then Some (P', V) else None.

End Calibrate.

(** ** Update *)

(** What one lag of [update] does to the outside, in order. *)
Inductive Action : Type :=
| set_spiketime (step : Z)
| send_spike (lag : Z)
| record_data (step : Z) (st : State_).

Section Update.

Variable P : Parameters_.
Variable V : Variables_.

(** Resolution of the simulation, in ms per step. *)
Variable h : R.

Variable B : Buffers_.

(** [origin.get_steps()]. *)
Variable origin : Z.

(** [update_currents_(t)]. *)
Definition update_currents_ (t : R) (st : State_) : State_ :=
  let tt_s := t - ti_ st - Ti_ P / 2 in
  let tt_s := P22_ V * tt_s * tt_s in
  set_currents (y0_ st * P21_ V * (1 + tt_s) * exp (tt_s / 2)) st.

(** The two [get_value(lag) > 0.1] blocks at the head of the loop body. *)
Definition drain (lag : Z) (t : R) (st : State_) : State_ :=
  let st :=
    if decide (spikes_ B 0 lag > 0.1)
    then set_ti t (set_currents 0 (set_y2 0 (set_y1 0 st)))
    else st in
  if decide (spikes_ B 1 lag > 0.1)
  then set_y1 1 (set_y3 (V_reset_ P) st)
  else st.

(** The non-refractory branch up to [S_.y2_ += dk * h / 6.0]. *)
Definition integrate (t : R) (st : State_) : State_ :=
  let st := set_y3 (P33_ V * y3_ st + P31_ V * y1_ st * Rabs (y2_ st)) st in
  let st := set_y1 (P33_ V * y1_ st) st in
  let dk := currents_ st in
  let st := update_currents_ (t + h / 2) st in
  let dk := dk + 4 * currents_ st in
  let st := update_currents_ (t + h) st in
  let dk := dk + currents_ st in
  set_y2 (y2_ st + dk * h / 6) st.

(** The three lower-bound assignments that end the branch. *)
Definition lower_bound (st : State_) : State_ :=
  let st := set_y3 (if decide (y3_ st < LowerBound_ P) then LowerBound_ P else y3_ st) st in
  let st := set_y2 (if decide (y2_ st < LowerBound_ P) then LowerBound_ P else y2_ st) st in
  set_y1 (if decide (y1_ st < LowerBound_ P) then LowerBound_ P else y1_ st) st.

(** The [if ( S_.r_ == 0 ) ... else --S_.r_;] statement. *)
Definition advance (t : R) (st : State_) : State_ :=
  if decide (r_ st = 0%Z)
  then lower_bound (integrate t st)
  else set_r (r_ st - 1)%Z st.

(** The threshold test and the reset, with what they send out. *)
Definition threshold (lag : Z) (Vm0 : R) (st : State_) : State_ * list Action :=
  if decide (Vm0 < Theta_ P /\ y3_ st >= Theta_ P)
  then (set_y1 0 (set_y2 0 (set_y3 (U0_ P) (set_r (RefractoryCounts_ V) st))),
        [set_spiketime (origin + lag + 1); send_spike lag])
  else (st, []).

(** The body of the [for] loop, for one [lag]. *)
Definition step (lag : Z) (st : State_) : State_ * list Action :=
  let t := step_to_ms h (origin + lag + 1) in
  let st := drain lag t st in
  let Vm0 := y3_ st in
  let st := advance t st in
  let '(st, out) := threshold lag Vm0 st in
  let st := set_y0 (currents B lag) st in
  (st, out ++ [record_data (origin + lag) st]).

(** [n] iterations of the loop from [lag] on. *)
Fixpoint update_loop (n : nat) (lag : Z) (st : State_) : State_ * list Action :=
  match n with
  | O => (st, [])
  | Datatypes.S n' =>
      let '(S1, out1) := step lag st in
      let '(S2, out2) := update_loop n' (lag + 1)%Z S1 in
      (S2, out1 ++ out2)
  end.

(** Scheduler::get_min_delay(). *)
Variable min_delay : Z.

(** [update(origin, from, to)]; [None] is a failed [assert]. *)
Definition update (from to : Z) (st : State_) : option (State_ * list Action) :=
  if decide ((to >= 0)%Z /\ (from < min_delay)%Z) then
    if decide (from < to)%Z
    then Some (update_loop (Z.to_nat (to - from)) from st)
    else None
  else None.

End Update.

End Iaf.

(** ** The kernel and the quadrature as the specification words them *)
Module IafSpec.
Import Iaf.

(** The kernel value at the query time [tau]. *)
Definition kernel (P : Parameters_) (V : Variables_) (y0 ti tau : R) : R :=
  y0 * P21_ V * (1 + P22_ V * (tau - ti - Ti_ P / 2) ^ 2)
  * exp (P22_ V * (tau - ti - Ti_ P / 2) ^ 2 / 2).

(** Simpson's rule on [[t, t + h]]: weights [(1, 4, 1) * h / 6]. *)
Definition simpson (h : R) (k : R -> R) (t : R) : R :=
  h / 6 * (k t + 4 * k (t + h / 2) + k (t + h)).

(** A value of the dictionary under [n], or [old] when there is none. *)
Definition updated (d : DictionaryDatum) (n : string) (old : R) : R :=
  match d !! n with
  | Some (DoubleDatum x) => x
  | _ => old
  end.

(** What one [updateValue<double>] leaves in the object. *)
Definition upd (d : DictionaryDatum) (n : string)
           (setter : R -> Parameters_ -> Parameters_) (p : Parameters_) : Parameters_ :=
  match d !! n with
  | Some (DoubleDatum x) => setter x p
  | _ => p
  end.

(** The object after the ten updates. *)
Definition after_updates (d : DictionaryDatum) (p : Parameters_) : Parameters_ :=
  upd d "Ti" set_Ti
    (upd d "Sigma" set_Sigma
      (upd d names.t_ref set_TauR
        (upd d names.tau_m set_Tau
          (upd d names.C_m set_C
            (upd d names.I_e set_I_e
              (upd d names.V_min set_LowerBound
                (upd d names.V_th set_Theta
                  (upd d names.V_reset set_V_reset
                    (upd d names.E_L set_U0 p))))))))).

(** The parameters with every entry of the dictionary written over the
    member of its name. *)
Definition overwritten (d : DictionaryDatum) (p : Parameters_) : Parameters_ :=
  {| Tau_ := updated d names.tau_m (Tau_ p);
     C_ := updated d names.C_m (C_ p);
     TauR_ := updated d names.t_ref (TauR_ p);
     U0_ := updated d names.E_L (U0_ p);
     I_e_ := updated d names.I_e (I_e_ p);
     V_reset_ := updated d names.V_reset (V_reset_ p);
     Theta_ := updated d names.V_th (Theta_ p);
     LowerBound_ := updated d names.V_min (LowerBound_ p);
     Sigma_ := updated d "Sigma" (Sigma_ p);
     Ti_ := updated d "Ti" (Ti_ p);
     num_of_receptors_ := num_of_receptors_ p;
     receptor_types_ := receptor_types_ p |}.

(** The parameters with the three relative potentials moved by [U0]. *)
Definition shifted (p : Parameters_) : Parameters_ :=
  set_LowerBound (LowerBound_ p + U0_ p)
    (set_Theta (Theta_ p + U0_ p)
      (set_V_reset (V_reset_ p + U0_ p) p)).

(** No token of another type sits under a name that [set] reads. *)
Definition double_or_absent (d : DictionaryDatum) (n : string) : Prop :=
  match d !! n with
  | Some (IntegerDatum _) => False
  | _ => True
  end.

Definition well_typed (d : DictionaryDatum) : Prop :=
  Forall (double_or_absent d)
    [names.E_L; names.V_reset; names.V_th; names.V_min; names.I_e;
     names.C_m; names.tau_m; names.t_ref; "Sigma"; "Ti"].

(** The constraints [set] checks. *)
Definition valid (p : Parameters_) : Prop :=
  C_ p > 0 /\ Tau_ p > 0 /\ Ti_ p > 0 /\ TauR_ p >= 0.

(** The step at [lag] from [st] detects a threshold crossing: the
    potential before the update is below [Theta], the one after it is
    not. *)
Definition crosses (P : Parameters_) (V : Variables_) (h : R) (B : Buffers_)
           (origin lag : Z) (st : State_) : Prop :=
  let t := step_to_ms h (origin + lag + 1) in
  y3_ (drain P B lag t st) < Theta_ P /\
  y3_ (advance P V h t (drain P B lag t st)) >= Theta_ P.

(** The outgoing spikes among the actions of a step. *)
Definition sent (out : list Action) : list Z :=
  omap (fun a => match a with send_spike lag => Some lag | _ => None end) out.

(** The states handed to the logger. *)
Definition recorded (out : list Action) : list State_ :=
  omap (fun a => match a with record_data _ st => Some st | _ => None end) out.

(** A step boundary state with the three traces at or above the bound. *)
Definition bounded_below (P : Parameters_) (st : State_) : Prop :=
  y1_ st >= LowerBound_ P /\ y2_ st >= LowerBound_ P /\ y3_ st >= LowerBound_ P.

(** No type-A and no type-B event in the lags [[lag, lag + n)]. *)
Definition quiet (B : Buffers_) (lag : Z) (n : nat) : Prop :=
  forall k : Z, (lag <= k < lag + Z.of_nat n)%Z ->
    ~ spikes_ B 0 k > 0.1 /\ ~ spikes_ B 1 k > 0.1.

End IafSpec.

(* ================================================================== *)
(** * Concrete configurations                                          *)
(* ================================================================== *)

Module Scenario.
Import STDP.

(** A connection with [Aplus = Aneg = 1], [tplus = tneg = 20],
    [Wmax = 1] and weight [0.5], one step of delay. *)
Definition connection : STDPConnectionMulti :=
  {| weight_ := 0.5; delay_ := 1; rport_ := 0;
     Aplus_ := 1; Aneg_ := 1; tplus_ := 20; tneg_ := 20;
     Wmax_ := 1; Esyn_ := 1; EmitSpk_ := true |}.


(** A history with two post-synaptic spikes, at 1 ms and 3 ms. *)
Definition history : list histentry :=
  [ {| t_ := 1; access_counter_ := 0 |}; {| t_ := 3; access_counter_ := 0 |} ].

Import Iaf.

(** The parameters of the default constructor, with a finite lower
    bound, calibrated. *)
Definition P0 : Parameters_ :=
  {| Tau_ := 30; C_ := 1; TauR_ := 2; U0_ := 0; I_e_ := 0;
     V_reset_ := -10; Theta_ := -1; LowerBound_ := -100;
     Sigma_ := 30; Ti_ := 50;
     num_of_receptors_ := 2; receptor_types_ := [1%Z; 2%Z] |}.

(** Steps of 0.1 ms. *)
Definition h0 : R := 0.1.

(** The internal variables [calibrate] derives from [P0]: [std::pow] is
    [Rpower], its base [pi] being positive, and the one duration handed
    to the conversion, the refractory time of 2 ms, is 20 steps. *)
Definition V0 : Variables_ := calibrate_V Rpower (fun _ => 20%Z) h0 P0.

(** A dictionary with a negative capacitance. *)
Definition d_negative_C : DictionaryDatum :=
  {[ names.C_m := DoubleDatum (-1) ]}.

(** Empty spike buffers and a current of 1 pA. *)
Definition B_on : Buffers_ :=
  {| spikes_ := fun _ _ => 0; currents := fun _ => 1 |}.

(** Empty ring buffers. *)
Definition B_empty : Buffers_ :=
  {| spikes_ := fun _ _ => 0; currents := fun _ => 0 |}.

(** A type-B event at lag 0 and nothing else. *)
Definition B_typeB : Buffers_ :=
  {| spikes_ := fun i lag => if decide (i = 1%nat /\ lag = 0%Z) then 1 else 0;
     currents := fun _ => 0 |}.

(** The state of the default constructor, the kernel anchored at the
    first step. *)
Definition st_rest : State_ :=
  {| y0_ := 0; y1_ := 0; y2_ := 0; y3_ := 0; currents_ := 0; ti_ := 0.1; r_ := 0 |}.

(** At rest, one step before the end of a refractory period. *)
Definition st_refractory : State_ :=
  {| y0_ := 0; y1_ := 0; y2_ := 0; y3_ := 0; currents_ := 0; ti_ := 0.1; r_ := 1 |}.

(** At rest, with the secondary trace charged. *)
Definition st_charged : State_ :=
  {| y0_ := 0; y1_ := 0; y2_ := 1000; y3_ := 0; currents_ := 0; ti_ := 0.1; r_ := 0 |}.

(** At rest, the input current just switched on: the step before had
    [y0 = 0] and left [currents = 0]. *)
Definition st_on : State_ :=
  {| y0_ := 1; y1_ := 0; y2_ := 0; y3_ := 0; currents_ := 0; ti_ := 0.1; r_ := 0 |}.

(** The parameters [P0] with the threshold above the resting level. *)
Definition P_above : Parameters_ := set_Theta 1 P0.

(** The parameters [P0] with a lower bound above the reset level. *)
Definition P_tight : Parameters_ := set_LowerBound (-5) P0.

End Scenario.

(* ================================================================== *)
(** * The rest of the node and of the connection                       *)
(* ================================================================== *)

(** ** The branch of the rule that [send] can reach *)
Module STDPMore.
Import STDP STDPSpec.

(** The [else] branch of [learn_] on one history entry. *)
Definition depress_update (pow : R -> R -> R) (c : STDPConnectionMulti)
           (t_lastspike delay : R) (weight t_post : R) : R :=
  clamp (weight - weight * Aneg_ c
                  * pow (1 - 1 / tneg_ c) (- (t_lastspike - (t_post + delay))))
        0 (Wmax_ c).

(** The factor by which one depression step scales the weight. *)
Definition depress_factor (pow : R -> R -> R) (c : STDPConnectionMulti)
           (dt : R) : R :=
  Aneg_ c * pow (1 - 1 / tneg_ c) (- dt).

End STDPMore.

(** ** State dictionary, ports and event handlers of the node *)
Module IafNode.
Import Iaf.

(** [State_::get(d, p)]. *)
Definition State_get (st : State_) (p : Parameters_) (d : DictionaryDatum) :
  DictionaryDatum :=
  def_double d names.V_m (y3_ st).

(** [State_::set(d, p, delta_EL)]: the state it leaves and whether the
    dictionary access threw. *)
Definition State_set (d : DictionaryDatum) (p : Parameters_) (delta_EL : R)
           (st : State_) : State_ * (exn + unit) :=
  match d !! names.V_m with
  | None => (st, inr tt)
  | Some (DoubleDatum x) => (set_y3 x st, inr tt)
  | Some (IntegerDatum _) => (st, inl TypeMismatch)
  end.

(** [connect_sender(SpikeEvent&, receptor_type)]. *)
Inductive port_exn : Type :=
| IncompatibleReceptorType (receptor_type : Z).

Definition connect_sender (P : Parameters_) (receptor_type : Z) : port_exn + Z :=
  if decide (receptor_type <= 0 \/ receptor_type > num_of_receptors_ P)%Z
  then inl (IncompatibleReceptorType receptor_type)
  else inr receptor_type.

(** What the handlers read from an incoming spike: [get_delay()],
    [get_rport()], [get_weight()], [get_multiplicity()] and
    [get_rel_delivery_steps(slice_origin)]. *)
Record SpikeEvent : Type := mk_SpikeEvent {
  se_delay : Z;
  se_rport : Z;
  se_weight : R;
  se_multiplicity : Z;
  se_rel_delivery_steps : Z
}.

(** What the handlers read from an incoming current: [get_delay()],
    [get_current()], [get_weight()] and
    [get_rel_delivery_steps(slice_origin)]. *)
Record CurrentEvent : Type := mk_CurrentEvent {
  ce_delay : Z;
  ce_current : R;
  ce_weight : R;
  ce_rel_delivery_steps : Z
}.

(** RingBuffer::add_value(offs, v). *)
Definition add_value (b : Z -> R) (offs : Z) (v : R) : Z -> R :=
  fun k => if decide (k = offs) then b k + v else b k.

(** The [for] loop of [handle(SpikeEvent&)], [n] iterations from index
    [i] on.  [receptor_types_] has [num_of_receptors_] entries once
    [calibrate] has run; an index without an entry matches no port. *)
Fixpoint handle_loop (P : Parameters_) (e : SpikeEvent) (n : nat) (i : nat)
         (spikes : nat -> Z -> R) : nat -> Z -> R :=
  match n with
  | O => spikes
  | S n' =>
      let spikes' :=
        match receptor_types_ P !! i with
        | Some rt =>
            if decide (rt = se_rport e)
            then fun j =>
                   if decide (j = i)
                   then add_value (spikes i) (se_rel_delivery_steps e)
                                  (se_weight e * IZR (se_multiplicity e))
                   else spikes j
            else spikes
        | None => spikes
        end in
      handle_loop P e n' (S i) spikes'
  end.

(** [handle(SpikeEvent&)]; [None] is the failure of
    [assert(e.get_delay() > 0)]. *)
Definition handle_SpikeEvent (P : Parameters_) (e : SpikeEvent) (B : Buffers_) :
  option Buffers_ :=
  if decide (se_delay e > 0)%Z
  then Some {| spikes_ := handle_loop P e (Z.to_nat (num_of_receptors_ P)) 0 (spikes_ B);
               currents := currents B |}
  else None.

(** [handle(CurrentEvent&)]; [None] is the failure of
    [assert(e.get_delay() > 0)]. *)
Definition handle_CurrentEvent (e : CurrentEvent) (B : Buffers_) : option Buffers_ :=
  if decide (ce_delay e > 0)%Z
  then Some {| spikes_ := spikes_ B;
               currents := add_value (currents B) (ce_rel_delivery_steps e)
                                     (ce_weight e * ce_current e) |}
  else None.

(** What a spike event adds to slot [k] of the buffer of index [i]:
    its weight times its multiplicity in its delivery slot of the
    buffer of its port, nothing elsewhere. *)
Definition delivered (P : Parameters_) (e : SpikeEvent) (i : nat) (k : Z) : R :=
  if decide ((Z.of_nat i < num_of_receptors_ P)%Z /\
             (Z.of_nat i + 1)%Z = se_rport e /\
             k = se_rel_delivery_steps e)
  then se_weight e * IZR (se_multiplicity e)
  else 0.

(** The parameters as [calibrate] leaves them: ports [1 .. n]. *)
Definition ports_calibrated (P : Parameters_) : Prop :=
  (0 <= num_of_receptors_ P)%Z /\
  receptor_types_ P =
    map (fun i => (Z.of_nat i + 1)%Z) (seq 0 (Z.to_nat (num_of_receptors_ P))).

(** The steps handed to the logger and to [set_spiketime]. *)
Definition logged_steps (out : list Action) : list Z :=
  omap (fun a => match a with record_data k _ => Some k | _ => None end) out.

Definition spike_times (out : list Action) : list Z :=
  omap (fun a => match a with set_spiketime k => Some k | _ => None end) out.

(** A postcondition of a member function of [Parameters_], for the
    runs that return. *)
Definition returns {A : Type} (m : M A) (Q : Parameters_ -> A -> Prop)
           (p : Parameters_) : Prop :=
  match m p with
  | (p', inr a) => Q p' a
  | (_, inl _) => True
  end.

(** A relation between the object before and after a member function,
    whether it returns or throws. *)
Definition relates {A : Type} (m : M A) (Rel : Parameters_ -> Parameters_ -> Prop) :
  Prop :=
  forall p, Rel p (m p).1.

(** No type-B event at any lag. *)
Definition no_typeB (B : Buffers_) : Prop :=
  forall k : Z, ~ spikes_ B 1 k > 0.1.

(** No event on either receptor and no input current in the lags
    [[lag, lag + n)]. *)
Definition silent (B : Buffers_) (lag : Z) (n : nat) : Prop :=
  forall k : Z, (lag <= k < lag + Z.of_nat n)%Z ->
    ~ spikes_ B 0 k > 0.1 /\ ~ spikes_ B 1 k > 0.1 /\ currents B k = 0.

(** A non-refractory state without input: the kernel and the secondary
    trace are at zero, the potential is between the bound and zero. *)
Definition leaking (P : Parameters_) (st : State_) : Prop :=
  r_ st = 0%Z /\ y0_ st = 0 /\ currents_ st = 0 /\ y2_ st = 0 /\
  LowerBound_ P <= y3_ st /\ y3_ st <= 0 /\ 0 <= y1_ st /\ LowerBound_ P <= 0.

End IafNode.

(** ** More concrete configurations *)
Module ScenarioMore.
Import Iaf IafNode Scenario.

(** A dictionary that moves the resting potential and the threshold. *)
Definition d_threshold : DictionaryDatum :=
  <[ names.V_th := DoubleDatum (-2) ]> {[ names.E_L := DoubleDatum 3 ]}.

(** A spike of weight 1 on port 2 (type B) and one of weight 0.06 on
    port 1 (type A), both for slot 0. *)
Definition e_typeB : SpikeEvent :=
  {| se_delay := 1; se_rport := 2; se_weight := 1; se_multiplicity := 1;
     se_rel_delivery_steps := 0 |}.

Definition e_weak : SpikeEvent :=
  {| se_delay := 1; se_rport := 1; se_weight := 0.06; se_multiplicity := 1;
     se_rel_delivery_steps := 0 |}.

(** A current of 2 pA with weight 0.5 for slot 0. *)
Definition e_current : CurrentEvent :=
  {| ce_delay := 1; ce_current := 2; ce_weight := 0.5;
     ce_rel_delivery_steps := 0 |}.

(** The state a type-B event leaves a node at rest in. *)
Definition st_reset : State_ :=
  {| y0_ := 0; y1_ := 1; y2_ := 0; y3_ := -10; currents_ := 0; ti_ := 0.1; r_ := 0 |}.

(** In the middle of a refractory period. *)
Definition st_refractory_10 : State_ :=
  {| y0_ := 0; y1_ := 0; y2_ := 0; y3_ := 0; currents_ := 0; ti_ := 0.1; r_ := 10 |}.

End ScenarioMore.

(* ================================================================== *)
(** * Doubles that are not numbers                                     *)
(* ================================================================== *)

(** The two models above compute on finite doubles.  Two paths of the
    code leave them with finite inputs: the constructor of [State_]
    starts [ti_] at [-infinity] (and that of [Parameters_] starts
    [LowerBound_] there), and [std::pow] returns NaN on a negative base
    with an exponent that is not an integer.  The modules below run the
    same code on doubles with their non-finite values. *)
Module Double.

(** A double: a number, an infinity, or NaN.  The arithmetic on numbers
    is exact, and a zero has no sign (a quotient by zero is one by
    [+0]); the results on infinities and NaN are those of IEEE 754.
    The only divisors of the code below that can be zero are [tplus_]
    and [tneg_] in [learn_], where the quotient enters the base of
    [std::pow]; the other divisors are the constants 2 and 6. *)
Inductive double_t : Type :=
| Num (x : R)
| NegInf
| PosInf
| NaN.

#[global] Instance Req_decision (x y : R) : Decision (x = y) := Req_dec_T x y.

#[global] Instance double_eq_decision : EqDecision double_t.
Proof. solve_decision. Defined.

(** The infinity with the sign of [x]; NaN when [x] is zero, as for
    [0 * infinity] and [0 / 0]. *)
Definition inf_of_sign (x : R) : double_t :=
  if decide (x > 0) then PosInf else if decide (x < 0) then NegInf else NaN.

Definition dopp (a : double_t) : double_t :=
  match a with
  | Num x => Num (- x)
  | NegInf => PosInf
  | PosInf => NegInf
  | NaN => NaN
  end.

Definition dadd (a b : double_t) : double_t :=
  match a, b with
  | Num x, Num y => Num (x + y)
  | NaN, _ | _, NaN => NaN
  | PosInf, NegInf | NegInf, PosInf => NaN
  | PosInf, _ | _, PosInf => PosInf
  | NegInf, _ | _, NegInf => NegInf
  end.

Definition dsub (a b : double_t) : double_t := dadd a (dopp b).

Definition dmul (a b : double_t) : double_t :=
  match a, b with
  | Num x, Num y => Num (x * y)
  | NaN, _ | _, NaN => NaN
  | Num x, PosInf | PosInf, Num x => inf_of_sign x
  | Num x, NegInf | NegInf, Num x => inf_of_sign (- x)
  | PosInf, PosInf | NegInf, NegInf => PosInf
  | PosInf, NegInf | NegInf, PosInf => NegInf
  end.

Definition ddiv (a b : double_t) : double_t :=
  match a, b with
  | Num x, Num y => if decide (y = 0) then inf_of_sign x else Num (x / y)
  | NaN, _ | _, NaN => NaN
  | Num _, _ => Num 0
  | PosInf, Num y => if decide (y < 0) then NegInf else PosInf
  | NegInf, Num y => if decide (y < 0) then PosInf else NegInf
  | _, _ => NaN
  end.

(** [std::abs] and [std::exp]. *)
Definition dabs (a : double_t) : double_t :=
  match a with
  | Num x => Num (Rabs x)
  | NaN => NaN
  | _ => PosInf
  end.

Definition dexp (a : double_t) : double_t :=
  match a with
  | Num x => Num (exp x)
  | NegInf => Num 0
  | PosInf => PosInf
  | NaN => NaN
  end.

(** The comparisons: every comparison with NaN is false. *)
Definition dlt (a b : double_t) : Prop :=
  match a, b with
  | Num x, Num y => x < y
  | NegInf, Num _ | NegInf, PosInf | Num _, PosInf => True
  | _, _ => False
  end.

Definition dgt (a b : double_t) : Prop :=
  match a, b with
  | Num x, Num y => x > y
  | Num _, NegInf | PosInf, NegInf | PosInf, Num _ => True
  | _, _ => False
  end.

Definition dle (a b : double_t) : Prop :=
  match a, b with
  | Num x, Num y => x <= y
  | NaN, _ | _, NaN => False
  | NegInf, _ | _, PosInf => True
  | _, _ => False
  end.

Definition dge (a b : double_t) : Prop :=
  match a, b with
  | Num x, Num y => x >= y
  | NaN, _ | _, NaN => False
  | _, NegInf | PosInf, _ => True
  | _, _ => False
  end.

#[global] Instance dlt_decision (a b : double_t) : Decision (dlt a b).
Proof. destruct a, b; cbn; apply _. Defined.
#[global] Instance dgt_decision (a b : double_t) : Decision (dgt a b).
Proof. destruct a, b; cbn; apply _. Defined.
#[global] Instance dle_decision (a b : double_t) : Decision (dle a b).
Proof. destruct a, b; cbn; apply _. Defined.
#[global] Instance dge_decision (a b : double_t) : Decision (dge a b).
Proof. destruct a, b; cbn; apply _. Defined.

(** A double that is a number. *)
Definition finite (a : double_t) : Prop := exists x : R, a = Num x.

(** ** std::pow

    The function of the C library (C99, F.9.4.4) on the doubles above.
    On a positive base it is [Rpower]; a negative base has a power only
    for an exponent that is an integer, and NaN otherwise. *)
Definition is_integer (y : R) : Prop := IZR (Int_part y) = y.

Definition is_odd_integer (y : R) : Prop :=
  is_integer y /\ Z.odd (Int_part y) = true.

#[global] Instance is_integer_decision (y : R) : Decision (is_integer y) :=
  Req_dec_T (IZR (Int_part y)) y.

#[global] Instance is_odd_integer_decision (y : R) : Decision (is_odd_integer y).
Proof. unfold is_odd_integer. apply _. Defined.


End Double.

Declare Scope double_scope.
Delimit Scope double_scope with D.
Bind Scope double_scope with Double.double_t.
Notation "- a" := (Double.dopp a) : double_scope.
Notation "a + b" := (Double.dadd a b) : double_scope.
Notation "a - b" := (Double.dsub a b) : double_scope.
Notation "a * b" := (Double.dmul a b) : double_scope.
Notation "a / b" := (Double.ddiv a b) : double_scope.
Notation "a < b" := (Double.dlt a b) : double_scope.
Notation "a > b" := (Double.dgt a b) : double_scope.
Notation "a <= b" := (Double.dle a b) : double_scope.
Notation "a >= b" := (Double.dge a b) : double_scope.

(* ================================================================== *)
(** * stdp_connection_multi.h on doubles                               *)
(* ================================================================== *)

Module STDPDouble.
Import Double.

(** The data members, every [double_t] a double. *)
Record STDPConnectionMulti : Type := mk_connection {
  weight_ : double_t;
  delay_ : Z;
  rport_ : Z;
  Aplus_ : double_t;
  Aneg_ : double_t;
  tplus_ : double_t;
  tneg_ : double_t;
  Wmax_ : double_t;
  Esyn_ : double_t;
  EmitSpk_ : bool
}.

Definition set_weight (c : STDPConnectionMulti) (w : double_t) : STDPConnectionMulti :=
  {| weight_ := w; delay_ := delay_ c; rport_ := rport_ c;
     Aplus_ := Aplus_ c; Aneg_ := Aneg_ c; tplus_ := tplus_ c;
     tneg_ := tneg_ c; Wmax_ := Wmax_ c; Esyn_ := Esyn_ c;
     EmitSpk_ := EmitSpk_ c |}.

Record SpikeEvent : Type := mk_event {
  ev_stamp : Z;
  ev_weight : double_t;
  ev_delay : Z;
  ev_rport : Z
}.

(** A connection whose members are the numbers of a connection of the
    first model. *)
Definition of_numbers (c : STDP.STDPConnectionMulti) : STDPConnectionMulti :=
  {| weight_ := Num (STDP.weight_ c); delay_ := STDP.delay_ c;
     rport_ := STDP.rport_ c;
     Aplus_ := Num (STDP.Aplus_ c); Aneg_ := Num (STDP.Aneg_ c);
     tplus_ := Num (STDP.tplus_ c); tneg_ := Num (STDP.tneg_ c);
     Wmax_ := Num (STDP.Wmax_ c); Esyn_ := Num (STDP.Esyn_ c);
     EmitSpk_ := STDP.EmitSpk_ c |}.

Section Connection.

(** [std::pow]. *)
Variable pow : double_t -> double_t -> double_t.

(** Resolution of the simulation, in ms per step. *)
Variable h : R.

(** [learn_(w, dt)]. *)
Definition learn_ (c : STDPConnectionMulti) (w dt : double_t) : double_t :=
  let '(wd, td) :=
    if decide (dt > Num 0)%D
    then (dexp (- w) * Aplus_ c, pow (Num 1 - Num 1 / tplus_ c) dt)%D
    else (- w * Aneg_ c, pow (Num 1 - Num 1 / tneg_ c) (- dt))%D in
  let nw := (w + wd * td)%D in
  if decide (nw < Num 0)%D then Num 0
  else if decide (nw > Wmax_ c)%D then Wmax_ c
  else nw.

(** The loop of [send] over the range returned by [get_history]; the
    times of the call and of the history are numbers. *)
Fixpoint replay (c : STDPConnectionMulti) (t_lastspike dendritic_delay : R)
         (range : list STDP.histentry) (weight : double_t) : double_t :=
  match range with
  | [] => weight
  | start :: rest =>
      let minus_dt := Num (t_lastspike - (STDP.t_ start + dendritic_delay)) in
      replay c t_lastspike dendritic_delay rest (learn_ c weight minus_dt)
  end.

(** The values [weight_] takes, one per iteration of the loop. *)
Fixpoint replay_weights (c : STDPConnectionMulti) (t_lastspike dendritic_delay : R)
         (range : list STDP.histentry) (weight : double_t) : list double_t :=
  match range with
  | [] => []
  | start :: rest =>
      let minus_dt := Num (t_lastspike - (STDP.t_ start + dendritic_delay)) in
      let weight' := learn_ c weight minus_dt in
      weight' :: replay_weights c t_lastspike dendritic_delay rest weight'
  end.

(** [send(e, t_lastspike, cp)]. *)
Definition send (c : STDPConnectionMulti) (stamp : Z) (t_lastspike : R)
           (hist : list STDP.histentry) : STDPConnectionMulti * list SpikeEvent :=
  let t_spike := step_to_ms h stamp in
  let dendritic_delay := step_to_ms h (delay_ c) in
  let range := STDP.get_history (t_lastspike - dendritic_delay)
                                (t_spike - dendritic_delay) hist in
  let c' := set_weight c (replay c t_lastspike dendritic_delay range (weight_ c)) in
  (c', if EmitSpk_ c'
       then [ {| ev_stamp := stamp; ev_weight := (weight_ c' * Esyn_ c')%D;
                 ev_delay := delay_ c'; ev_rport := rport_ c' |} ]
       else []).

(** The weights [send] assigns to [weight_], in order. *)
Definition send_weights (c : STDPConnectionMulti) (stamp : Z) (t_lastspike : R)
           (hist : list STDP.histentry) : list double_t :=
  let t_spike := step_to_ms h stamp in
  let dendritic_delay := step_to_ms h (delay_ c) in
  replay_weights c t_lastspike dendritic_delay
    (STDP.get_history (t_lastspike - dendritic_delay) (t_spike - dendritic_delay) hist)
    (weight_ c).

(** The power [learn_] multiplies by: that of its first branch when
    [dt > 0], that of its second otherwise. *)
Definition power (c : STDPConnectionMulti) (dt : double_t) : double_t :=
  if decide (dt > Num 0)%D
  then pow (Num 1 - Num 1 / tplus_ c)%D dt
  else pow (Num 1 - Num 1 / tneg_ c)%D (- dt)%D.

End Connection.


End STDPDouble.

(* ================================================================== *)
(** * iaf_freq_sensor.cpp on doubles                                   *)
(* ================================================================== *)

Module IafDouble.
Import Double.

Record Parameters_ : Type := mk_Parameters {
  Tau_ : double_t;
  C_ : double_t;
  TauR_ : double_t;
  U0_ : double_t;
  I_e_ : double_t;
  V_reset_ : double_t;
  Theta_ : double_t;
  LowerBound_ : double_t;
  Sigma_ : double_t;
  Ti_ : double_t;
  num_of_receptors_ : Z;
  receptor_types_ : list Z
}.

Record State_ : Type := mk_State {
  y0_ : double_t;
  y1_ : double_t;
  y2_ : double_t;
  y3_ : double_t;
  currents_ : double_t;
  ti_ : double_t;
  r_ : Z
}.

Record Variables_ : Type := mk_Variables {
  P21_ : double_t;
  P22_ : double_t;
  P31_ : double_t;
  P33_ : double_t;
  RefractoryCounts_ : Z
}.

(** [Parameters_::Parameters_()] and [State_::State_()]. *)
Definition new_Parameters_ : Parameters_ :=
  {| Tau_ := Num 30; C_ := Num 1; TauR_ := Num 2; U0_ := Num 0; I_e_ := Num 0;
     V_reset_ := Num (-10); Theta_ := Num (-1); LowerBound_ := NegInf;
     Sigma_ := Num 30; Ti_ := Num 50;
     num_of_receptors_ := 2; receptor_types_ := [] |}.

Definition new_State_ : State_ :=
  {| y0_ := Num 0; y1_ := Num 0; y2_ := Num 0; y3_ := Num 0;
     currents_ := Num 0; ti_ := NegInf; r_ := 0 |}.

Definition set_LowerBound (x : double_t) (p : Parameters_) : Parameters_ :=
  mk_Parameters (Tau_ p) (C_ p) (TauR_ p) (U0_ p) (I_e_ p) (V_reset_ p) (Theta_ p)
    x (Sigma_ p) (Ti_ p) (num_of_receptors_ p) (receptor_types_ p).

Definition set_y0 (x : double_t) (st : State_) : State_ :=
  mk_State x (y1_ st) (y2_ st) (y3_ st) (currents_ st) (ti_ st) (r_ st).
Definition set_y1 (x : double_t) (st : State_) : State_ :=
  mk_State (y0_ st) x (y2_ st) (y3_ st) (currents_ st) (ti_ st) (r_ st).
Definition set_y2 (x : double_t) (st : State_) : State_ :=
  mk_State (y0_ st) (y1_ st) x (y3_ st) (currents_ st) (ti_ st) (r_ st).
Definition set_y3 (x : double_t) (st : State_) : State_ :=
  mk_State (y0_ st) (y1_ st) (y2_ st) x (currents_ st) (ti_ st) (r_ st).
Definition set_currents (x : double_t) (st : State_) : State_ :=
  mk_State (y0_ st) (y1_ st) (y2_ st) (y3_ st) x (ti_ st) (r_ st).
Definition set_ti (x : double_t) (st : State_) : State_ :=
  mk_State (y0_ st) (y1_ st) (y2_ st) (y3_ st) (currents_ st) x (r_ st).
Definition set_r (n : Z) (st : State_) : State_ :=
  mk_State (y0_ st) (y1_ st) (y2_ st) (y3_ st) (currents_ st) (ti_ st) n.

(** What one lag of [update] does to the outside, in order. *)
Inductive Action : Type :=
| set_spiketime (step : Z)
| send_spike (lag : Z)
| record_data (step : Z) (st : State_).

Section Update.

Variable P : Parameters_.
Variable V : Variables_.

(** Resolution of the simulation, in ms per step. *)
Variable h : R.

(** The ring buffers hold numbers. *)
Variable B : Iaf.Buffers_.

(** [origin.get_steps()]. *)
Variable origin : Z.

(** [update_currents_(t)]. *)
Definition update_currents_ (t : R) (st : State_) : State_ :=
  let tt_s := (Num t - ti_ st - Ti_ P / Num 2)%D in
  let tt_s := (P22_ V * tt_s * tt_s)%D in
  set_currents (y0_ st * P21_ V * (Num 1 + tt_s) * dexp (tt_s / Num 2))%D st.

(** The two [get_value(lag) > 0.1] blocks at the head of the loop body. *)
Definition drain (lag : Z) (t : R) (st : State_) : State_ :=
  let st :=
    if decide (Iaf.spikes_ B 0 lag > 0.1)
    then set_ti (Num t) (set_currents (Num 0) (set_y2 (Num 0) (set_y1 (Num 0) st)))
    else st in
  if decide (Iaf.spikes_ B 1 lag > 0.1)
  then set_y1 (Num 1) (set_y3 (V_reset_ P) st)
  else st.

(** The non-refractory branch up to [S_.y2_ += dk * h / 6.0]. *)
Definition integrate (t : R) (st : State_) : State_ :=
  let st := set_y3 (P33_ V * y3_ st + P31_ V * y1_ st * dabs (y2_ st))%D st in
  let st := set_y1 (P33_ V * y1_ st)%D st in
  let dk := currents_ st in
  let st := update_currents_ (t + h / 2) st in
  let dk := (dk + Num 4 * currents_ st)%D in
  let st := update_currents_ (t + h) st in
  let dk := (dk + currents_ st)%D in
  set_y2 (y2_ st + dk * Num h / Num 6)%D st.

(** The three lower-bound assignments that end the branch. *)
Definition lower_bound (st : State_) : State_ :=
  let st := set_y3 (if decide (y3_ st < LowerBound_ P)%D then LowerBound_ P else y3_ st) st in
  let st := set_y2 (if decide (y2_ st < LowerBound_ P)%D then LowerBound_ P else y2_ st) st in
  set_y1 (if decide (y1_ st < LowerBound_ P)%D then LowerBound_ P else y1_ st) st.

(** The [if ( S_.r_ == 0 ) ... else --S_.r_;] statement. *)
Definition advance (t : R) (st : State_) : State_ :=
  if decide (r_ st = 0%Z)
  then lower_bound (integrate t st)
  else set_r (r_ st - 1)%Z st.

(** The threshold test and the reset, with what they send out. *)
Definition threshold (lag : Z) (Vm0 : double_t) (st : State_) : State_ * list Action :=
  if decide ((Vm0 < Theta_ P)%D /\ (y3_ st >= Theta_ P)%D)
  then (set_y1 (Num 0) (set_y2 (Num 0) (set_y3 (U0_ P) (set_r (RefractoryCounts_ V) st))),
        [set_spiketime (origin + lag + 1); send_spike lag])
  else (st, []).

(** The body of the [for] loop, for one [lag]. *)
Definition step (lag : Z) (st : State_) : State_ * list Action :=
  let t := step_to_ms h (origin + lag + 1) in
  let st := drain lag t st in
  let Vm0 := y3_ st in
  let st := advance t st in
  let '(st, out) := threshold lag Vm0 st in
  let st := set_y0 (Num (Iaf.currents B lag)) st in
  (st, out ++ [record_data (origin + lag) st]).

(** [n] iterations of the loop from [lag] on. *)
Fixpoint update_loop (n : nat) (lag : Z) (st : State_) : State_ * list Action :=
  match n with
  | O => (st, [])
  | Datatypes.S n' =>
      let '(S1, out1) := step lag st in
      let '(S2, out2) := update_loop n' (lag + 1)%Z S1 in
      (S2, out1 ++ out2)
  end.

(** Scheduler::get_min_delay(). *)
Variable min_delay : Z.

(** [update(origin, from, to)]; [None] is a failed [assert]. *)
Definition update (from to : Z) (st : State_) : option (State_ * list Action) :=
  if decide ((to >= 0)%Z /\ (from < min_delay)%Z) then
    if decide (from < to)%Z
    then Some (update_loop (Z.to_nat (to - from)) from st)
    else None
  else None.

End Update.

(** ** Numbers among the doubles *)

(** The parameters, internal variables, states and actions of the model
    on numbers, each member a number. *)
Definition of_Parameters (P : Iaf.Parameters_) : Parameters_ :=
  {| Tau_ := Num (Iaf.Tau_ P); C_ := Num (Iaf.C_ P); TauR_ := Num (Iaf.TauR_ P);
     U0_ := Num (Iaf.U0_ P); I_e_ := Num (Iaf.I_e_ P);
     V_reset_ := Num (Iaf.V_reset_ P); Theta_ := Num (Iaf.Theta_ P);
     LowerBound_ := Num (Iaf.LowerBound_ P);
     Sigma_ := Num (Iaf.Sigma_ P); Ti_ := Num (Iaf.Ti_ P);
     num_of_receptors_ := Iaf.num_of_receptors_ P;
     receptor_types_ := Iaf.receptor_types_ P |}.

Definition of_Variables (V : Iaf.Variables_) : Variables_ :=
  {| P21_ := Num (Iaf.P21_ V); P22_ := Num (Iaf.P22_ V);
     P31_ := Num (Iaf.P31_ V); P33_ := Num (Iaf.P33_ V);
     RefractoryCounts_ := Iaf.RefractoryCounts_ V |}.

Definition of_State (s : Iaf.State_) : State_ :=
  {| y0_ := Num (Iaf.y0_ s); y1_ := Num (Iaf.y1_ s); y2_ := Num (Iaf.y2_ s);
     y3_ := Num (Iaf.y3_ s); currents_ := Num (Iaf.currents_ s);
     ti_ := Num (Iaf.ti_ s); r_ := Iaf.r_ s |}.

Definition of_Action (a : Iaf.Action) : Action :=
  match a with
  | Iaf.set_spiketime n => set_spiketime n
  | Iaf.send_spike lag => send_spike lag
  | Iaf.record_data n s => record_data n (of_State s)
  end.

Definition of_result (r : Iaf.State_ * list Iaf.Action) : State_ * list Action :=
  (of_State r.1, map of_Action r.2).

(** A state whose members are numbers: in particular the time [ti_] of
    the last type-A event is one, which it is not before the first. *)
Definition finite_state (st : State_) : Prop :=
  exists s : Iaf.State_, st = of_State s.

Definition finite_variables (V : Variables_) : Prop :=
  exists v : Iaf.Variables_, V = of_Variables v.

(** Parameters whose members are numbers, but for the lower bound, which
    may be the [-infinity] of the constructor. *)
Definition finite_parameters (P : Parameters_) : Prop :=
  exists p : Iaf.Parameters_,
    P = of_Parameters p \/ P = set_LowerBound NegInf (of_Parameters p).

(** A bound below which the lower bound plays no role in the step at
    [lag] from [s]: one that is not above [L0] nor above the three
    traces after the integration. *)
Definition low (P : Iaf.Parameters_) (V : Iaf.Variables_) (h : R) (B : Iaf.Buffers_)
           (origin : Z) (L0 : R) (lag : Z) (s : Iaf.State_) : R :=
  let t := step_to_ms h (origin + lag + 1) in
  let i := Iaf.integrate P V h t (Iaf.drain P B lag t s) in
  Rmin L0 (Rmin (Iaf.y1_ i) (Rmin (Iaf.y2_ i) (Iaf.y3_ i))).

(** ** Notions of the statements *)

(** The step at [lag] from [st] detects a threshold crossing. *)
Definition crosses (P : Parameters_) (V : Variables_) (h : R) (B : Iaf.Buffers_)
           (origin lag : Z) (st : State_) : Prop :=
  let t := step_to_ms h (origin + lag + 1) in
  (y3_ (drain P B lag t st) < Theta_ P)%D /\
  (y3_ (advance P V h t (drain P B lag t st)) >= Theta_ P)%D.

(** The outgoing spikes among the actions of a step. *)
Definition sent (out : list Action) : list Z :=
  omap (fun a => match a with send_spike lag => Some lag | _ => None end) out.

(** The states handed to the logger. *)
Definition recorded (out : list Action) : list State_ :=
  omap (fun a => match a with record_data _ st => Some st | _ => None end) out.

(** None of the three traces is below the bound: each is at or above it,
    or is NaN. *)
Definition not_below (P : Parameters_) (st : State_) : Prop :=
  ~ (y1_ st < LowerBound_ P)%D /\ ~ (y2_ st < LowerBound_ P)%D /\
  ~ (y3_ st < LowerBound_ P)%D.

(** The three traces are at or above the bound. *)
Definition bounded_below (P : Parameters_) (st : State_) : Prop :=
  (y1_ st >= LowerBound_ P)%D /\ (y2_ st >= LowerBound_ P)%D /\
  (y3_ st >= LowerBound_ P)%D.

(** No type-A event in the lags [[lag, lag + n)]. *)
Definition no_typeA (B : Iaf.Buffers_) (lag : Z) (n : nat) : Prop :=
  forall k : Z, (lag <= k < lag + Z.of_nat n)%Z -> ~ Iaf.spikes_ B 0 k > 0.1.

(** A non-refractory state without input: the kernel and the secondary
    trace are at zero, the potential is between the bound and zero. *)
Definition leaking (P : Parameters_) (st : State_) : Prop :=
  r_ st = 0%Z /\ y0_ st = Num 0 /\ currents_ st = Num 0 /\ y2_ st = Num 0 /\
  (LowerBound_ P <= y3_ st)%D /\ (y3_ st <= Num 0)%D /\ (Num 0 <= y1_ st)%D /\
  (LowerBound_ P <= Num 0)%D.

End IafDouble.

(** ** Concrete configurations on doubles *)
Module ScenarioDouble.
Import Double.


(** The parameters of the constructor after [calibrate] has set the
    receptor types. *)
Definition P_new : IafDouble.Parameters_ :=
  IafDouble.set_LowerBound NegInf (IafDouble.of_Parameters Scenario.P0).

(** The internal variables [calibrate] derives from them. *)
Definition V_new : IafDouble.Variables_ := IafDouble.of_Variables Scenario.V0.

(** The constructor's state after a type-A event at 0.1 ms. *)
Definition st_anchored : IafDouble.State_ :=
  IafDouble.set_ti (Num 0.1) IafDouble.new_State_.

End ScenarioDouble.

(* ================================================================== *)
(** * Properties of the plasticity rule                                *)
(* ================================================================== *)

Section STDP_properties.
Import STDP STDPSpec.

Variable pow : R -> R -> R.
Variable h : R.

Lemma learn_in_range (c : STDPConnectionMulti) (w dt : R) :
  0 <= Wmax_ c -> 0 <= learn_ pow c w dt <= Wmax_ c.
Proof.
  intros HW. unfold learn_.
  destruct (decide (dt > 0)); repeat case_decide; lra.
Qed.

Lemma replay_weights_in_range (c : STDPConnectionMulti) (tl dd : R)
      (range : list histentry) (w : R) :
  0 <= Wmax_ c ->
  Forall (fun x => 0 <= x <= Wmax_ c) (replay_weights pow c tl dd range w).
Proof.
  intros HW. revert w.
  induction range as [|e rest IH]; intros w; simpl.
  - constructor.
  - constructor; [apply learn_in_range; exact HW | apply IH].
Qed.

Lemma last_cons_default (x : R) (l : list R) (d : R) :
  List.last (x :: l) d = List.last l x.
Proof.
  revert x d. induction l as [|y l IH]; intros x d; [reflexivity|].
  change (List.last (y :: l) d = List.last (y :: l) x).
  rewrite (IH y d), (IH y x). reflexivity.
Qed.

(** The loop ends on the last weight it assigned. *)
Lemma replay_last (c : STDPConnectionMulti) (tl dd : R)
      (range : list histentry) (w : R) :
  replay pow c tl dd range w = List.last (replay_weights pow c tl dd range w) w.
Proof.
  revert w. induction range as [|e rest IH]; intros w; [reflexivity|].
  cbn [replay replay_weights]. rewrite IH. symmetry. apply last_cons_default.
Qed.

Lemma replay_in_range (c : STDPConnectionMulti) (tl dd : R)
      (range : list histentry) (w : R) :
  0 <= w <= Wmax_ c -> 0 <= replay pow c tl dd range w <= Wmax_ c.
Proof.
  revert w. induction range as [|e rest IH]; intros w Hw; simpl.
  - exact Hw.
  - apply IH, learn_in_range. lra.
Qed.

(** *** The history query on a time-ordered history *)

Lemma filter_all {A : Type} (Q : A -> Prop) `{!forall x, Decision (Q x)}
      (l : list A) :
  Forall Q l -> filter Q l = l.
Proof.
  induction 1 as [|x l Hx _ IH]; [reflexivity|].
  rewrite filter_cons_True by exact Hx. now rewrite IH.
Qed.

Lemma filter_none {A : Type} (Q : A -> Prop) `{!forall x, Decision (Q x)}
      (l : list A) :
  Forall (fun x => ~ Q x) l -> filter Q l = [].
Proof.
  induction 1 as [|x l Hx _ IH]; [reflexivity|].
  rewrite filter_cons_False by exact Hx. exact IH.
Qed.

Lemma history_skip_ordered (t1 : R) (hist : list histentry) :
  time_ordered hist -> time_ordered (history_skip t1 hist).
Proof.
  unfold time_ordered. induction 1 as [|e rest Hrest IH Hall]; simpl.
  - constructor.
  - case_decide; [exact IH | now constructor].
Qed.

Lemma history_skip_filter (t1 : R) (hist : list histentry) :
  time_ordered hist ->
  history_skip t1 hist = filter (fun e => t1 < t_ e) hist.
Proof.
  unfold time_ordered. induction 1 as [|e rest Hrest IH Hall]; simpl.
  - reflexivity.
  - case_decide as He.
    + rewrite filter_cons_False by lra. exact IH.
    + rewrite filter_cons_True by lra. f_equal. symmetry.
      apply filter_all. eapply Forall_impl; [exact Hall|].
      simpl. intros x Hx. lra.
Qed.

Lemma history_take_filter (t2 : R) (hist : list histentry) :
  time_ordered hist ->
  history_take t2 hist = filter (fun e => t_ e <= t2) hist.
Proof.
  unfold time_ordered. induction 1 as [|e rest Hrest IH Hall]; simpl.
  - reflexivity.
  - case_decide as He.
    + rewrite filter_cons_True by exact He. now rewrite IH.
    + rewrite filter_cons_False by exact He. symmetry.
      apply filter_none. eapply Forall_impl; [exact Hall|].
      simpl. intros x Hx. lra.
Qed.

(** On a time-ordered history the two loops of [get_history] return
    the entries of [(t1, t2]], in order. *)
Lemma get_history_window (t1 t2 : R) (hist : list histentry) :
  time_ordered hist ->
  map t_ (get_history t1 t2 hist) = spec_window t1 t2 hist.
Proof.
  intros Hord. unfold get_history, spec_window. f_equal.
  rewrite history_take_filter by (apply history_skip_ordered, Hord).
  rewrite history_skip_filter by exact Hord.
  rewrite list_filter_filter. apply list_filter_iff. intros x. tauto.
Qed.

(** One iteration of the loop is one application of the rule. *)
Lemma learn_spec_update (c : STDPConnectionMulti) (tl dd w t_post : R) :
  learn_ pow c w (tl - (t_post + dd)) = spec_update pow c tl dd w t_post.
Proof.
  unfold learn_, spec_update, clamp.
  destruct (decide (tl - (t_post + dd) > 0)).
  - reflexivity.
  - replace (w + - w * Aneg_ c * pow (1 - 1 / tneg_ c) (- (tl - (t_post + dd))))
      with (w - w * Aneg_ c * pow (1 - 1 / tneg_ c) (- (tl - (t_post + dd))))
      by ring.
    reflexivity.
Qed.

Lemma replay_fold (c : STDPConnectionMulti) (tl dd : R)
      (range : list histentry) (w : R) :
  replay pow c tl dd range w =
  fold_left (spec_update pow c tl dd) (map t_ range) w.
Proof.
  revert w. induction range as [|e rest IH]; intros w; [reflexivity|].
  cbn [replay map fold_left]. rewrite IH, learn_spec_update. reflexivity.
Qed.

(** [clamp] between ordered bounds is the usual composition of a
    maximum and a minimum. *)
Lemma clamp_min_max (x lo hi : R) :
  lo <= hi -> clamp x lo hi = Rmin hi (Rmax lo x).
Proof.
  intros Hb. unfold clamp, Rmin, Rmax.
  repeat case_decide; repeat destruct (Rle_dec _ _); lra.
Qed.

(** C6.  The weight [send] leaves behind is the left fold of the rule
    over the timestamps that the history query returns, in their order,
    each [dt] taken against the [t_lastspike] of the call and each
    update starting from the weight of the previous one; the rule is the
    potentiation clamp for [dt > 0] and the depression clamp otherwise.
    On a time-ordered history the timestamps returned are those of
    [(t_lastspike - delay, t_spike - delay]], in chronological order. *)
Theorem send_replays_rule (c : STDPConnectionMulti) (stamp : Z)
        (t_lastspike : R) (hist : list histentry) :
  let t_spike := step_to_ms h stamp in
  let delay := step_to_ms h (delay_ c) in
  weight_ (send pow h c stamp t_lastspike hist).1 =
    fold_left (spec_update pow c t_lastspike delay)
              (map t_ (get_history (t_lastspike - delay) (t_spike - delay) hist))
              (weight_ c) /\
  (time_ordered hist ->
   map t_ (get_history (t_lastspike - delay) (t_spike - delay) hist) =
     spec_window (t_lastspike - delay) (t_spike - delay) hist /\
   weight_ (send pow h c stamp t_lastspike hist).1 =
     spec_on_send pow c t_spike t_lastspike delay hist).
Proof.
  cbv zeta. split.
  - cbn. apply replay_fold.
  - intros Hord. split; [apply get_history_window, Hord|].
    unfold spec_on_send. cbn.
    rewrite replay_fold, get_history_window by exact Hord. reflexivity.
Qed.

(** *** Repeated updates with one [dt] *)

Lemma learn_iter_in_range (c : STDPConnectionMulti) (dt : R) (n : nat) (w : R) :
  0 <= w <= Wmax_ c -> 0 <= learn_iter pow c dt n w <= Wmax_ c.
Proof.
  intros Hw. induction n as [|n IH]; simpl; [exact Hw|].
  apply learn_in_range. lra.
Qed.


Lemma learn_depresses (c : STDPConnectionMulti) (w dt : R) :
  dt < 0 -> 0 <= Aneg_ c * pow (1 - 1 / tneg_ c) (- dt) ->
  0 <= w <= Wmax_ c -> learn_ pow c w dt <= w.
Proof.
  intros Hdt HA Hw. unfold learn_.
  rewrite decide_False by lra.
  assert (0 <= w * (Aneg_ c * pow (1 - 1 / tneg_ c) (- dt))) by
    (apply Rmult_le_pos; lra).
  repeat case_decide; lra.
Qed.


End STDP_properties.

Section STDP_instances.
Import STDP STDPSpec.

Lemma Rpower_pos (x y : R) : 0 < Rpower x y.
Proof. unfold Rpower. apply exp_pos. Qed.

Lemma scenario_history_ordered : time_ordered Scenario.history.
Proof.
  unfold time_ordered, Scenario.history.
  repeat constructor; simpl; lra.
Qed.

Lemma send_replays_rule_witness :
  weight_ (send Rpower 0.1 Scenario.connection 50 2.5 Scenario.history).1 =
  spec_on_send Rpower Scenario.connection (step_to_ms 0.1 50) 2.5
               (step_to_ms 0.1 1) Scenario.history.
Proof.
  apply (send_replays_rule Rpower 0.1 Scenario.connection 50 2.5 Scenario.history).
  exact scenario_history_ordered.
Defined.

(** In the scenario the query returns the spike at 3 ms only: one
    depression step, since [dt = 2.5 - (3 + 0.1) <= 0]. *)
Lemma scenario_window :
  spec_window (2.5 - step_to_ms 0.1 1) (step_to_ms 0.1 50 - step_to_ms 0.1 1)
              Scenario.history = [3].
Proof.
  unfold spec_window, Scenario.history, step_to_ms.
  rewrite filter_cons_False by (cbn; lra).
  rewrite filter_cons_True by (cbn; lra).
  reflexivity.
Qed.



End STDP_instances.

(* ================================================================== *)
(** * Properties of the parameter interface                            *)
(* ================================================================== *)

Ltac split_ands :=
  repeat match goal with |- _ /\ _ => split end.

Ltac names_unfold :=
  unfold Iaf.names.E_L, Iaf.names.I_e, Iaf.names.V_th, Iaf.names.V_reset,
         Iaf.names.V_min, Iaf.names.C_m, Iaf.names.tau_m, Iaf.names.t_ref in *.

Section Parameters_properties.
Import Iaf IafSpec.

Lemma bind_run {A B : Type} (m : M A) (k : A -> M B) (p p1 : Parameters_) (a : A) :
  m p = (p1, inr a) -> (m ≫= k) p = k a p1.
Proof. intros Hm. unfold mbind, M_bind. rewrite Hm. reflexivity. Qed.

Lemma bind_throw {A B : Type} (m : M A) (k : A -> M B) (p p1 : Parameters_) (e : exn) :
  m p = (p1, inl e) -> (m ≫= k) p = (p1, inl e).
Proof. intros Hm. unfold mbind, M_bind. rewrite Hm. reflexivity. Qed.

Lemma updateValue_run (d : DictionaryDatum) (n : string)
      (setter : R -> Parameters_ -> Parameters_) (p : Parameters_) :
  double_or_absent d n ->
  exists b : bool, updateValue_double d n setter p = (upd d n setter p, inr b).
Proof.
  unfold double_or_absent, updateValue_double, upd.
  destruct (d !! n) as [[x|k]|]; intros Hn.
  - exists true. reflexivity.
  - destruct Hn.
  - exists false. reflexivity.
Qed.

Ltac run_update H :=
  match goal with
  | |- (updateValue_double ?d ?n ?s ≫= _) ?p = _ =>
      let b := fresh "b" in let Hb := fresh "Hb" in
      destruct (updateValue_run d n s p H) as [b Hb];
      rewrite (bind_run _ _ _ _ _ Hb); clear b Hb
  end.

Lemma set_run (d : DictionaryDatum) (p : Parameters_) :
  well_typed d ->
  set d p =
  (checks (after_updates d p) ;;
   mret (U0_ (upd d names.E_L set_U0 p) - U0_ p)) (after_updates d p).
Proof.
  unfold well_typed. rewrite !Forall_cons.
  intros (H1 & H2 & H3 & H4 & H5 & H6 & H7 & H8 & H9 & H10 & _).
  unfold set.
  rewrite (bind_run _ _ p p (U0_ p) eq_refl).
  run_update H1.
  rewrite (bind_run _ _ _ _ _ eq_refl).
  run_update H2. run_update H3. run_update H4. run_update H5. run_update H6.
  run_update H7. run_update H8. run_update H9. run_update H10.
  rewrite (bind_run _ _ _ _ _ eq_refl).
  reflexivity.
Qed.

Lemma upd_other {A : Type} (g : Parameters_ -> A)
      (d : DictionaryDatum) (n : string)
      (s : R -> Parameters_ -> Parameters_) (p : Parameters_) :
  (forall x q, g (s x q) = g q) -> g (upd d n s p) = g p.
Proof. intros Hs. unfold upd. destruct (d !! n) as [[x|k]|]; auto. Qed.

Lemma upd_this (g : Parameters_ -> R)
      (d : DictionaryDatum) (n : string)
      (s : R -> Parameters_ -> Parameters_) (p : Parameters_) :
  (forall x q, g (s x q) = x) -> g (upd d n s p) = updated d n (g p).
Proof. intros Hs. unfold upd, updated. destruct (d !! n) as [[x|k]|]; auto. Qed.

Lemma Parameters_ext (p q : Parameters_) :
  Tau_ p = Tau_ q -> C_ p = C_ q -> TauR_ p = TauR_ q -> U0_ p = U0_ q ->
  I_e_ p = I_e_ q -> V_reset_ p = V_reset_ q -> Theta_ p = Theta_ q ->
  LowerBound_ p = LowerBound_ q -> Sigma_ p = Sigma_ q -> Ti_ p = Ti_ q ->
  num_of_receptors_ p = num_of_receptors_ q ->
  receptor_types_ p = receptor_types_ q -> p = q.
Proof. destruct p, q; simpl; intros; subst; reflexivity. Qed.

Ltac through_updates :=
  repeat first [ rewrite upd_other by (intros; reflexivity)
               | rewrite upd_this by (intros; reflexivity) ].

Lemma after_updates_overwritten (d : DictionaryDatum) (p : Parameters_) :
  after_updates d p = overwritten d p.
Proof.
  apply Parameters_ext; unfold after_updates, overwritten;
    cbn [Tau_ C_ TauR_ U0_ I_e_ V_reset_ Theta_ LowerBound_ Sigma_ Ti_
         num_of_receptors_ receptor_types_];
    through_updates; reflexivity.
Qed.

Lemma checks_run (this p : Parameters_) :
  (checks this p = (p, inr tt) /\ valid this) \/
  ((exists msg, checks this p = (p, inl (BadProperty msg))) /\
   (C_ this <= 0 \/ Tau_ this <= 0 \/ Ti_ this <= 0 \/ TauR_ this < 0)).
Proof.
  unfold checks, valid.
  repeat case_decide;
    first [ left; split; [reflexivity | lra]
          | right; split; [eexists; reflexivity | lra] ].
Qed.

(** C3 (amended).  On a dictionary with doubles under the names it
    reads, [set] throws BadProperty exactly when, after the updates from
    the dictionary, [C <= 0], [Tau <= 0], [Ti <= 0] or [TauR < 0], and
    returns [delta_EL] otherwise.  In both cases the object it was
    called on holds the dictionary's value in every member whose name is
    in the dictionary: a call that throws has overwritten them. *)
Theorem set_validates_overwritten (d : DictionaryDatum) (p : Parameters_) :
  well_typed d ->
  let p' := (set d p).1 in
  p' = overwritten d p /\
  ((exists msg, (set d p).2 = inl (BadProperty msg)) <->
   C_ p' <= 0 \/ Tau_ p' <= 0 \/ Ti_ p' <= 0 \/ TauR_ p' < 0) /\
  (valid p' -> (set d p).2 = inr (U0_ p' - U0_ p)).
Proof.
  intros Hd. cbv zeta. rewrite (set_run d p Hd).
  assert (HU : U0_ (upd d names.E_L set_U0 p) = U0_ (after_updates d p))
    by (unfold after_updates; through_updates; reflexivity).
  rewrite HU.
  destruct (checks_run (after_updates d p) (after_updates d p))
    as [[Hc Hv] | [[msg Hc] Hbad]].
  - rewrite (bind_run _ _ _ _ _ Hc). cbn.
    split; [apply after_updates_overwritten|]. split; [|reflexivity].
    unfold valid in Hv. split; [intros [msg Hm]; discriminate | lra].
  - rewrite (bind_throw _ _ _ _ _ Hc). cbn.
    split; [apply after_updates_overwritten|]. split.
    + split; [intros _; exact Hbad | intros _; eexists; reflexivity].
    + unfold valid. lra.
Qed.

(** *** [get] followed by [set] *)

Ltac lookup_get :=
  unfold get, def_double, def_int; names_unfold;
  repeat (rewrite lookup_insert_ne by done); rewrite lookup_insert_eq.

Lemma get_shifts (p : Parameters_) (d0 : DictionaryDatum) :
  get p d0 !! names.V_th = Some (DoubleDatum (Theta_ p + U0_ p)) /\
  get p d0 !! names.V_reset = Some (DoubleDatum (V_reset_ p + U0_ p)) /\
  get p d0 !! names.V_min = Some (DoubleDatum (LowerBound_ p + U0_ p)).
Proof. repeat split; lookup_get; reflexivity. Qed.

Lemma get_well_typed (p : Parameters_) (d0 : DictionaryDatum) :
  well_typed (get p d0).
Proof.
  unfold well_typed. rewrite !Forall_cons, Forall_nil.
  split_ands;
    lazymatch goal with
    | |- True => exact I
    | |- _ => unfold double_or_absent; lookup_get; exact I
    end.
Qed.

Lemma overwritten_get (p : Parameters_) (d0 : DictionaryDatum) :
  overwritten (get p d0) p = shifted p.
Proof.
  apply Parameters_ext; unfold overwritten, shifted, updated;
    cbn [Tau_ C_ TauR_ U0_ I_e_ V_reset_ Theta_ LowerBound_ Sigma_ Ti_
         num_of_receptors_ receptor_types_];
    try reflexivity; lookup_get; reflexivity.
Qed.

Lemma shifted_id (p : Parameters_) : U0_ p = 0 -> shifted p = p.
Proof.
  intros H0. unfold shifted. rewrite H0, !Rplus_0_r.
  destruct p; reflexivity.
Qed.

(** C10.  [get] writes [V_th], [V_reset] and [V_min] as the member plus
    [U0], and [set] stores what it reads under these names into
    [Theta_], [V_reset_] and [LowerBound_] as it is: on valid
    parameters, [set] of the dictionary that [get] wrote does not throw,
    returns [delta_EL = 0] and leaves the three members moved by [U0].
    With [U0 = 0] it leaves every member as it was. *)
Theorem get_set_roundtrip (p : Parameters_) (d0 : DictionaryDatum) :
  valid p ->
  (get p d0 !! names.V_th = Some (DoubleDatum (Theta_ p + U0_ p)) /\
   get p d0 !! names.V_reset = Some (DoubleDatum (V_reset_ p + U0_ p)) /\
   get p d0 !! names.V_min = Some (DoubleDatum (LowerBound_ p + U0_ p))) /\
  set (get p d0) p = (shifted p, inr 0) /\
  (U0_ p = 0 -> set (get p d0) p = (p, inr 0)).
Proof.
  intros Hv. split; [apply get_shifts|].
  assert (Hset : set (get p d0) p = (shifted p, inr 0)).
  { rewrite (set_run _ _ (get_well_typed p d0)).
    rewrite after_updates_overwritten, overwritten_get.
    destruct (checks_run (shifted p) (shifted p)) as [[Hc _] | [_ Hbad]].
    - rewrite (bind_run _ _ _ _ _ Hc).
      rewrite upd_this by (intros; reflexivity).
      unfold updated. lookup_get.
      replace (U0_ p - U0_ p) with 0 by lra. reflexivity.
    - unfold valid in Hv. unfold shifted in Hbad. cbn in Hbad. lra. }
  split; [exact Hset|].
  intros H0. rewrite Hset, (shifted_id p H0). reflexivity.
Qed.

End Parameters_properties.

Section Parameters_instances.
Import Iaf IafSpec Scenario.

Lemma d_negative_C_well_typed : well_typed d_negative_C.
Proof.
  unfold well_typed, d_negative_C. names_unfold. rewrite !Forall_cons, Forall_nil.
  split_ands;
    lazymatch goal with
    | |- True => exact I
    | |- _ =>
        unfold double_or_absent;
        first [ rewrite lookup_singleton_eq | rewrite lookup_singleton_ne by done ];
        exact I
    end.
Qed.

Lemma overwritten_negative_C : C_ (overwritten d_negative_C P0) = -1.
Proof.
  unfold overwritten, updated, d_negative_C. cbn [C_].
  rewrite lookup_singleton_eq. reflexivity.
Qed.

Lemma set_validates_overwritten_witness :
  (set d_negative_C P0).1 = overwritten d_negative_C P0 /\
  exists msg, (set d_negative_C P0).2 = inl (BadProperty msg).
Proof.
  destruct (set_validates_overwritten d_negative_C P0 d_negative_C_well_typed)
    as (Hobj & Hraise & _).
  split; [exact Hobj|]. apply Hraise. left.
  rewrite Hobj, overwritten_negative_C. lra.
Defined.

(** [set] called on the default parameters with [C_m = -1] throws, and
    the capacitance of the object is [-1] afterwards, not [1]. *)
Lemma set_throws_after_overwriting :
  (set d_negative_C P0).2 = inl (BadProperty "Capacitance must be > 0.") /\
  C_ P0 = 1 /\
  C_ (set d_negative_C P0).1 = -1.
Proof.
  rewrite (set_run _ _ d_negative_C_well_typed), after_updates_overwritten.
  assert (Hc : checks (overwritten d_negative_C P0) (overwritten d_negative_C P0)
               = (overwritten d_negative_C P0,
                  inl (BadProperty "Capacitance must be > 0."))).
  { unfold checks. rewrite decide_True; [reflexivity|].
    rewrite overwritten_negative_C. lra. }
  rewrite (bind_throw _ _ _ _ _ Hc). cbn [fst snd].
  split; [reflexivity|]. split; [reflexivity|]. apply overwritten_negative_C.
Qed.

Lemma P0_valid : valid P0.
Proof. unfold valid, P0; cbn. lra. Qed.

Lemma get_set_roundtrip_witness :
  set (get P0 ∅) P0 = (P0, inr 0).
Proof.
  apply (get_set_roundtrip P0 ∅ P0_valid). reflexivity.
Defined.

End Parameters_instances.

(* ================================================================== *)
(** * Properties of the update                                         *)
(* ================================================================== *)

Section Update_properties.
Import Iaf IafSpec.

Variable P : Parameters_.
Variable V : Variables_.
Variable h : R.
Variable B : Buffers_.
Variable origin : Z.

Local Abbreviation t_of lag := (step_to_ms h (origin + lag + 1)).
Local Abbreviation crossing := (crosses P V h B origin).

(** *** The loop body, case by case *)

Lemma step_crossing (lag : Z) (st : State_) :
  crossing lag st ->
  let s2 := advance P V h (t_of lag) (drain P B lag (t_of lag) st) in
  let s' := set_y0 (currents B lag)
              (set_y1 0 (set_y2 0 (set_y3 (U0_ P) (set_r (RefractoryCounts_ V) s2)))) in
  step P V h B origin lag st =
  (s', [set_spiketime (origin + lag + 1); send_spike lag; record_data (origin + lag) s']).
Proof.
  intros Hc. unfold step, threshold. rewrite decide_True by exact Hc. reflexivity.
Qed.

Lemma step_no_crossing (lag : Z) (st : State_) :
  ~ crossing lag st ->
  let s2 := advance P V h (t_of lag) (drain P B lag (t_of lag) st) in
  let s' := set_y0 (currents B lag) s2 in
  step P V h B origin lag st = (s', [record_data (origin + lag) s']).
Proof.
  intros Hc. unfold step, threshold. rewrite decide_False by exact Hc. reflexivity.
Qed.

Lemma drain_r (lag : Z) (t : R) (st : State_) : r_ (drain P B lag t st) = r_ st.
Proof. unfold drain. repeat case_decide; reflexivity. Qed.

Lemma drain_quiet (lag : Z) (t : R) (st : State_) :
  ~ spikes_ B 0 lag > 0.1 -> ~ spikes_ B 1 lag > 0.1 -> drain P B lag t st = st.
Proof. intros H0 H1. unfold drain. rewrite !decide_False by assumption. reflexivity. Qed.

(** C4.  In every step: when the potential before the update is below
    [Theta] and the one after it is at or above [Theta], the step ends
    with [y3 = U0], [y2 = 0], [y1 = 0] and [r = RefractoryCounts] and
    sends exactly one spike, at the offset of the step; otherwise the
    step ends with [y1], [y2], [y3] and [r] as the update left them and
    sends no spike. *)
Theorem crossing_resets_and_spikes (lag : Z) (st : State_) :
  let s2 := advance P V h (t_of lag) (drain P B lag (t_of lag) st) in
  let s' := (step P V h B origin lag st).1 in
  let out := (step P V h B origin lag st).2 in
  (crossing lag st ->
   y3_ s' = U0_ P /\ y2_ s' = 0 /\ y1_ s' = 0 /\ r_ s' = RefractoryCounts_ V /\
   sent out = [lag] /\
   out = [set_spiketime (origin + lag + 1); send_spike lag;
          record_data (origin + lag) s']) /\
  (~ crossing lag st ->
   y3_ s' = y3_ s2 /\ y2_ s' = y2_ s2 /\ y1_ s' = y1_ s2 /\ r_ s' = r_ s2 /\
   sent out = [] /\
   out = [record_data (origin + lag) s']).
Proof.
  cbv zeta. split; intros Hc.
  - rewrite (step_crossing lag st Hc). cbn. repeat split; reflexivity.
  - rewrite (step_no_crossing lag st Hc). cbn. repeat split; reflexivity.
Qed.

(** *** Refractory steps *)

Lemma refractory_no_crossing (lag : Z) (st : State_) :
  r_ st <> 0%Z -> ~ crossing lag st.
Proof.
  intros Hr [Hlow Hhigh]. cbv zeta in *.
  unfold advance in Hhigh. rewrite drain_r in Hhigh.
  rewrite decide_False in Hhigh by exact Hr. cbn in Hhigh. lra.
Qed.

Lemma refractory_step (lag : Z) (st : State_) :
  r_ st <> 0%Z -> ~ spikes_ B 0 lag > 0.1 -> ~ spikes_ B 1 lag > 0.1 ->
  let s' := set_y0 (currents B lag) (set_r (r_ st - 1) st) in
  step P V h B origin lag st = (s', [record_data (origin + lag) s']).
Proof.
  intros Hr H0 H1.
  rewrite (step_no_crossing lag st (refractory_no_crossing lag st Hr)).
  rewrite (drain_quiet _ _ _ H0 H1). unfold advance.
  rewrite decide_False by exact Hr. reflexivity.
Qed.

Lemma quiet_head (lag : Z) (n : nat) :
  quiet B lag (S n) ->
  (~ spikes_ B 0 lag > 0.1 /\ ~ spikes_ B 1 lag > 0.1) /\ quiet B (lag + 1) n.
Proof.
  intros Hq. split.
  - apply Hq. lia.
  - intros k Hk. apply Hq. lia.
Qed.

Lemma refractory_run (n : nat) (lag : Z) (st : State_) :
  (Z.of_nat n <= r_ st)%Z -> quiet B lag n ->
  let s' := (update_loop P V h B origin n lag st).1 in
  r_ s' = (r_ st - Z.of_nat n)%Z /\
  y1_ s' = y1_ st /\ y2_ s' = y2_ st /\ y3_ s' = y3_ st /\
  currents_ s' = currents_ st /\ ti_ s' = ti_ st /\
  sent (update_loop P V h B origin n lag st).2 = [].
Proof.
  revert lag st. induction n as [|n IH]; intros lag st Hn Hq.
  - cbn. repeat split; try reflexivity. lia.
  - destruct (quiet_head lag n Hq) as [[H0 H1] Hq'].
    assert (Hr : r_ st <> 0%Z) by lia.
    cbn [update_loop]. rewrite (refractory_step lag st Hr H0 H1). cbv zeta.
    set (s1 := set_y0 (currents B lag) (set_r (r_ st - 1) st)).
    specialize (IH (lag + 1)%Z s1).
    destruct (update_loop P V h B origin n (lag + 1) s1) as [s2 out2] eqn:Hloop.
    cbn [fst snd] in *.
    destruct IH as (Ir & I1 & I2 & I3 & Ic & It & Is); [cbn; lia | exact Hq' |].
    cbn in Ir, I1, I2, I3, Ic, It.
    split; [rewrite Ir; lia|]. repeat (split; [assumption|]). exact Is.
Qed.

(** C8.  A step taken with [r > 0] in which neither receptor has an
    event changes [r], which goes down by exactly one, and [y0], which
    takes the value of the current buffer, and nothing else; it sends no
    spike and logs that state.  Over [n <= r] such steps [r] goes down
    by [n] and [y1], [y2], [y3], [currents] and [ti] stay as they were. *)
Theorem refractory_frame (lag : Z) (st : State_) :
  (r_ st > 0)%Z ->
  (~ spikes_ B 0 lag > 0.1 -> ~ spikes_ B 1 lag > 0.1 ->
   let s' := set_y0 (currents B lag) (set_r (r_ st - 1) st) in
   step P V h B origin lag st = (s', [record_data (origin + lag) s'])) /\
  (forall n : nat,
     (Z.of_nat n <= r_ st)%Z -> quiet B lag n ->
     let s' := (update_loop P V h B origin n lag st).1 in
     r_ s' = (r_ st - Z.of_nat n)%Z /\
     y1_ s' = y1_ st /\ y2_ s' = y2_ st /\ y3_ s' = y3_ st /\
     currents_ s' = currents_ st /\ ti_ s' = ti_ st /\
     sent (update_loop P V h B origin n lag st).2 = []).
Proof.
  intros Hr. split.
  - intros H0 H1. apply refractory_step; [lia | assumption | assumption].
  - intros n Hn Hq. apply refractory_run; assumption.
Qed.

(** *** The non-refractory branch, member by member *)

Lemma advance_active (t : R) (st : State_) :
  r_ st = 0%Z -> advance P V h t st = lower_bound P (integrate P V h t st).
Proof. intros Hr. unfold advance. rewrite decide_True by exact Hr. reflexivity. Qed.

Lemma integrate_y3 (t : R) (st : State_) :
  y3_ (integrate P V h t st) = P33_ V * y3_ st + P31_ V * y1_ st * Rabs (y2_ st).
Proof. reflexivity. Qed.

Lemma lower_bound_y3 (st : State_) :
  y3_ (lower_bound P st) =
  if decide (y3_ st < LowerBound_ P) then LowerBound_ P else y3_ st.
Proof. reflexivity. Qed.

Lemma lower_bound_y2 (st : State_) :
  y2_ (lower_bound P st) =
  if decide (y2_ st < LowerBound_ P) then LowerBound_ P else y2_ st.
Proof. reflexivity. Qed.

Lemma integrate_y1 (t : R) (st : State_) :
  y1_ (integrate P V h t st) = P33_ V * y1_ st.
Proof. reflexivity. Qed.

Lemma integrate_frame (t : R) (st : State_) :
  y0_ (integrate P V h t st) = y0_ st /\
  ti_ (integrate P V h t st) = ti_ st /\
  r_ (integrate P V h t st) = r_ st.
Proof. repeat split; reflexivity. Qed.

Lemma lower_bound_y1 (st : State_) :
  y1_ (lower_bound P st) =
  if decide (y1_ st < LowerBound_ P) then LowerBound_ P else y1_ st.
Proof. reflexivity. Qed.

Lemma lower_bound_frame (st : State_) :
  y0_ (lower_bound P st) = y0_ st /\
  currents_ (lower_bound P st) = currents_ st /\
  ti_ (lower_bound P st) = ti_ st /\
  r_ (lower_bound P st) = r_ st.
Proof. repeat split; reflexivity. Qed.

Lemma State_ext (s1 s2 : State_) :
  y0_ s1 = y0_ s2 -> y1_ s1 = y1_ s2 -> y2_ s1 = y2_ s2 -> y3_ s1 = y3_ s2 ->
  currents_ s1 = currents_ s2 -> ti_ s1 = ti_ s2 -> r_ s1 = r_ s2 -> s1 = s2.
Proof. destruct s1, s2; simpl; intros; subst; reflexivity. Qed.

Lemma lower_bound_y3_ge (st : State_) : y3_ st <= y3_ (lower_bound P st).
Proof. rewrite lower_bound_y3. case_decide; lra. Qed.

(** *** What is logged, and invariants of a block *)

Lemma step_recorded (lag : Z) (st : State_) :
  recorded (step P V h B origin lag st).2 = [(step P V h B origin lag st).1].
Proof.
  destruct (decide (crossing lag st)) as [Hc|Hc].
  - rewrite (step_crossing lag st Hc). reflexivity.
  - rewrite (step_no_crossing lag st Hc). reflexivity.
Qed.

Lemma update_loop_invariant (Inv : State_ -> Prop) :
  (forall lag st, Inv st -> Inv (step P V h B origin lag st).1) ->
  forall (n : nat) (lag : Z) (st : State_),
    Inv st ->
    Inv (update_loop P V h B origin n lag st).1 /\
    Forall Inv (recorded (update_loop P V h B origin n lag st).2).
Proof.
  intros Hstep. induction n as [|n IH]; intros lag st Hst.
  - cbn. split; [exact Hst | constructor].
  - cbn [update_loop].
    pose proof (Hstep lag st Hst) as H1.
    pose proof (step_recorded lag st) as Hrec.
    destruct (step P V h B origin lag st) as [s1 out1]. cbn [fst snd] in *.
    specialize (IH (lag + 1)%Z s1 H1).
    destruct (update_loop P V h B origin n (lag + 1) s1) as [s2 out2].
    cbn [fst snd] in *. destruct IH as [IH1 IH2].
    split; [exact IH1|].
    unfold recorded in *. rewrite omap_app, Hrec.
    constructor; assumption.
Qed.

Lemma update_invariant (Inv : State_ -> Prop) :
  (forall lag st, Inv st -> Inv (step P V h B origin lag st).1) ->
  forall (min_delay from to : Z) (st s' : State_) (out : list Action),
    Inv st ->
    update P V h B origin min_delay from to st = Some (s', out) ->
    Inv s' /\ Forall Inv (recorded out).
Proof.
  intros Hstep min_delay from to st s' out Hst Hup.
  unfold update in Hup. repeat case_decide; try discriminate.
  injection Hup as Hup.
  pose proof (update_loop_invariant Inv Hstep (Z.to_nat (to - from)) from st Hst)
    as Hinv.
  rewrite Hup in Hinv. exact Hinv.
Qed.

(** *** The potential and the threshold *)

Lemma step_y3_not_above (lag : Z) (st : State_) :
  y3_ (drain P B lag (t_of lag) st) < Theta_ P -> U0_ P <= Theta_ P ->
  y3_ (step P V h B origin lag st).1 <= Theta_ P.
Proof.
  intros Hlow HU.
  destruct (decide (crossing lag st)) as [Hc|Hc].
  - rewrite (step_crossing lag st Hc). cbn. exact HU.
  - rewrite (step_no_crossing lag st Hc). cbn.
    unfold crosses in Hc. cbv zeta in Hc. lra.
Qed.

Lemma drain_y3 (lag : Z) (t : R) (st : State_) :
  y3_ (drain P B lag t st) = y3_ st \/ y3_ (drain P B lag t st) = V_reset_ P.
Proof. unfold drain. repeat case_decide; cbn; auto. Qed.

Lemma step_y3_below (lag : Z) (st : State_) :
  U0_ P < Theta_ P -> V_reset_ P < Theta_ P ->
  y3_ st < Theta_ P -> y3_ (step P V h B origin lag st).1 < Theta_ P.
Proof.
  intros HU HV Hst.
  assert (Hlow : y3_ (drain P B lag (t_of lag) st) < Theta_ P)
    by (destruct (drain_y3 lag (t_of lag) st) as [-> | ->]; assumption).
  destruct (decide (crossing lag st)) as [Hc|Hc].
  - rewrite (step_crossing lag st Hc). cbn. exact HU.
  - rewrite (step_no_crossing lag st Hc). cbn.
    unfold crosses in Hc. cbv zeta in Hc. lra.
Qed.

(** *** The lower bound *)

Lemma lower_bound_bounded (st : State_) : bounded_below P (lower_bound P st).
Proof.
  unfold bounded_below, lower_bound. cbn. repeat case_decide; lra.
Qed.

Lemma drain_bounded (lag : Z) (t : R) (st : State_) :
  LowerBound_ P <= 0 -> LowerBound_ P <= V_reset_ P ->
  bounded_below P st -> bounded_below P (drain P B lag t st).
Proof.
  unfold bounded_below, drain. intros H0 HV (H1 & H2 & H3).
  repeat case_decide; cbn; lra.
Qed.

Lemma step_bounded (lag : Z) (st : State_) :
  r_ st = 0%Z ->
  ~ crossing lag st \/ (LowerBound_ P <= 0 /\ LowerBound_ P <= U0_ P) ->
  bounded_below P (step P V h B origin lag st).1.
Proof.
  intros Hr Hside.
  assert (Hadv : bounded_below P (advance P V h (t_of lag) (drain P B lag (t_of lag) st))).
  { unfold advance. rewrite drain_r, decide_True by exact Hr.
    apply lower_bound_bounded. }
  destruct (decide (crossing lag st)) as [Hc|Hc].
  - rewrite (step_crossing lag st Hc). unfold bounded_below. cbn.
    destruct Hside as [Hn | [H0 HU]]; [contradiction | lra].
  - rewrite (step_no_crossing lag st Hc). exact Hadv.
Qed.

Lemma step_bounded_invariant (lag : Z) (st : State_) :
  LowerBound_ P <= 0 -> LowerBound_ P <= U0_ P -> LowerBound_ P <= V_reset_ P ->
  bounded_below P st -> bounded_below P (step P V h B origin lag st).1.
Proof.
  intros H0 HU HV Hst.
  destruct (decide (r_ st = 0%Z)) as [Hr|Hr].
  - apply step_bounded; [exact Hr | right; split; assumption].
  - rewrite (step_no_crossing lag st (refractory_no_crossing lag st Hr)).
    pose proof (drain_bounded lag (t_of lag) st H0 HV Hst) as Hd.
    unfold advance. rewrite drain_r, decide_False by exact Hr.
    exact Hd.
Qed.

(** *** The quadrature of the kernel *)

Lemma update_currents_kernel (t : R) (st : State_) :
  update_currents_ P V t st = set_currents (kernel P V (y0_ st) (ti_ st) t) st.
Proof.
  unfold update_currents_, kernel. f_equal.
  replace (P22_ V * (t - ti_ st - Ti_ P / 2) * (t - ti_ st - Ti_ P / 2))
    with (P22_ V * (t - ti_ st - Ti_ P / 2) ^ 2) by ring.
  reflexivity.
Qed.

Lemma integrate_y2 (t : R) (st : State_) :
  y2_ (integrate P V h t st) - y2_ st =
  h / 6 * (currents_ st + 4 * kernel P V (y0_ st) (ti_ st) (t + h / 2)
           + kernel P V (y0_ st) (ti_ st) (t + h)).
Proof.
  unfold integrate. rewrite !update_currents_kernel. cbn. field.
Qed.

Lemma integrate_currents (t : R) (st : State_) :
  currents_ (integrate P V h t st) = kernel P V (y0_ st) (ti_ st) (t + h).
Proof.
  unfold integrate. rewrite !update_currents_kernel. reflexivity.
Qed.

Lemma drain_currents (lag : Z) (t : R) (st : State_) :
  (spikes_ B 0 lag > 0.1 -> currents_ (drain P B lag t st) = 0) /\
  (~ spikes_ B 0 lag > 0.1 -> currents_ (drain P B lag t st) = currents_ st).
Proof.
  unfold drain. split; intros H0.
  - rewrite (decide_True _ _ H0). case_decide; reflexivity.
  - rewrite (decide_False _ _ H0). case_decide; reflexivity.
Qed.

(** C7 (amended).  In a step that starts with [r = 0] the update is the
    integration followed by the lower-bound assignments, and the
    integration adds to [y2] the amount
    [(h/6) * (c + 4 * k(t + h/2) + k(t + h))], where [k] is the kernel
    at the [y0] and [ti] of the step and [c] is what [currents] holds
    when the update starts: [0] when the step drained a type-A event,
    what the earlier steps left there otherwise.  The amount is the
    Simpson quadrature of [k] when [c = k(t)].  The integration leaves
    [k(t + h)] in [currents]. *)
Theorem y2_increment (lag : Z) (st : State_) :
  let t := t_of lag in
  let s1 := drain P B lag t st in
  let k := kernel P V (y0_ s1) (ti_ s1) in
  r_ st = 0%Z ->
  advance P V h t s1 = lower_bound P (integrate P V h t s1) /\
  y2_ (integrate P V h t s1) - y2_ s1 =
    h / 6 * (currents_ s1 + 4 * k (t + h / 2) + k (t + h)) /\
  (currents_ s1 = k t ->
   y2_ (integrate P V h t s1) - y2_ s1 = simpson h k t) /\
  (spikes_ B 0 lag > 0.1 -> currents_ s1 = 0) /\
  (~ spikes_ B 0 lag > 0.1 -> currents_ s1 = currents_ st) /\
  currents_ (integrate P V h t s1) = k (t + h).
Proof.
  cbv zeta. intros Hr.
  split; [unfold advance; rewrite drain_r, decide_True by exact Hr; reflexivity|].
  split; [apply integrate_y2|].
  split; [intros Hc; rewrite integrate_y2, Hc; reflexivity|].
  split; [apply drain_currents|].
  split; [apply drain_currents | apply integrate_currents].
Qed.

End Update_properties.

Section Update_instances.
Import Iaf IafSpec Scenario.

(** *** The calibrated propagators *)

Lemma V0_P21_pos : 0 < P21_ V0.
Proof.
  unfold V0, calibrate_V, P0. cbn.
  apply Rdiv_lt_0_compat; [lra|].
  apply Rmult_lt_0_compat; [|lra].
  apply Rmult_lt_0_compat; [apply sqrt_lt_R0; lra | apply Rpower_pos].
Qed.

Lemma V0_P22 : P22_ V0 = - 1 / (30 * 30).
Proof. reflexivity. Qed.

Lemma V0_P33_bounds : 0 < P33_ V0 < 300 / 301.
Proof.
  unfold V0, calibrate_V, P0, h0. cbn.
  replace (exp _) with (exp (- (1 / 300))) by (f_equal; lra).
  split; [apply exp_pos|].
  rewrite exp_Ropp.
  pose proof (exp_ineq1 (1 / 300)) as He.
  assert (Hx : 1 / 300 <> 0) by lra. specialize (He Hx).
  replace (300 / 301) with (/ (1 + 1 / 300)) by (field; lra).
  apply Rinv_lt_contravar; [|exact He].
  apply Rmult_lt_0_compat; lra.
Qed.

Lemma V0_P31 : P31_ V0 = 30 / 1 * (1 - P33_ V0).
Proof. reflexivity. Qed.

(** *** A node at rest *)

Lemma B_empty_quiet (lag : Z) :
  ~ spikes_ B_empty 0 lag > 0.1 /\ ~ spikes_ B_empty 1 lag > 0.1.
Proof. cbn. lra. Qed.

Lemma drain_empty (P : Parameters_) (lag : Z) (t : R) (st : State_) :
  drain P B_empty lag t st = st.
Proof. apply drain_quiet; apply B_empty_quiet. Qed.

Lemma rest_no_crossing (P : Parameters_) (origin lag : Z) (st : State_) :
  Theta_ P <= y3_ st -> ~ crosses P V0 h0 B_empty origin lag st.
Proof.
  intros Hst [Hlow _]. cbv zeta in Hlow. rewrite drain_empty in Hlow. lra.
Qed.

Lemma update_block (P : Parameters_) (B : Buffers_) (st : State_) :
  update P V0 h0 B 0 2 0 2 st =
  Some ((update_loop P V0 h0 B 0 2 0 st).1, (update_loop P V0 h0 B 0 2 0 st).2).
Proof.
  unfold update. rewrite !decide_True by lia.
  change (Z.to_nat (2 - 0)) with 2%nat.
  destruct (update_loop P V0 h0 B 0 2 0 st); reflexivity.
Qed.

(** With the default threshold of [-1] below the resting level [0], a
    node at rest ends the step with [y3 = 0], above [Theta]. *)
Lemma rest_above_Theta :
  y3_ (step P0 V0 h0 B_empty 0 0 st_rest).1 > Theta_ P0.
Proof.
  assert (Hnc : ~ crosses P0 V0 h0 B_empty 0 0 st_rest)
    by (apply rest_no_crossing; cbn; lra).
  rewrite (step_no_crossing P0 V0 h0 B_empty 0 0 st_rest Hnc). cbn [fst].
  rewrite drain_empty, advance_active by reflexivity.
  change (y3_ (set_y0 ?x ?s)) with (y3_ s).
  pose proof (lower_bound_y3_ge P0 (integrate P0 V0 h0 (step_to_ms h0 (0 + 0 + 1)) st_rest))
    as Hge.
  rewrite integrate_y3 in Hge.
  change (y3_ st_rest) with 0 in Hge. change (y1_ st_rest) with 0 in Hge.
  change (Theta_ P0) with (-1).
  lra.
Qed.

(** *** The lower bound *)

Lemma B_typeB_0 : ~ spikes_ B_typeB 0 0 > 0.1.
Proof. cbn. rewrite decide_False by (intros [? _]; discriminate). lra. Qed.

Lemma B_typeB_1 : spikes_ B_typeB 1 0 > 0.1.
Proof. cbn. rewrite decide_True by done. lra. Qed.

Lemma drain_typeB (P : Parameters_) (t : R) (st : State_) :
  drain P B_typeB 0 t st = set_y1 1 (set_y3 (V_reset_ P) st).
Proof.
  unfold drain.
  rewrite (decide_False _ _ B_typeB_0), (decide_True _ _ B_typeB_1). reflexivity.
Qed.

(** With [LowerBound = -5] above [V_reset = -10], a type-B event drained
    in a refractory step leaves [y3 = -10], below the bound. *)
Lemma refractory_typeB_below_bound :
  y3_ (step P_tight V0 h0 B_typeB 0 0 st_refractory).1 < LowerBound_ P_tight.
Proof.
  assert (Hr : r_ st_refractory <> 0%Z) by (cbn; lia).
  rewrite (step_no_crossing P_tight V0 h0 B_typeB 0 0 st_refractory
             (refractory_no_crossing P_tight V0 h0 B_typeB 0 0 st_refractory Hr)).
  cbn [fst]. rewrite drain_typeB. unfold advance.
  rewrite decide_False by (cbn; lia). cbn. lra.
Qed.

Lemma st_rest_bounded : bounded_below P0 st_rest.
Proof. unfold bounded_below. cbn. lra. Qed.

(** *** A crossing *)

Lemma charged_crossing : crosses P0 V0 h0 B_typeB 0 0 st_charged.
Proof.
  unfold crosses. cbv zeta. rewrite drain_typeB. split; [cbn; lra|].
  rewrite advance_active by reflexivity.
  pose proof (lower_bound_y3_ge P0
                (integrate P0 V0 h0 (step_to_ms h0 (0 + 0 + 1))
                           (set_y1 1 (set_y3 (V_reset_ P0) st_charged)))) as Hge.
  rewrite integrate_y3 in Hge. cbn [y3_ y2_ y1_ set_y1 set_y3 st_charged P0 V_reset_] in Hge.
  rewrite (Rabs_pos_eq 1000) in Hge by lra.
  rewrite V0_P31 in Hge. pose proof V0_P33_bounds as Hb.
  change (Theta_ P0) with (-1). change (V_reset_ P0) with (-10). lra.
Qed.

(** The reset itself leaves [y3 = U0 = 0], above the default [Theta]. *)
Lemma reset_above_Theta :
  y3_ (step P0 V0 h0 B_typeB 0 0 st_charged).1 = U0_ P0 /\ U0_ P0 > Theta_ P0.
Proof.
  rewrite (step_crossing P0 V0 h0 B_typeB 0 0 st_charged charged_crossing).
  split; [reflexivity | cbn; lra].
Qed.

Lemma crossing_resets_and_spikes_witness :
  (let s' := (step P0 V0 h0 B_typeB 0 0 st_charged).1 in
   let out := (step P0 V0 h0 B_typeB 0 0 st_charged).2 in
   y3_ s' = U0_ P0 /\ y2_ s' = 0 /\ y1_ s' = 0 /\ r_ s' = RefractoryCounts_ V0 /\
   sent out = [0%Z] /\
   out = [set_spiketime (0 + 0 + 1); send_spike 0; record_data (0 + 0) s']) /\
  sent (step P0 V0 h0 B_empty 0 0 st_rest).2 = [].
Proof.
  split.
  - apply (crossing_resets_and_spikes P0 V0 h0 B_typeB 0 0 st_charged).
    exact charged_crossing.
  - apply (crossing_resets_and_spikes P0 V0 h0 B_empty 0 0 st_rest).
    apply rest_no_crossing. cbn. lra.
Defined.

(** *** A refractory step *)

Lemma refractory_frame_witness :
  step P0 V0 h0 B_empty 0 0 st_refractory =
    (set_y0 0 (set_r 0 st_refractory),
     [record_data 0 (set_y0 0 (set_r 0 st_refractory))]) /\
  r_ (update_loop P0 V0 h0 B_empty 0 1 0 st_refractory).1 = 0%Z /\
  y3_ (update_loop P0 V0 h0 B_empty 0 1 0 st_refractory).1 = y3_ st_refractory.
Proof.
  assert (Hr : (r_ st_refractory > 0)%Z) by (cbn; lia).
  destruct (refractory_frame P0 V0 h0 B_empty 0 0 st_refractory Hr) as [Hstep Hrun].
  split.
  - apply Hstep; apply B_empty_quiet.
  - assert (Hq : quiet B_empty 0 1) by (intros k _; apply B_empty_quiet).
    destruct (Hrun 1%nat ltac:(cbn; lia) Hq) as (H1 & _ & _ & H3 & _).
    split; [exact H1 | exact H3].
Defined.

(** *** The quadrature *)

Lemma kernel_zero (P : Parameters_) (V : Variables_) (ti tau : R) :
  kernel P V (y0_ st_rest) ti tau = 0.
Proof. unfold kernel. cbn [y0_ st_rest]. ring. Qed.

Lemma kernel_pos (P : Parameters_) (V : Variables_) (y0 ti tau : R) :
  0 < y0 -> 0 < P21_ V -> 0 < 1 + P22_ V * (tau - ti - Ti_ P / 2) ^ 2 ->
  0 < kernel P V y0 ti tau.
Proof.
  intros Hy HP Hx. unfold kernel.
  apply Rmult_lt_0_compat; [|apply exp_pos].
  apply Rmult_lt_0_compat; [|exact Hx].
  apply Rmult_lt_0_compat; assumption.
Qed.

Lemma kernel_on_pos (tau : R) :
  -1 <= tau - 25.1 <= 1 -> 0 < kernel P0 V0 (y0_ st_on) (ti_ st_on) tau.
Proof.
  intros Hx. apply kernel_pos; [cbn; lra | apply V0_P21_pos |].
  rewrite V0_P22. cbn [ti_ st_on Ti_ P0].
  replace (tau - 0.1 - 50 / 2) with (tau - 25.1) by lra.
  nra.
Qed.

(** The state [st_on] is the one a node at rest reaches in one step when
    the current buffer holds 1 pA. *)
Lemma st_on_reached : (step P0 V0 h0 B_on 249 0 st_rest).1 = st_on.
Proof.
  assert (Hnc : ~ crosses P0 V0 h0 B_on 249 0 st_rest).
  { intros [Hlow _]. cbv zeta in Hlow.
    rewrite drain_quiet in Hlow by (cbn; lra). cbn in Hlow. lra. }
  rewrite (step_no_crossing P0 V0 h0 B_on 249 0 st_rest Hnc). cbn [fst].
  rewrite drain_quiet by (cbn; lra).
  rewrite advance_active by reflexivity.
  set (t := step_to_ms h0 (249 + 0 + 1)).
  pose proof (integrate_y3 P0 V0 h0 t st_rest) as H3.
  pose proof (integrate_y2 P0 V0 h0 t st_rest) as H2.
  pose proof (integrate_y1 P0 V0 h0 t st_rest) as H1.
  pose proof (integrate_currents P0 V0 h0 t st_rest) as Hc.
  destruct (integrate_frame P0 V0 h0 t st_rest) as (F0 & Fti & Fr).
  set (s2 := integrate P0 V0 h0 t st_rest) in *.
  repeat rewrite kernel_zero in H2. rewrite kernel_zero in Hc.
  change (y3_ st_rest) with 0 in H3. change (y1_ st_rest) with 0 in H3, H1.
  change (y2_ st_rest) with 0 in H2. change (currents_ st_rest) with 0 in H2.
  destruct (lower_bound_frame P0 s2) as (L0 & Lc & Lti & Lr).
  apply State_ext.
  - reflexivity.
  - change (y1_ (set_y0 ?x ?s)) with (y1_ s). rewrite lower_bound_y1.
    change (LowerBound_ P0) with (-100). change (y1_ st_on) with 0.
    case_decide; lra.
  - change (y2_ (set_y0 ?x ?s)) with (y2_ s). rewrite lower_bound_y2.
    change (LowerBound_ P0) with (-100). change (y2_ st_on) with 0.
    case_decide; lra.
  - change (y3_ (set_y0 ?x ?s)) with (y3_ s). rewrite lower_bound_y3.
    change (LowerBound_ P0) with (-100). change (y3_ st_on) with 0.
    case_decide; lra.
  - change (currents_ (set_y0 ?x ?s)) with (currents_ s). rewrite Lc, Hc. reflexivity.
  - change (ti_ (set_y0 ?x ?s)) with (ti_ s). rewrite Lti, Fti. reflexivity.
  - change (r_ (set_y0 ?x ?s)) with (r_ s). rewrite Lr, Fr. reflexivity.
Qed.

(** The input current switched on in the step before: [currents] holds
    [0], the kernel at [t = 25.1] is not [0], and the step adds less to
    [y2] than the Simpson quadrature of the kernel. *)
Lemma stale_first_summand :
  y2_ (step P0 V0 h0 B_empty 250 0 st_on).1 - y2_ st_on <>
  simpson h0 (kernel P0 V0 (y0_ st_on) (ti_ st_on)) (step_to_ms h0 (250 + 0 + 1)).
Proof.
  assert (Hnc : ~ crosses P0 V0 h0 B_empty 250 0 st_on)
    by (apply rest_no_crossing; cbn; lra).
  rewrite (step_no_crossing P0 V0 h0 B_empty 250 0 st_on Hnc). cbn [fst].
  rewrite drain_empty, advance_active by reflexivity.
  change (y2_ (set_y0 ?x ?s)) with (y2_ s).
  rewrite lower_bound_y2.
  pose proof (integrate_y2 P0 V0 h0 (step_to_ms h0 (250 + 0 + 1)) st_on) as Hinc.
  unfold simpson.
  assert (Ht : step_to_ms h0 (250 + 0 + 1) = 25.1)
    by (unfold step_to_ms, h0; change (250 + 0 + 1)%Z with 251%Z; lra).
  rewrite Ht in *.
  pose proof (kernel_on_pos 25.1) as K0.
  pose proof (kernel_on_pos (25.1 + h0 / 2)) as K1.
  pose proof (kernel_on_pos (25.1 + h0)) as K2.
  unfold h0 in *.
  specialize (K0 ltac:(lra)). specialize (K1 ltac:(lra)). specialize (K2 ltac:(lra)).
  change (currents_ st_on) with 0 in Hinc. change (y2_ st_on) with 0 in *.
  change (LowerBound_ P0) with (-100).
  case_decide; lra.
Qed.

Lemma y2_increment_witness :
  y2_ (integrate P0 V0 h0 (step_to_ms h0 (0 + 0 + 1))
                 (drain P0 B_empty 0 (step_to_ms h0 (0 + 0 + 1)) st_rest))
  - y2_ (drain P0 B_empty 0 (step_to_ms h0 (0 + 0 + 1)) st_rest) =
  simpson h0
    (kernel P0 V0
       (y0_ (drain P0 B_empty 0 (step_to_ms h0 (0 + 0 + 1)) st_rest))
       (ti_ (drain P0 B_empty 0 (step_to_ms h0 (0 + 0 + 1)) st_rest)))
    (step_to_ms h0 (0 + 0 + 1)).
Proof.
  destruct (y2_increment P0 V0 h0 B_empty 0 0 st_rest eq_refl)
    as (_ & _ & Hsimpson & _).
  apply Hsimpson.
  rewrite drain_empty. unfold kernel. cbn [y0_ currents_ st_rest]. ring.
Defined.

End Update_instances.

(* ================================================================== *)
(** * More on the plasticity rule                                      *)
(* ================================================================== *)

Section STDP_more.
Import STDP STDPSpec STDPMore.

Variable pow : R -> R -> R.
Variable h : R.

Lemma get_history_filter (t1 t2 : R) (hist : list histentry) :
  time_ordered hist ->
  get_history t1 t2 hist = filter (fun e => t1 < t_ e /\ t_ e <= t2) hist.
Proof.
  intros Hord. unfold get_history.
  rewrite history_take_filter by (apply history_skip_ordered, Hord).
  rewrite history_skip_filter by exact Hord.
  rewrite list_filter_filter. apply list_filter_iff. intros x. tauto.
Qed.

Lemma get_history_after (t1 t2 : R) (hist : list histentry) :
  time_ordered hist ->
  Forall (fun e => t1 < t_ e /\ t_ e <= t2) (get_history t1 t2 hist).
Proof.
  intros Hord. rewrite get_history_filter by exact Hord.
  apply Forall_forall. intros e He. apply list_elem_of_filter in He. tauto.
Qed.

Lemma learn_depress_update (c : STDPConnectionMulti) (tl dd w t_post : R) :
  ~ tl - (t_post + dd) > 0 ->
  learn_ pow c w (tl - (t_post + dd)) = depress_update pow c tl dd w t_post.
Proof.
  intros Hdt. unfold learn_, depress_update, clamp.
  rewrite decide_False by exact Hdt.
  replace (w + - w * Aneg_ c * pow (1 - 1 / tneg_ c) (- (tl - (t_post + dd))))
    with (w - w * Aneg_ c * pow (1 - 1 / tneg_ c) (- (tl - (t_post + dd))))
    by ring.
  reflexivity.
Qed.

Lemma replay_depress (c : STDPConnectionMulti) (tl dd : R)
      (range : list histentry) (w : R) :
  Forall (fun e => tl - (t_ e + dd) < 0) range ->
  replay pow c tl dd range w =
  fold_left (depress_update pow c tl dd) (map t_ range) w.
Proof.
  intros Hall. revert w. induction Hall as [|e rest He _ IH]; intros w.
  - reflexivity.
  - cbn [replay map fold_left]. rewrite IH, learn_depress_update by lra.
    reflexivity.
Qed.

Lemma window_dt_negative (tl dd t2 : R) (hist : list histentry) :
  time_ordered hist ->
  Forall (fun e => tl - (t_ e + dd) < 0) (get_history (tl - dd) t2 hist).
Proof.
  intros Hord. eapply Forall_impl; [apply get_history_after, Hord|].
  cbn. intros e [He _]. lra.
Qed.

(** X1.  On a time-ordered history every [dt] that [send] hands to
    [learn_] is negative, since the entries it replays are later than
    [t_lastspike - delay]: the potentiation branch is never taken, and
    the weight [send] leaves is the fold of the depression branch alone. *)
Theorem send_only_depresses (c : STDPConnectionMulti) (stamp : Z)
        (t_lastspike : R) (hist : list histentry) :
  time_ordered hist ->
  let t_spike := step_to_ms h stamp in
  let delay := step_to_ms h (delay_ c) in
  Forall (fun e => t_lastspike - (t_ e + delay) < 0)
         (get_history (t_lastspike - delay) (t_spike - delay) hist) /\
  weight_ (send pow h c stamp t_lastspike hist).1 =
    fold_left (depress_update pow c t_lastspike delay)
              (spec_window (t_lastspike - delay) (t_spike - delay) hist)
              (weight_ c).
Proof.
  intros Hord. cbv zeta. split; [apply window_dt_negative, Hord|].
  cbn. rewrite replay_depress by (apply window_dt_negative, Hord).
  unfold spec_window. rewrite get_history_filter by exact Hord. reflexivity.
Qed.

Lemma replay_nonincreasing (c : STDPConnectionMulti) (tl dd : R)
      (range : list histentry) (w : R) :
  (forall x, 0 <= Aneg_ c * pow (1 - 1 / tneg_ c) x) ->
  Forall (fun e => tl - (t_ e + dd) < 0) range ->
  0 <= w <= Wmax_ c ->
  0 <= replay pow c tl dd range w <= w.
Proof.
  intros HA Hall. revert w. induction Hall as [|e rest He _ IH]; intros w Hw.
  - cbn. lra.
  - cbn [replay].
    pose proof (learn_depresses pow c w (tl - (t_ e + dd)) He (HA _) Hw) as Hd.
    pose proof (learn_in_range pow c w (tl - (t_ e + dd)) ltac:(lra)) as Hr.
    specialize (IH _ Hr). lra.
Qed.

(** X2.  When [Aneg * (1 - 1/tneg)^x] is never negative, a [send] on a
    time-ordered history never raises a weight of [[0, Wmax]]: the weight
    it leaves is between [0] and the weight it found. *)
Theorem send_never_raises_weight (c : STDPConnectionMulti) (stamp : Z)
        (t_lastspike : R) (hist : list histentry) :
  time_ordered hist ->
  (forall x, 0 <= Aneg_ c * pow (1 - 1 / tneg_ c) x) ->
  0 <= weight_ c <= Wmax_ c ->
  0 <= weight_ (send pow h c stamp t_lastspike hist).1 <= weight_ c.
Proof.
  intros Hord HA Hw. cbn.
  apply replay_nonincreasing; [exact HA | apply window_dt_negative, Hord | exact Hw].
Qed.

Lemma set_weight_same (c : STDPConnectionMulti) : set_weight c (weight_ c) = c.
Proof. destruct c; reflexivity. Qed.

(** X3.  When no entry of a time-ordered history lies in
    [(t_lastspike - delay, t_spike - delay]] (an empty history, or a
    window that is empty), [send] leaves the connection as it was, and
    the event it delivers, if [EmitSpk_] is set, carries
    [weight_ * Esyn_]. *)
Theorem send_empty_window (c : STDPConnectionMulti) (stamp : Z)
        (t_lastspike : R) (hist : list histentry) :
  time_ordered hist ->
  Forall (fun e => ~ (t_lastspike - step_to_ms h (delay_ c) < t_ e /\
                      t_ e <= step_to_ms h stamp - step_to_ms h (delay_ c))) hist ->
  send pow h c stamp t_lastspike hist =
  (c, if EmitSpk_ c
      then [ {| ev_stamp := stamp; ev_weight := weight_ c * Esyn_ c;
                ev_delay := delay_ c; ev_rport := rport_ c |} ]
      else []).
Proof.
  intros Hord Hout. unfold send.
  rewrite get_history_filter by exact Hord.
  rewrite (filter_none _ hist Hout). cbn [replay].
  rewrite set_weight_same. reflexivity.
Qed.


Lemma learn_depress_exact (c : STDPConnectionMulti) (w dt : R) :
  dt <= 0 -> 0 <= depress_factor pow c dt <= 1 -> 0 <= w <= Wmax_ c ->
  learn_ pow c w dt = w * (1 - depress_factor pow c dt).
Proof.
  unfold depress_factor. intros Hdt Hq Hw. unfold learn_.
  rewrite decide_False by lra.
  set (q := Aneg_ c * pow (1 - 1 / tneg_ c) (- dt)) in *.
  replace (w + - w * Aneg_ c * pow (1 - 1 / tneg_ c) (- dt))
    with (w * (1 - q)) by (unfold q; ring).
  assert (0 <= w * (1 - q)) by (apply Rmult_le_pos; lra).
  assert (w * (1 - q) <= w) by nra.
  repeat case_decide; lra.
Qed.

(** X6.  Repeated depression is geometric: with [dt <= 0] and the factor
    [q = Aneg * (1 - 1/tneg)^(-dt)] in [[0, 1]], [n] updates take a
    weight [w] of [[0, Wmax]] to [w * (1 - q)^n], with no clamping. *)
Theorem depression_geometric (c : STDPConnectionMulti) (w dt : R) (n : nat) :
  dt <= 0 -> 0 <= depress_factor pow c dt <= 1 -> 0 <= w <= Wmax_ c ->
  learn_iter pow c dt n w = w * (1 - depress_factor pow c dt) ^ n.
Proof.
  intros Hdt Hq Hw. induction n as [|n IH].
  - cbn. ring.
  - cbn [learn_iter]. rewrite learn_depress_exact.
    + rewrite IH. cbn. ring.
    + exact Hdt.
    + exact Hq.
    + apply learn_iter_in_range. exact Hw.
Qed.

End STDP_more.

Section STDP_more_instances.
Import STDP STDPSpec STDPMore.

Lemma scenario_Aneg_factor (x : R) :
  0 <= Aneg_ Scenario.connection * Rpower (1 - 1 / tneg_ Scenario.connection) x.
Proof. cbn. pose proof (Rpower_pos (1 - 1 / 20) x). lra. Qed.

Lemma send_only_depresses_witness :
  weight_ (send Rpower 0.1 Scenario.connection 50 2.5 Scenario.history).1 =
  fold_left (depress_update Rpower Scenario.connection 2.5 (step_to_ms 0.1 1))
            (spec_window (2.5 - step_to_ms 0.1 1)
                         (step_to_ms 0.1 50 - step_to_ms 0.1 1) Scenario.history)
            (weight_ Scenario.connection).
Proof.
  apply (send_only_depresses Rpower 0.1 Scenario.connection 50 2.5 Scenario.history).
  exact scenario_history_ordered.
Defined.

Lemma send_never_raises_weight_witness :
  0 <= weight_ (send Rpower 0.1 Scenario.connection 50 2.5 Scenario.history).1
    <= weight_ Scenario.connection.
Proof.
  apply (send_never_raises_weight Rpower 0.1 Scenario.connection 50 2.5
           Scenario.history scenario_history_ordered scenario_Aneg_factor).
  cbn. lra.
Defined.

Lemma send_empty_window_witness :
  send Rpower 0.1 Scenario.connection 50 2.5 [] =
  (Scenario.connection,
   [ {| ev_stamp := 50; ev_weight := 0.5 * 1; ev_delay := 1; ev_rport := 0 |} ]).
Proof.
  apply (send_empty_window Rpower 0.1 Scenario.connection 50 2.5 []).
  - constructor.
  - constructor.
Defined.


Lemma Rpower_le_1 (x y : R) : 0 < x < 1 -> 0 < y -> Rpower x y <= 1.
Proof.
  intros Hx Hy. unfold Rpower. rewrite <- exp_0.
  left. apply exp_increasing.
  assert (ln x < 0) by (rewrite <- ln_1; apply ln_increasing; lra).
  nra.
Qed.

Lemma depression_geometric_witness :
  learn_iter Rpower Scenario.connection (-5) 3 0.5 =
  0.5 * (1 - depress_factor Rpower Scenario.connection (-5)) ^ 3.
Proof.
  apply (depression_geometric Rpower Scenario.connection 0.5 (-5) 3).
  - lra.
  - unfold depress_factor. cbn.
    pose proof (Rpower_pos (1 - 1 / 20) (- -5)).
    pose proof (Rpower_le_1 (1 - 1 / 20) (- -5) ltac:(lra) ltac:(lra)). lra.
  - cbn. lra.
Defined.

End STDP_more_instances.

(* ================================================================== *)
(** * More on the dictionary interface                                 *)
(* ================================================================== *)

Ltac across_updates :=
  repeat first [ rewrite upd_other by (intros; reflexivity)
               | rewrite upd_this by (intros; reflexivity) ].

Ltac lookup_in_get :=
  unfold Iaf.get, Iaf.def_double, Iaf.def_int; names_unfold;
  repeat (rewrite lookup_insert_ne by done); rewrite lookup_insert_eq.

Section Dictionary_more.
Import Iaf IafSpec IafNode.

Lemma set_object (d : DictionaryDatum) (p : Parameters_) :
  well_typed d -> (set d p).1 = overwritten d p.
Proof.
  intros Hd. rewrite (set_run d p Hd), <- after_updates_overwritten.
  destruct (checks_run (after_updates d p) (after_updates d p))
    as [[Hc _] | [[msg Hc] _]].
  - rewrite (bind_run _ _ _ _ _ Hc). reflexivity.
  - rewrite (bind_throw _ _ _ _ _ Hc). reflexivity.
Qed.

Lemma set_result (d : DictionaryDatum) (p : Parameters_) :
  well_typed d ->
  (valid (overwritten d p) /\
   (set d p).2 = inr (U0_ (overwritten d p) - U0_ p)) \/
  (~ valid (overwritten d p) /\ exists msg, (set d p).2 = inl (BadProperty msg)).
Proof.
  intros Hd. rewrite (set_run d p Hd).
  assert (HU : U0_ (upd d names.E_L set_U0 p) = U0_ (after_updates d p))
    by (unfold after_updates; across_updates; reflexivity).
  rewrite HU, after_updates_overwritten.
  destruct (checks_run (overwritten d p) (overwritten d p))
    as [[Hc Hv] | [[msg Hc] Hbad]].
  - left. rewrite (bind_run _ _ _ _ _ Hc). split; [exact Hv | reflexivity].
  - right. rewrite (bind_throw _ _ _ _ _ Hc). split; [|eexists; reflexivity].
    unfold valid. lra.
Qed.

(** *** The state dictionary *)

(** X7.  [State_::set] of the dictionary that [State_::get] wrote for a
    state [st] puts the potential of [st] into any state and leaves its
    other members, so that on [st] itself it is the identity; the
    parameters and [delta_EL] it is given play no role, and a dictionary
    without [V_m] leaves the state as it is. *)
Theorem State_get_set (st st' : State_) (p q : Parameters_) (delta_EL : R)
        (d0 d : DictionaryDatum) :
  State_set (State_get st p d0) q delta_EL st' = (set_y3 (y3_ st) st', inr tt) /\
  State_set (State_get st p d0) q delta_EL st = (st, inr tt) /\
  (d !! names.V_m = None -> State_set d q delta_EL st = (st, inr tt)).
Proof.
  assert (Hget : State_get st p d0 !! names.V_m = Some (DoubleDatum (y3_ st)))
    by (unfold State_get, def_double; apply lookup_insert_eq).
  split; [|split].
  - unfold State_set. rewrite Hget. reflexivity.
  - unfold State_set. rewrite Hget. destruct st; reflexivity.
  - intros Hnone. unfold State_set. rewrite Hnone. reflexivity.
Qed.

(** *** [set] followed by [get] *)

Lemma updated_present (d : DictionaryDatum) (n : string) (x old : R) :
  d !! n = Some (DoubleDatum x) -> updated d n old = x.
Proof. intros Hn. unfold updated. rewrite Hn. reflexivity. Qed.

(** X8.  After a [set] from a dictionary with doubles, [get] reports
    under [C_m], [tau_m], [t_ref], [Sigma], [Ti], [I_e] and [E_L] the
    value that the dictionary gave, but under [V_th], [V_reset] and
    [V_min] the value that the dictionary gave plus the resting
    potential the object now has. *)
Theorem set_then_get (d d0 : DictionaryDatum) (p : Parameters_) (n : string) (x : R) :
  well_typed d ->
  d !! n = Some (DoubleDatum x) ->
  let p' := (set d p).1 in
  (n ∈ [names.C_m; names.tau_m; names.t_ref; "Sigma"; "Ti"; names.I_e; names.E_L] ->
   get p' d0 !! n = Some (DoubleDatum x)) /\
  (n ∈ [names.V_th; names.V_reset; names.V_min] ->
   get p' d0 !! n = Some (DoubleDatum (x + U0_ p'))).
Proof.
  intros Hd Hn. cbv zeta. rewrite (set_object d p Hd).
  split; intros Hin;
    repeat (apply elem_of_cons in Hin; destruct Hin as [-> | Hin]);
    try (apply elem_of_nil in Hin; destruct Hin);
    lookup_in_get; unfold overwritten;
    cbn [Tau_ C_ TauR_ U0_ I_e_ V_reset_ Theta_ LowerBound_ Sigma_ Ti_];
    names_unfold; rewrite (updated_present d _ x _ Hn); reflexivity.
Qed.

(** *** The same dictionary twice *)

Lemma updated_twice (d : DictionaryDatum) (n : string) (old : R) :
  updated d n (updated d n old) = updated d n old.
Proof. unfold updated. destruct (d !! n) as [[x|k]|]; reflexivity. Qed.

Lemma overwritten_twice (d : DictionaryDatum) (p : Parameters_) :
  overwritten d (overwritten d p) = overwritten d p.
Proof.
  apply Parameters_ext; unfold overwritten;
    cbn [Tau_ C_ TauR_ U0_ I_e_ V_reset_ Theta_ LowerBound_ Sigma_ Ti_
         num_of_receptors_ receptor_types_];
    rewrite ?updated_twice; reflexivity.
Qed.

(** X9.  [set] is idempotent on a dictionary with doubles: a second
    [set] from the same dictionary leaves the object of the first as it
    is, and when the first returned, the second returns [delta_EL = 0]. *)
Theorem set_twice (d : DictionaryDatum) (p : Parameters_) :
  well_typed d ->
  let p' := (set d p).1 in
  (set d p').1 = p' /\
  (forall delta_EL, (set d p).2 = inr delta_EL -> (set d p').2 = inr 0).
Proof.
  intros Hd. cbv zeta. rewrite (set_object d p Hd). split.
  - rewrite (set_object d _ Hd). apply overwritten_twice.
  - intros delta_EL Hret.
    destruct (set_result d p Hd) as [[Hv _] | [_ [msg Hm]]];
      [|rewrite Hm in Hret; discriminate].
    destruct (set_result d (overwritten d p) Hd) as [[_ Hr] | [Hnv _]].
    + rewrite Hr, overwritten_twice. f_equal. lra.
    + rewrite overwritten_twice in Hnv. contradiction.
Qed.

(** *** Whatever the dictionary *)

Lemma returns_bind {A B : Type} (m : M A) (k : A -> M B)
      (Q : Parameters_ -> B -> Prop) (p : Parameters_) :
  returns m (fun p' a => returns (k a) Q p') p -> returns (m ≫= k) Q p.
Proof.
  unfold returns, mbind, M_bind. destruct (m p) as [p' [e|a]]; auto.
Qed.

Lemma returns_any {A : Type} (m : M A) (Q : Parameters_ -> A -> Prop)
      (p : Parameters_) :
  (forall p' a, Q p' a) -> returns m Q p.
Proof. intros HQ. unfold returns. destruct (m p) as [p' [e|a]]; auto. Qed.

Lemma returns_checks (delta_EL : R) (p : Parameters_) :
  returns (checks p ;; mret delta_EL) (fun p' _ => valid p') p.
Proof.
  destruct (checks_run p p) as [[Hc Hv] | [[msg Hc] _]]; unfold returns.
  - rewrite (bind_run _ _ _ _ _ Hc). exact Hv.
  - rewrite (bind_throw _ _ _ _ _ Hc). exact I.
Qed.

(** X10.  Whatever the dictionary holds, a [set] that returns leaves
    parameters with [C > 0], [Tau > 0], [Ti > 0] and [TauR >= 0]. *)
Theorem set_returns_valid (d : DictionaryDatum) (p : Parameters_) (delta_EL : R) :
  (set d p).2 = inr delta_EL -> valid (set d p).1.
Proof.
  assert (Hret : returns (set d) (fun p' _ => valid p') p).
  { unfold set.
    do 12 (apply returns_bind; apply returns_any; intros ? ?).
    apply returns_bind. unfold returns at 1. cbn [member].
    apply returns_checks. }
  unfold returns in Hret. intros Hr.
  destruct (set d p) as [p' [e|a]]; [discriminate | exact Hret].
Qed.

End Dictionary_more.

(* ================================================================== *)
(** * Calibration, ports and event handlers                            *)
(* ================================================================== *)

Section Ports_and_handlers.
Import Iaf IafSpec IafNode.

Local Abbreviation same_ports :=
  (fun p p' : Parameters_ =>
     num_of_receptors_ p' = num_of_receptors_ p /\
     receptor_types_ p' = receptor_types_ p).

Lemma relates_bind {A B : Type} (m : M A) (k : A -> M B)
      (Rel : Parameters_ -> Parameters_ -> Prop) :
  (forall p q r, Rel p q -> Rel q r -> Rel p r) ->
  relates m Rel -> (forall a, relates (k a) Rel) -> relates (m ≫= k) Rel.
Proof.
  intros Htrans Hm Hk p. unfold mbind, M_bind.
  specialize (Hm p). destruct (m p) as [p' [e|a]]; cbn in *.
  - exact Hm.
  - eapply Htrans; [exact Hm | apply Hk].
Qed.

Lemma relates_updateValue (d : DictionaryDatum) (n : string)
      (s : R -> Parameters_ -> Parameters_) :
  (forall x p, same_ports p (s x p)) ->
  relates (updateValue_double d n s) same_ports.
Proof.
  intros Hs p. unfold updateValue_double.
  destruct (d !! n) as [[x|k]|]; cbn; [apply Hs | split; reflexivity ..].
Qed.

Lemma relates_checks (this : Parameters_) : relates (checks this) same_ports.
Proof. intros p. unfold checks. repeat case_decide; cbn; split; reflexivity. Qed.

(** X11.  [set] never touches the receptors: whatever the dictionary
    holds ([n_synapses] included, which [get] writes and [set] does not
    read) and whether [set] returns or throws, [num_of_receptors_] and
    [receptor_types_] are what they were. *)
Theorem set_keeps_receptors (d : DictionaryDatum) (p : Parameters_) :
  num_of_receptors_ (set d p).1 = num_of_receptors_ p /\
  receptor_types_ (set d p).1 = receptor_types_ p.
Proof.
  assert (Hrel : relates (set d) same_ports).
  { unfold set.
    repeat first
      [ apply relates_updateValue; intros; split; reflexivity
      | apply relates_checks
      | apply relates_bind;
        [ intros p0 q r [H1 H2] [H3 H4]; split; congruence | | intros ? ] ];
      intros p0; cbn; split; reflexivity. }
  apply Hrel.
Qed.

(** *** Calibration *)

Section Calibration.

Variable pow : R -> R -> R.
Variable ms_to_steps : R -> Z.
Variable h : R.

(** X12.  For a positive resolution and parameters with [Tau > 0] and
    [C > 0], [calibrate] computes a decay factor [P33] strictly between
    [0] and [1] and a positive [P31]; [P22] is negative when
    [Sigma <> 0], and [P21] is positive when [Sigma > 0] and
    [std::pow(pi, 0.25)] is. *)
Theorem calibrate_propagators (P : Parameters_) :
  0 < h -> 0 < Tau_ P -> 0 < C_ P ->
  let V := calibrate_V pow ms_to_steps h P in
  0 < P33_ V < 1 /\ 0 < P31_ V /\
  (Sigma_ P <> 0 -> P22_ V < 0) /\
  (0 < Sigma_ P -> 0 < pow PI 0.25 -> 0 < P21_ V).
Proof.
  intros Hh HT HC. cbv zeta. unfold calibrate_V. cbn.
  assert (H33 : 0 < exp (- h / Tau_ P) < 1).
  { split; [apply exp_pos|]. rewrite <- exp_0. apply exp_increasing.
    unfold Rdiv. rewrite <- Ropp_mult_distr_l.
    assert (0 < h * / Tau_ P)
      by (apply Rmult_lt_0_compat; [exact Hh | apply Rinv_0_lt_compat, HT]).
    lra. }
  split; [exact H33|]. split; [|split].
  - apply Rmult_lt_0_compat; [apply Rdiv_lt_0_compat; assumption | lra].
  - intros HS.
    assert (0 < Sigma_ P * Sigma_ P) by nra.
    assert (0 < 1 / (Sigma_ P * Sigma_ P)) by (apply Rdiv_lt_0_compat; lra).
    replace (- 1 / (Sigma_ P * Sigma_ P)) with (- (1 / (Sigma_ P * Sigma_ P)))
      by (field; exact HS).
    lra.
  - intros HS Hpow. apply Rdiv_lt_0_compat; [lra|].
    apply Rmult_lt_0_compat; [|exact HS].
    apply Rmult_lt_0_compat; [apply sqrt_lt_R0; lra | exact Hpow].
Qed.

Lemma lookup_map_seq (f : nat -> Z) (n i0 j : nat) :
  (j < n)%nat -> map f (seq i0 n) !! j = Some (f (i0 + j)%nat).
Proof.
  revert i0 j. induction n as [|n IH]; intros i0 j Hj; [lia|].
  destruct j as [|j]; cbn.
  - f_equal. f_equal. lia.
  - rewrite IH by lia. f_equal. f_equal. lia.
Qed.

(** X13.  [calibrate] fails exactly when the refractory time converts to
    a negative number of steps.  When it succeeds the receptor types
    are the ports [1 .. num_of_receptors_] in order, nothing that [get]
    reports has changed, and calibrating again changes nothing. *)
Theorem calibrate_ports (P : Parameters_) :
  (0 <= num_of_receptors_ P)%Z ->
  (calibrate pow ms_to_steps h P = None <-> (ms_to_steps (TauR_ P) < 0)%Z) /\
  forall P' V,
    calibrate pow ms_to_steps h P = Some (P', V) ->
    ports_calibrated P' /\
    (forall i : nat, (Z.of_nat i < num_of_receptors_ P)%Z ->
                     receptor_types_ P' !! i = Some (Z.of_nat i + 1)%Z) /\
    (forall d, get P' d = get P d) /\
    (0 <= RefractoryCounts_ V)%Z /\
    calibrate pow ms_to_steps h P' = Some (P', V).
Proof.
  intros Hn. unfold calibrate. cbn. split.
  - case_decide; split; intros; try discriminate; first [lia | exfalso; lia | reflexivity].
  - intros P' V. case_decide as Hrc; [|discriminate].
    intros [= <- <-]. cbn. split; [split; [exact Hn | reflexivity]|].
    split; [|split; [|split]].
    + intros i Hi. rewrite lookup_map_seq by lia. reflexivity.
    + reflexivity.
    + lia.
    + rewrite decide_True by exact Hrc. reflexivity.
Qed.

End Calibration.

(** *** Ports *)

Lemma calibrated_port_elem (P : Parameters_) (rt : Z) :
  ports_calibrated P ->
  rt ∈ receptor_types_ P <-> (1 <= rt <= num_of_receptors_ P)%Z.
Proof.
  intros [Hn ->]. rewrite list_elem_of_In, in_map_iff. split.
  - intros (i & <- & Hi). apply in_seq in Hi. lia.
  - intros Hrt. exists (Z.to_nat (rt - 1)). split; [lia|].
    apply in_seq. lia.
Qed.

(** X14.  Once the ports are calibrated, [connect_sender] accepts a
    receptor type, and returns it, exactly when it is one of
    [receptor_types_], that is one of [1 .. num_of_receptors_]; any
    other is refused with IncompatibleReceptorType. *)
Theorem connect_sender_ports (P : Parameters_) (rt : Z) :
  ports_calibrated P ->
  (connect_sender P rt = inr rt <-> rt ∈ receptor_types_ P) /\
  (rt ∉ receptor_types_ P ->
   connect_sender P rt = inl (IncompatibleReceptorType rt)) /\
  (forall port, connect_sender P rt = inr port -> port = rt).
Proof.
  intros Hcal. rewrite (calibrated_port_elem P rt Hcal).
  unfold connect_sender. case_decide; split; [| split | | split];
    first [ split; intros; first [discriminate | lia | reflexivity]
          | intros; first [reflexivity | lia | congruence] ].
Qed.

(** *** Event handlers *)

Lemma add_value_plus (b : Z -> R) (offs : Z) (v : R) (k : Z) :
  add_value b offs v k = b k + (if decide (k = offs) then v else 0).
Proof. unfold add_value. case_decide; lra. Qed.

Lemma handle_loop_spec (P : Parameters_) (e : SpikeEvent) (n i0 : nat)
      (spikes : nat -> Z -> R) (j : nat) (k : Z) :
  (forall i, (i0 <= i < i0 + n)%nat ->
             receptor_types_ P !! i = Some (Z.of_nat i + 1)%Z) ->
  handle_loop P e n i0 spikes j k =
  spikes j k +
  (if decide ((i0 <= j < i0 + n)%nat /\ (Z.of_nat j + 1)%Z = se_rport e /\
              k = se_rel_delivery_steps e)
   then se_weight e * IZR (se_multiplicity e) else 0).
Proof.
  revert i0 spikes. induction n as [|n IH]; intros i0 spikes Hrt.
  - cbn. rewrite decide_False by lia. lra.
  - cbn [handle_loop]. rewrite (Hrt i0) by lia.
    rewrite IH by (intros i Hi; apply Hrt; lia).
    destruct (decide ((Z.of_nat i0 + 1)%Z = se_rport e)) as [Hp|Hp];
      cbn beta; [destruct (decide (j = i0)) as [-> | Hj]|].
    + rewrite add_value_plus.
      repeat case_decide; first [lra | exfalso; lia].
    + repeat case_decide; first [lra | exfalso; lia].
    + repeat case_decide; first [lra | exfalso; lia].
Qed.

Lemma handle_SpikeEvent_spec (P : Parameters_) (e : SpikeEvent) (B B' : Buffers_) :
  ports_calibrated P ->
  handle_SpikeEvent P e B = Some B' ->
  (forall i k, spikes_ B' i k = spikes_ B i k + delivered P e i k) /\
  (forall k, currents B' k = currents B k).
Proof.
  intros [Hn Hrt] Hh. unfold handle_SpikeEvent in Hh.
  case_decide; [|discriminate]. injection Hh as <-. cbn. split; [|reflexivity].
  intros i k. rewrite handle_loop_spec.
  - unfold delivered. f_equal. apply decide_ext. lia.
  - intros j Hj. rewrite Hrt, lookup_map_seq by lia. reflexivity.
Qed.

(** X15.  With calibrated ports, [handle] of a spike event with a
    positive delay adds its weight times its multiplicity to the
    delivery slot of the buffer of its port, that is of index
    [rport - 1], and leaves every other slot, every other buffer and
    the current buffer as they were; an event whose port is not one of
    [1 .. num_of_receptors_] changes nothing.  A delay that is not
    positive fails the assertion. *)
Theorem handle_spike_delivers (P : Parameters_) (e : SpikeEvent) (B : Buffers_) :
  ports_calibrated P ->
  ((se_delay e > 0)%Z ->
   exists B',
     handle_SpikeEvent P e B = Some B' /\
     (forall i k, spikes_ B' i k = spikes_ B i k + delivered P e i k) /\
     (forall k, currents B' k = currents B k) /\
     (~ (1 <= se_rport e <= num_of_receptors_ P)%Z ->
      forall i k, spikes_ B' i k = spikes_ B i k)) /\
  (~ (se_delay e > 0)%Z -> handle_SpikeEvent P e B = None).
Proof.
  intros Hcal. split.
  - intros Hd.
    assert (Hsome : exists B', handle_SpikeEvent P e B = Some B')
      by (unfold handle_SpikeEvent; rewrite decide_True by exact Hd; eauto).
    destruct Hsome as [B' HB']. exists B'.
    destruct (handle_SpikeEvent_spec P e B B' Hcal HB') as [Hs Hc].
    split; [exact HB'|]. split; [exact Hs|]. split; [exact Hc|].
    intros Hport i k. rewrite Hs. unfold delivered.
    rewrite decide_False by lia. lra.
  - intros Hd. unfold handle_SpikeEvent. rewrite decide_False by exact Hd.
    reflexivity.
Qed.

(** X16.  Spike events accumulate: with calibrated ports, handling two
    events in either order leaves the same value in every slot of every
    buffer, the sum of what each of them delivers there. *)
Theorem handle_spikes_commute (P : Parameters_) (e1 e2 : SpikeEvent)
        (B B1 B12 B2 B21 : Buffers_) :
  ports_calibrated P ->
  handle_SpikeEvent P e1 B = Some B1 -> handle_SpikeEvent P e2 B1 = Some B12 ->
  handle_SpikeEvent P e2 B = Some B2 -> handle_SpikeEvent P e1 B2 = Some B21 ->
  forall i k,
    spikes_ B12 i k = spikes_ B21 i k /\
    spikes_ B12 i k = spikes_ B i k + delivered P e1 i k + delivered P e2 i k.
Proof.
  intros Hcal H1 H12 H2 H21 i k.
  destruct (handle_SpikeEvent_spec P e1 B B1 Hcal H1) as [S1 _].
  destruct (handle_SpikeEvent_spec P e2 B1 B12 Hcal H12) as [S12 _].
  destruct (handle_SpikeEvent_spec P e2 B B2 Hcal H2) as [S2 _].
  destruct (handle_SpikeEvent_spec P e1 B2 B21 Hcal H21) as [S21 _].
  rewrite S12, S21, S1, S2. split; lra.
Qed.

(** X17.  From the handler to the update: with calibrated ports, after
    a spike event on port 2 the step at its delivery slot treats the
    receptor as a type-B event exactly when the slot, with the weight of
    the event added, exceeds [0.1]; then the potential before the update
    is [V_reset] and [y1] is [1].  The same holds for port 1 and the
    type-A event, which zeroes [currents] and anchors [ti] at the time
    of the step. *)
Theorem handled_spike_drained (P : Parameters_) (e : SpikeEvent)
        (B B' : Buffers_) (t : R) (st : State_) :
  ports_calibrated P ->
  handle_SpikeEvent P e B = Some B' ->
  let lag := se_rel_delivery_steps e in
  let v := se_weight e * IZR (se_multiplicity e) in
  (se_rport e = 2%Z -> (2 <= num_of_receptors_ P)%Z ->
   (spikes_ B' 1 lag > 0.1 <-> spikes_ B 1 lag + v > 0.1) /\
   (spikes_ B 1 lag + v > 0.1 ->
    y3_ (drain P B' lag t st) = V_reset_ P /\ y1_ (drain P B' lag t st) = 1)) /\
  (se_rport e = 1%Z -> (1 <= num_of_receptors_ P)%Z ->
   (spikes_ B' 0 lag > 0.1 <-> spikes_ B 0 lag + v > 0.1) /\
   (spikes_ B 0 lag + v > 0.1 ->
    currents_ (drain P B' lag t st) = 0 /\ ti_ (drain P B' lag t st) = t)).
Proof.
  intros Hcal Hh. cbv zeta.
  destruct (handle_SpikeEvent_spec P e B B' Hcal Hh) as [Hs _].
  split; intros Hport Hn.
  - assert (H1 : spikes_ B' 1 (se_rel_delivery_steps e) =
                 spikes_ B 1 (se_rel_delivery_steps e)
                 + se_weight e * IZR (se_multiplicity e)).
    { rewrite Hs. unfold delivered. rewrite decide_True; [reflexivity|].
      rewrite Hport. split; [lia | split; reflexivity]. }
    rewrite H1. split; [tauto|]. intros Hgt. unfold drain.
    rewrite (decide_True (P := spikes_ B' 1 _ > 0.1)) by (rewrite H1; exact Hgt).
    split; reflexivity.
  - assert (H0 : spikes_ B' 0 (se_rel_delivery_steps e) =
                 spikes_ B 0 (se_rel_delivery_steps e)
                 + se_weight e * IZR (se_multiplicity e)).
    { rewrite Hs. unfold delivered. rewrite decide_True; [reflexivity|].
      rewrite Hport. split; [lia | split; reflexivity]. }
    rewrite H0. split; [tauto|]. intros Hgt. unfold drain.
    rewrite (decide_True (P := spikes_ B' 0 _ > 0.1)) by (rewrite H0; exact Hgt).
    case_decide; split; reflexivity.
Qed.

Lemma step_y0 (P : Parameters_) (V : Variables_) (h : R) (B : Buffers_)
      (origin lag : Z) (st : State_) :
  y0_ (step P V h B origin lag st).1 = currents B lag.
Proof.
  destruct (decide (crosses P V h B origin lag st)) as [Hc|Hc].
  - rewrite (step_crossing P V h B origin lag st Hc). reflexivity.
  - rewrite (step_no_crossing P V h B origin lag st Hc). reflexivity.
Qed.

(** X18.  [handle] of a current event with a positive delay adds its
    weight times its current to its delivery slot of the current buffer
    and leaves the spike buffers; the step at that slot then ends with
    [y0] equal to what the slot held plus that product, and the steps at
    other slots end with [y0] equal to what their slot held. *)
Theorem handled_current_read (P : Parameters_) (V : Variables_) (h : R)
        (e : CurrentEvent) (B : Buffers_) (origin lag : Z) (st : State_) :
  (ce_delay e > 0)%Z ->
  exists B',
    handle_CurrentEvent e B = Some B' /\
    (forall i k, spikes_ B' i k = spikes_ B i k) /\
    (lag = ce_rel_delivery_steps e ->
     y0_ (step P V h B' origin lag st).1 =
     currents B lag + ce_weight e * ce_current e) /\
    (lag <> ce_rel_delivery_steps e ->
     y0_ (step P V h B' origin lag st).1 = currents B lag).
Proof.
  intros Hd. unfold handle_CurrentEvent. rewrite decide_True by exact Hd.
  eexists. split; [reflexivity|]. split; [reflexivity|].
  split; intros Hlag; rewrite step_y0; cbn; unfold add_value.
  - rewrite decide_True by exact Hlag. reflexivity.
  - rewrite decide_False by exact Hlag. reflexivity.
Qed.

End Ports_and_handlers.

(* ================================================================== *)
(** * More on the update                                               *)
(* ================================================================== *)

Section Update_more.
Import Iaf IafSpec IafNode.

Variable P : Parameters_.
Variable V : Variables_.
Variable h : R.
Variable B : Buffers_.
Variable origin : Z.

Local Abbreviation time_of lag := (step_to_ms h (origin + lag + 1)).
Local Abbreviation step_ := (step P V h B origin).
Local Abbreviation loop_ := (update_loop P V h B origin).

(** *** The refractory counter *)

Lemma advance_r (t : R) (st : State_) :
  r_ (advance P V h t st) = if decide (r_ st = 0%Z) then 0%Z else (r_ st - 1)%Z.
Proof.
  unfold advance. case_decide as Hr; [|reflexivity].
  destruct (lower_bound_frame P (integrate P V h t st)) as (_ & _ & _ & ->).
  destruct (integrate_frame P V h t st) as (_ & _ & ->). exact Hr.
Qed.

Lemma step_r (lag : Z) (st : State_) :
  (crosses P V h B origin lag st /\ r_ (step_ lag st).1 = RefractoryCounts_ V) \/
  (~ crosses P V h B origin lag st /\
   r_ (step_ lag st).1 = if decide (r_ st = 0%Z) then 0%Z else (r_ st - 1)%Z).
Proof.
  destruct (decide (crosses P V h B origin lag st)) as [Hc|Hc].
  - left. split; [exact Hc|]. rewrite (step_crossing P V h B origin lag st Hc).
    reflexivity.
  - right. split; [exact Hc|]. rewrite (step_no_crossing P V h B origin lag st Hc).
    cbn [fst]. change (r_ (set_y0 ?x ?s)) with (r_ s).
    rewrite advance_r, drain_r. reflexivity.
Qed.

Lemma step_r_bounded (lag : Z) (st : State_) :
  (0 <= RefractoryCounts_ V)%Z ->
  (0 <= r_ st <= RefractoryCounts_ V)%Z ->
  (0 <= r_ (step_ lag st).1 <= RefractoryCounts_ V)%Z.
Proof.
  intros HRC Hr.
  destruct (step_r lag st) as [[_ ->] | [_ ->]]; [lia|].
  case_decide; lia.
Qed.

(** X19.  With [RefractoryCounts >= 0], the refractory counter stays
    within [[0, RefractoryCounts]]: from a state where it is, every step
    of an update block ends, and is logged, with [r] in that range. *)
Theorem refractory_counter_bounded (st : State_) :
  (0 <= RefractoryCounts_ V)%Z ->
  (0 <= r_ st <= RefractoryCounts_ V)%Z ->
  forall (min_delay from to : Z) (s' : State_) (out : list Action),
    update P V h B origin min_delay from to st = Some (s', out) ->
    (0 <= r_ s' <= RefractoryCounts_ V)%Z /\
    Forall (fun s => (0 <= r_ s <= RefractoryCounts_ V)%Z) (recorded out).
Proof.
  intros HRC Hr min_delay from to s' out Hup.
  eapply (update_invariant P V h B origin
            (fun s => (0 <= r_ s <= RefractoryCounts_ V)%Z));
    [ | exact Hr | exact Hup ].
  intros lag st' Hst'. apply step_r_bounded; assumption.
Qed.

(** *** Silence while refractory *)

Lemma sent_app (o1 o2 : list Action) : sent (o1 ++ o2) = sent o1 ++ sent o2.
Proof. unfold sent. apply omap_app. Qed.

Lemma refractory_silent_step (lag : Z) (st : State_) :
  r_ st <> 0%Z ->
  sent (step_ lag st).2 = [] /\ spike_times (step_ lag st).2 = [] /\
  r_ (step_ lag st).1 = (r_ st - 1)%Z.
Proof.
  intros Hr.
  pose proof (refractory_no_crossing P V h B origin lag st Hr) as Hnc.
  destruct (step_r lag st) as [[Hc _] | [_ Hrs]]; [contradiction|].
  rewrite decide_False in Hrs by exact Hr.
  rewrite (step_no_crossing P V h B origin lag st Hnc) in *.
  repeat split; [reflexivity .. | exact Hrs].
Qed.

Lemma refractory_silent_run (n : nat) (lag : Z) (st : State_) :
  (Z.of_nat n <= r_ st)%Z ->
  sent (loop_ n lag st).2 = [] /\
  r_ (loop_ n lag st).1 = (r_ st - Z.of_nat n)%Z.
Proof.
  revert lag st. induction n as [|n IH]; intros lag st Hn.
  - cbn. split; [reflexivity | lia].
  - cbn [update_loop].
    destruct (refractory_silent_step lag st ltac:(lia)) as (Hs & _ & Hr).
    destruct (step_ lag st) as [s1 o1]. cbn [fst snd] in *.
    specialize (IH (lag + 1)%Z s1 ltac:(lia)).
    destruct (loop_ n (lag + 1)%Z s1) as [s2 o2]. cbn [fst snd] in *.
    destruct IH as [IHs IHr]. split.
    + rewrite sent_app, Hs, IHs. reflexivity.
    + lia.
Qed.

(** X20.  No spike leaves a refractory node, whatever events it drains:
    from a state with [r >= n], [n] steps send nothing and end with [r]
    lowered by [n]. *)
Theorem refractory_silent (n : nat) (lag : Z) (st : State_) :
  (Z.of_nat n <= r_ st)%Z ->
  sent (loop_ n lag st).2 = [] /\
  r_ (loop_ n lag st).1 = (r_ st - Z.of_nat n)%Z.
Proof. apply refractory_silent_run. Qed.

(** X21.  Two spikes are more than [RefractoryCounts] steps apart: the
    [RefractoryCounts] steps that follow a step with a threshold
    crossing send nothing, and end with [r = 0]. *)
Theorem spike_then_silence (lag : Z) (st : State_) :
  (0 <= RefractoryCounts_ V)%Z ->
  crosses P V h B origin lag st ->
  sent (step_ lag st).2 = [lag] /\
  sent (loop_ (Z.to_nat (RefractoryCounts_ V)) (lag + 1) (step_ lag st).1).2 = [] /\
  r_ (loop_ (Z.to_nat (RefractoryCounts_ V)) (lag + 1) (step_ lag st).1).1 = 0%Z.
Proof.
  intros HRC Hc.
  assert (Hr : r_ (step_ lag st).1 = RefractoryCounts_ V)
    by (rewrite (step_crossing P V h B origin lag st Hc); reflexivity).
  split; [rewrite (step_crossing P V h B origin lag st Hc); reflexivity|].
  destruct (refractory_silent_run (Z.to_nat (RefractoryCounts_ V)) (lag + 1)
              (step_ lag st).1 ltac:(lia)) as [Hs Hr'].
  split; [exact Hs | lia].
Qed.

(** *** Blocks *)

Lemma update_loop_app (n m : nat) (lag : Z) (st : State_) :
  loop_ (n + m) lag st =
  ((loop_ m (lag + Z.of_nat n) (loop_ n lag st).1).1,
   (loop_ n lag st).2 ++ (loop_ m (lag + Z.of_nat n) (loop_ n lag st).1).2).
Proof.
  revert lag st. induction n as [|n IH]; intros lag st.
  - cbn [Nat.add update_loop fst snd app].
    replace (lag + Z.of_nat 0)%Z with lag by lia.
    destruct (loop_ m lag st); reflexivity.
  - cbn [Nat.add update_loop].
    destruct (step_ lag st) as [s1 o1].
    rewrite IH.
    replace (lag + 1 + Z.of_nat n)%Z with (lag + Z.of_nat (S n))%Z by lia.
    destruct (loop_ n (lag + 1)%Z s1) as [s2 o2]. cbn [fst snd].
    rewrite app_assoc. reflexivity.
Qed.

(** X22.  The result does not depend on how the steps are cut into
    blocks: an update over [[from, mid)] followed by one over
    [[mid, to)] from the state it left ends in the state, and produces
    the actions, of the single update over [[from, to)]. *)
Theorem update_blocks_compose (min_delay from mid to : Z)
        (st s1 s2 : State_) (o1 o2 : list Action) :
  update P V h B origin min_delay from mid st = Some (s1, o1) ->
  update P V h B origin min_delay mid to s1 = Some (s2, o2) ->
  update P V h B origin min_delay from to st = Some (s2, o1 ++ o2).
Proof.
  unfold update. intros H1 H2.
  repeat case_decide; try discriminate; try lia.
  injection H1 as H1. injection H2 as H2.
  replace (Z.to_nat (to - from)) with (Z.to_nat (mid - from) + Z.to_nat (to - mid))%nat
    by lia.
  rewrite update_loop_app, H1. cbn [fst snd].
  replace (from + Z.of_nat (Z.to_nat (mid - from)))%Z with mid by lia.
  rewrite H2. reflexivity.
Qed.

(** *** What a block sends and logs *)

Lemma step_actions (lag : Z) (st : State_) :
  logged_steps (step_ lag st).2 = [(origin + lag)%Z] /\
  spike_times (step_ lag st).2 =
    map (fun l => (origin + l + 1)%Z) (sent (step_ lag st).2) /\
  (sent (step_ lag st).2 = [] \/ sent (step_ lag st).2 = [lag]).
Proof.
  destruct (decide (crosses P V h B origin lag st)) as [Hc|Hc].
  - rewrite (step_crossing P V h B origin lag st Hc).
    repeat split; try reflexivity. right. reflexivity.
  - rewrite (step_no_crossing P V h B origin lag st Hc).
    repeat split; try reflexivity. left. reflexivity.
Qed.

Lemma loop_actions (n : nat) (lag : Z) (st : State_) :
  logged_steps (loop_ n lag st).2 =
    map (fun i => (origin + lag + Z.of_nat i)%Z) (seq 0 n) /\
  spike_times (loop_ n lag st).2 =
    map (fun l => (origin + l + 1)%Z) (sent (loop_ n lag st).2) /\
  Forall (fun l => (lag <= l < lag + Z.of_nat n)%Z) (sent (loop_ n lag st).2) /\
  StronglySorted Z.lt (sent (loop_ n lag st).2).
Proof.
  revert lag st. induction n as [|n IH]; intros lag st.
  - cbn. repeat split; constructor.
  - cbn [update_loop].
    destruct (step_actions lag st) as (Hl & Ht & Hs).
    destruct (step_ lag st) as [s1 o1]. cbn [fst snd] in *.
    specialize (IH (lag + 1)%Z s1).
    destruct (loop_ n (lag + 1)%Z s1) as [s2 o2]. cbn [fst snd] in *.
    destruct IH as (IHl & IHt & IHs & IHo).
    assert (Hshift : Forall (fun l => (lag < l /\ lag <= l < lag + Z.of_nat (S n))%Z)
                            (sent o2))
      by (eapply Forall_impl; [exact IHs | cbn; intros; lia]).
    split; [|split; [|split]].
    + unfold logged_steps in *. rewrite omap_app, Hl, IHl.
      cbn [seq map app]. f_equal; [lia|].
      rewrite <- seq_shift, map_map. apply map_ext. intros i. lia.
    + unfold spike_times in *. rewrite omap_app, Ht, IHt, sent_app, map_app.
      reflexivity.
    + rewrite sent_app. apply Forall_app. split.
      * destruct Hs as [-> | ->]; repeat constructor; lia.
      * eapply Forall_impl; [exact Hshift | cbn; intros; lia].
    + rewrite sent_app. destruct Hs as [-> | ->]; [exact IHo|].
      cbn [app]. constructor; [exact IHo|].
      eapply Forall_impl; [exact Hshift | cbn; intros; lia].
Qed.

(** X23.  A successful update over [[from, to)] logs one record per
    step, for the steps [origin + from, ..., origin + to - 1] in order;
    the offsets of the spikes it sends are within [[from, to)] and
    strictly increasing, and the spike times it records are those
    offsets moved to the end of their step, [origin + lag + 1]. *)
Theorem update_sends_and_logs (min_delay from to : Z) (st s' : State_)
        (out : list Action) :
  update P V h B origin min_delay from to st = Some (s', out) ->
  logged_steps out =
    map (fun i => (origin + from + Z.of_nat i)%Z) (seq 0 (Z.to_nat (to - from))) /\
  length (recorded out) = Z.to_nat (to - from) /\
  Forall (fun l => (from <= l < to)%Z) (sent out) /\
  StronglySorted Z.lt (sent out) /\
  spike_times out = map (fun l => (origin + l + 1)%Z) (sent out).
Proof.
  unfold update. intros Hup. repeat case_decide; try discriminate.
  injection Hup as Hup.
  destruct (loop_actions (Z.to_nat (to - from)) from st) as (Hl & Ht & Hs & Ho).
  rewrite Hup in *. cbn [fst snd] in *.
  split; [exact Hl|]. split; [|split; [|split; [exact Ho | exact Ht]]].
  - assert (Hlen : length (logged_steps out) = length (recorded out)).
    { clear. unfold logged_steps, recorded.
      induction out as [|a out IH]; [reflexivity|].
      destruct a; cbn; try exact IH. f_equal. exact IH. }
    rewrite <- Hlen, Hl, length_map, length_seq. reflexivity.
  - eapply Forall_impl; [exact Hs | cbn; intros; lia].
Qed.

(** *** Spikes need type-B events *)

Lemma loop_silent (Inv : State_ -> Prop) :
  (forall lag st, Inv st ->
                  Inv (step_ lag st).1 /\ ~ crosses P V h B origin lag st) ->
  forall (n : nat) (lag : Z) (st : State_),
    Inv st -> Inv (loop_ n lag st).1 /\ sent (loop_ n lag st).2 = [].
Proof.
  intros Hstep. induction n as [|n IH]; intros lag st Hst.
  - cbn. split; [exact Hst | reflexivity].
  - cbn [update_loop]. destruct (Hstep lag st Hst) as [H1 Hnc].
    assert (Hs : sent (step_ lag st).2 = [])
      by (rewrite (step_no_crossing P V h B origin lag st Hnc); reflexivity).
    destruct (step_ lag st) as [s1 o1]. cbn [fst snd] in *.
    specialize (IH (lag + 1)%Z s1 H1).
    destruct (loop_ n (lag + 1)%Z s1) as [s2 o2]. cbn [fst snd] in *.
    destruct IH as [IH1 IH2]. split; [exact IH1|].
    rewrite sent_app, Hs, IH2. reflexivity.
Qed.

Lemma drain_without_typeB (lag : Z) (t : R) (st : State_) :
  ~ spikes_ B 1 lag > 0.1 ->
  y3_ (drain P B lag t st) = y3_ st /\
  (y1_ (drain P B lag t st) = y1_ st \/ y1_ (drain P B lag t st) = 0).
Proof.
  intros H1. unfold drain. rewrite (decide_False _ _ H1).
  case_decide; cbn; auto.
Qed.

Lemma typeB_free_step (lag : Z) (st : State_) :
  0 <= P33_ V <= 1 -> 0 <= P31_ V -> Theta_ P <= 0 ->
  ~ spikes_ B 1 lag > 0.1 ->
  y3_ st >= Theta_ P /\ y1_ st >= 0 ->
  (y3_ (step_ lag st).1 >= Theta_ P /\ y1_ (step_ lag st).1 >= 0) /\
  ~ crosses P V h B origin lag st.
Proof.
  intros H33 H31 HT HB [H3 H1].
  destruct (drain_without_typeB lag (time_of lag) st HB) as [D3 D1].
  assert (Hnc : ~ crosses P V h B origin lag st).
  { intros [Hlow _]. cbv zeta in Hlow. rewrite D3 in Hlow. lra. }
  split; [|exact Hnc].
  rewrite (step_no_crossing P V h B origin lag st Hnc). cbn [fst].
  change (y3_ (set_y0 ?x ?s)) with (y3_ s).
  change (y1_ (set_y0 ?x ?s)) with (y1_ s).
  set (s1 := drain P B lag (time_of lag) st) in *.
  assert (D1' : 0 <= y1_ s1) by (destruct D1 as [-> | ->]; lra).
  unfold advance. case_decide as Hr.
  - pose proof (lower_bound_y3_ge P (integrate P V h (time_of lag) s1)) as Hge.
    rewrite integrate_y3 in Hge.
    rewrite lower_bound_y1, integrate_y1.
    pose proof (Rabs_pos (y2_ s1)) as Habs.
    assert (0 <= P31_ V * y1_ s1 * Rabs (y2_ s1))
      by (apply Rmult_le_pos; [apply Rmult_le_pos|]; assumption).
    assert (Theta_ P <= P33_ V * y3_ s1) by (rewrite D3; nra).
    assert (0 <= P33_ V * y1_ s1) by (apply Rmult_le_pos; lra).
    split; [lra|]. case_decide; lra.
  - cbn. lra.
Qed.

(** On numbers: with [Theta <= 0], [P33] in [[0, 1]] and [P31 >= 0], a
    state with [y3 >= Theta] and [y1 >= 0] sends no spike in any number
    of steps without a type-B event, and keeps [y3 >= Theta]. *)
Lemma typeB_free_run (n : nat) (lag : Z) (st : State_) :
  0 <= P33_ V <= 1 -> 0 <= P31_ V -> Theta_ P <= 0 ->
  no_typeB B ->
  y3_ st >= Theta_ P -> y1_ st >= 0 ->
  sent (loop_ n lag st).2 = [] /\ y3_ (loop_ n lag st).1 >= Theta_ P.
Proof.
  intros H33 H31 HT HB H3 H1.
  destruct (loop_silent (fun s => y3_ s >= Theta_ P /\ y1_ s >= 0)) with
    (n := n) (lag := lag) (st := st) as [[Hy _] Hs].
  - intros lag' st' Hst'. apply typeB_free_step; try assumption. apply HB.
  - split; assumption.
  - split; assumption.
Qed.

(** *** Without input current *)

Lemma kernel_y0_zero (ti tau : R) : kernel P V 0 ti tau = 0.
Proof. unfold kernel. ring. Qed.

Lemma integrate_without_input (t : R) (st : State_) :
  y0_ st = 0 -> currents_ st = 0 ->
  y2_ (integrate P V h t st) = y2_ st /\ currents_ (integrate P V h t st) = 0.
Proof.
  intros H0 Hc.
  pose proof (integrate_y2 P V h t st) as H2.
  pose proof (integrate_currents P V h t st) as Hcur.
  rewrite H0, Hc in *. rewrite !kernel_y0_zero in *. split; [lra | exact Hcur].
Qed.

Lemma drain_input (lag : Z) (t : R) (st : State_) :
  y0_ (drain P B lag t st) = y0_ st /\
  (currents_ st = 0 -> currents_ (drain P B lag t st) = 0).
Proof. unfold drain. repeat case_decide; cbn; auto. Qed.

Lemma step_without_input (lag : Z) (st : State_) :
  currents B lag = 0 ->
  y0_ st = 0 /\ currents_ st = 0 ->
  y0_ (step_ lag st).1 = 0 /\ currents_ (step_ lag st).1 = 0.
Proof.
  intros HB [H0 Hc]. split; [rewrite step_y0; exact HB|].
  destruct (drain_input lag (time_of lag) st) as [D0 Dc]. specialize (Dc Hc).
  assert (Ha : currents_ (advance P V h (time_of lag)
                                  (drain P B lag (time_of lag) st)) = 0).
  { unfold advance. case_decide; [|exact Dc].
    destruct (lower_bound_frame P (integrate P V h (time_of lag)
                                             (drain P B lag (time_of lag) st)))
      as (_ & -> & _).
    apply integrate_without_input; [rewrite D0; exact H0 | exact Dc]. }
  destruct (decide (crosses P V h B origin lag st)) as [Hcr|Hcr].
  - rewrite (step_crossing P V h B origin lag st Hcr). exact Ha.
  - rewrite (step_no_crossing P V h B origin lag st Hcr). exact Ha.
Qed.

(** *** The leak towards the threshold *)

Lemma pow_unit_interval (x : R) (n : nat) : 0 <= x <= 1 -> 0 <= x ^ n <= 1.
Proof.
  intros Hx. induction n as [|n IH]; cbn; [lra|]. nra.
Qed.

Lemma leak_step (lag : Z) (st : State_) :
  0 <= P33_ V <= 1 ->
  leaking P st ->
  ~ spikes_ B 0 lag > 0.1 -> ~ spikes_ B 1 lag > 0.1 -> currents B lag = 0 ->
  P33_ V * y3_ st < Theta_ P ->
  y3_ (step_ lag st).1 = P33_ V * y3_ st /\
  y1_ (step_ lag st).1 = P33_ V * y1_ st /\
  leaking P (step_ lag st).1 /\
  sent (step_ lag st).2 = [].
Proof.
  intros H33 (Hr & H0 & Hc & H2 & HLB & H3 & H1 & HL0) HA HB HI Hlow.
  set (t := time_of lag).
  pose proof (drain_quiet P B lag t st HA HB) as Hd.
  pose proof (integrate_y3 P V h t st) as I3.
  pose proof (integrate_y1 P V h t st) as I1.
  destruct (integrate_without_input t st H0 Hc) as [I2 Ic].
  destruct (integrate_frame P V h t st) as (F0 & Fti & Fr).
  rewrite H2, Rabs_R0 in I3.
  replace (P33_ V * y3_ st + P31_ V * y1_ st * 0) with (P33_ V * y3_ st) in I3 by ring.
  set (s2 := integrate P V h t st) in *.
  destruct (lower_bound_frame P s2) as (L0 & Lc & Lti & Lr).
  pose proof (lower_bound_y3 P s2) as L3.
  pose proof (lower_bound_y2 P s2) as L2.
  pose proof (lower_bound_y1 P s2) as L1.
  assert (Hy3 : y3_ st <= P33_ V * y3_ st) by nra.
  assert (Hy1 : 0 <= P33_ V * y1_ st) by (apply Rmult_le_pos; lra).
  rewrite decide_False in L3 by lra.
  rewrite decide_False in L2 by lra.
  rewrite decide_False in L1 by lra.
  assert (Hadv : advance P V h t (drain P B lag t st) = lower_bound P s2)
    by (rewrite Hd; apply advance_active, Hr).
  assert (Hnc : ~ crosses P V h B origin lag st).
  { intros [_ Hhigh]. cbv zeta in Hhigh. fold t in Hhigh.
    rewrite Hadv, L3, I3 in Hhigh. lra. }
  rewrite (step_no_crossing P V h B origin lag st Hnc). cbn [fst snd].
  fold t. rewrite Hadv.
  change (y3_ (set_y0 ?x ?s)) with (y3_ s).
  change (y1_ (set_y0 ?x ?s)) with (y1_ s).
  split; [rewrite L3; exact I3|]. split; [rewrite L1; exact I1|].
  split; [|reflexivity].
  unfold leaking.
  change (r_ (set_y0 ?x ?s)) with (r_ s).
  change (y0_ (set_y0 ?x ?s)) with x.
  change (currents_ (set_y0 ?x ?s)) with (currents_ s).
  change (y2_ (set_y0 ?x ?s)) with (y2_ s).
  change (y3_ (set_y0 ?x ?s)) with (y3_ s).
  change (y1_ (set_y0 ?x ?s)) with (y1_ s).
  rewrite Lr, Fr, Lc, Ic, L2, I2, L3, I3, L1, I1.
  repeat split; try assumption; nra.
Qed.

Lemma leak_run (n : nat) (lag : Z) (st : State_) :
  0 <= P33_ V <= 1 ->
  leaking P st -> silent B lag n ->
  (P33_ V ^ n * y3_ st < Theta_ P \/ n = 0%nat) ->
  y3_ (loop_ n lag st).1 = P33_ V ^ n * y3_ st /\
  y1_ (loop_ n lag st).1 = P33_ V ^ n * y1_ st /\
  leaking P (loop_ n lag st).1 /\
  sent (loop_ n lag st).2 = [].
Proof.
  intros H33. revert lag st. induction n as [|n IH]; intros lag st Hleak Hq Hlow.
  - cbn [update_loop fst snd pow]. split; [lra|]. split; [lra|].
    split; [exact Hleak | reflexivity].
  - destruct Hlow as [Hlow | Hn]; [|discriminate].
    assert (Hq0 : ~ spikes_ B 0 lag > 0.1 /\ ~ spikes_ B 1 lag > 0.1 /\
                  currents B lag = 0) by (apply Hq; lia).
    destruct Hq0 as (HA & HB & HI).
    assert (Hy3 : y3_ st <= 0) by (unfold leaking in Hleak; tauto).
    pose proof (pow_unit_interval (P33_ V) n H33) as Hpn.
    assert (Hfirst : P33_ V * y3_ st < Theta_ P).
    { cbn [pow] in Hlow. set (x := P33_ V ^ n) in *.
      assert (Hneg : P33_ V * y3_ st <= 0) by nra.
      assert (Hprod : 0 <= (1 - x) * - (P33_ V * y3_ st))
        by (apply Rmult_le_pos; lra).
      lra. }
    destruct (leak_step lag st H33 Hleak HA HB HI Hfirst) as (S3 & S1 & Sl & Ss).
    cbn [update_loop].
    destruct (step_ lag st) as [s1 o1]. cbn [fst snd] in *.
    assert (Hq' : silent B (lag + 1) n) by (intros k Hk; apply Hq; lia).
    assert (Hlow' : P33_ V ^ n * y3_ s1 < Theta_ P \/ n = 0%nat).
    { left. rewrite S3. cbn [pow] in Hlow. lra. }
    specialize (IH (lag + 1)%Z s1 Sl Hq' Hlow').
    destruct (loop_ n (lag + 1)%Z s1) as [s2 o2]. cbn [fst snd] in *.
    destruct IH as (I3 & I1 & Il & Is).
    split; [rewrite I3, S3; cbn [pow]; ring|].
    split; [rewrite I1, S1; cbn [pow]; ring|].
    split; [exact Il|].
    rewrite sent_app, Ss, Is. reflexivity.
Qed.

(** On numbers: from a leaking state, [n] steps without events nor
    current multiply [y3] and [y1] by [P33^n] and send nothing as long
    as [P33^n * y3 < Theta]; the step that brings [P33^(n+1) * y3] to
    [Theta] or above sends the one spike and resets. *)
Lemma leak_then_cross (n : nat) (lag : Z) (st : State_) :
  0 <= P33_ V <= 1 ->
  leaking P st -> silent B lag (S n) ->
  P33_ V ^ n * y3_ st < Theta_ P ->
  let s' := (loop_ n lag st).1 in
  (y3_ s' = P33_ V ^ n * y3_ st /\ y1_ s' = P33_ V ^ n * y1_ st /\
   sent (loop_ n lag st).2 = []) /\
  (Theta_ P <= P33_ V ^ (S n) * y3_ st ->
   sent (step_ (lag + Z.of_nat n) s').2 = [(lag + Z.of_nat n)%Z] /\
   y3_ (step_ (lag + Z.of_nat n) s').1 = U0_ P /\
   r_ (step_ (lag + Z.of_nat n) s').1 = RefractoryCounts_ V).
Proof.
  intros H33 Hleak Hq Hlow. cbv zeta.
  assert (Hq' : silent B lag n) by (intros k Hk; apply Hq; lia).
  destruct (leak_run n lag st H33 Hleak Hq' (or_introl Hlow)) as (R3 & R1 & Rl & Rs).
  split; [repeat split; assumption|].
  intros Hhigh.
  set (s' := (loop_ n lag st).1) in *. set (lag' := (lag + Z.of_nat n)%Z).
  destruct (Hq lag' ltac:(lia)) as (HA & HB & HI).
  destruct Rl as (Hr & H0 & Hc & H2 & HLB & H3 & H1 & HL0).
  assert (Hcross : crosses P V h B origin lag' s').
  { unfold crosses. cbv zeta.
    rewrite (drain_quiet P B lag' _ s' HA HB).
    split; [rewrite R3; exact Hlow|].
    rewrite advance_active by exact Hr.
    pose proof (lower_bound_y3_ge P (integrate P V h (time_of lag') s')) as Hge.
    rewrite integrate_y3, H2, Rabs_R0, R3 in Hge.
    cbn [pow] in Hhigh. lra. }
  rewrite (step_crossing P V h B origin lag' s' Hcross).
  repeat split; reflexivity.
Qed.

End Update_more.

(* ================================================================== *)
(** * Instances                                                        *)
(* ================================================================== *)

Section More_instances.
Import Iaf IafSpec IafNode Scenario ScenarioMore.

(** *** Dictionaries *)

Lemma State_get_set_witness :
  State_set (State_get st_reset P0 ∅) P0 0 st_rest = (set_y3 (-10) st_rest, inr tt) /\
  State_set ∅ P0 0 st_rest = (st_rest, inr tt).
Proof.
  destruct (State_get_set st_reset st_rest P0 P0 0 ∅ ∅) as (H1 & _ & _).
  destruct (State_get_set st_rest st_rest P0 P0 0 ∅ ∅) as (_ & _ & H3).
  split; [exact H1 | apply H3, lookup_empty].
Defined.

Lemma d_threshold_well_typed : well_typed d_threshold.
Proof.
  unfold well_typed, d_threshold. names_unfold. rewrite !Forall_cons, Forall_nil.
  split_ands;
    lazymatch goal with
    | |- True => exact I
    | |- _ =>
        unfold double_or_absent;
        first [ rewrite lookup_insert_eq
              | rewrite lookup_insert_ne by done;
                first [ rewrite lookup_singleton_eq
                      | rewrite lookup_singleton_ne by done ] ];
        exact I
    end.
Qed.

Lemma d_threshold_V_th : d_threshold !! names.V_th = Some (DoubleDatum (-2)).
Proof. unfold d_threshold. apply lookup_insert_eq. Qed.

Lemma d_threshold_E_L : d_threshold !! names.E_L = Some (DoubleDatum 3).
Proof.
  unfold d_threshold. names_unfold.
  rewrite lookup_insert_ne by done. apply lookup_singleton_eq.
Qed.

Lemma set_then_get_witness :
  get (set d_threshold P0).1 ∅ !! names.E_L = Some (DoubleDatum 3) /\
  get (set d_threshold P0).1 ∅ !! names.V_th =
    Some (DoubleDatum (-2 + U0_ (set d_threshold P0).1)).
Proof.
  split.
  - apply (set_then_get d_threshold ∅ P0 names.E_L 3
             d_threshold_well_typed d_threshold_E_L).
    names_unfold. apply list_elem_of_In. cbn. tauto.
  - apply (set_then_get d_threshold ∅ P0 names.V_th (-2)
             d_threshold_well_typed d_threshold_V_th).
    names_unfold. apply list_elem_of_In. cbn. tauto.
Defined.

Lemma set_twice_witness :
  (set d_threshold (set d_threshold P0).1).1 = (set d_threshold P0).1.
Proof.
  apply (set_twice d_threshold P0 d_threshold_well_typed).
Defined.

Lemma empty_well_typed : well_typed ∅.
Proof.
  unfold well_typed. apply Forall_forall. intros n _.
  unfold double_or_absent. rewrite lookup_empty. exact I.
Qed.

Lemma overwritten_empty (p : Parameters_) : overwritten ∅ p = p.
Proof.
  apply Parameters_ext; unfold overwritten, updated;
    cbn [Tau_ C_ TauR_ U0_ I_e_ V_reset_ Theta_ LowerBound_ Sigma_ Ti_
         num_of_receptors_ receptor_types_];
    rewrite ?lookup_empty; reflexivity.
Qed.

Lemma set_empty_returns : exists delta_EL, (set ∅ P0).2 = inr delta_EL.
Proof.
  destruct (set_result ∅ P0 empty_well_typed) as [[_ Hr] | [Hnv _]].
  - eexists. exact Hr.
  - rewrite overwritten_empty in Hnv. destruct Hnv. apply P0_valid.
Qed.

Lemma set_returns_valid_witness : valid (set ∅ P0).1.
Proof.
  destruct set_empty_returns as [delta_EL Hr].
  exact (set_returns_valid ∅ P0 delta_EL Hr).
Defined.

(** *** Calibration and ports *)

Lemma calibrate_propagators_witness :
  0 < P33_ V0 < 1 /\ 0 < P31_ V0 /\ P22_ V0 < 0 /\ 0 < P21_ V0.
Proof.
  destruct (calibrate_propagators Rpower (fun _ => 20%Z) h0 P0)
    as (H33 & H31 & H22 & H21); try (unfold h0; cbn; lra).
  split; [exact H33|]. split; [exact H31|]. split.
  - apply H22. cbn. lra.
  - apply H21; [cbn; lra | apply Rpower_pos].
Defined.

Lemma calibrate_ports_witness :
  exists V, calibrate Rpower (fun _ => 20%Z) h0 P0 = Some (P0, V) /\
            ports_calibrated P0.
Proof.
  destruct (calibrate_ports Rpower (fun _ => 20%Z) h0 P0 ltac:(cbn; lia))
    as [_ Hsome].
  exists V0.
  assert (Hc : calibrate Rpower (fun _ => 20%Z) h0 P0 = Some (P0, V0)).
  { unfold calibrate. rewrite decide_True by (cbn; lia). reflexivity. }
  split; [exact Hc | apply (Hsome P0 V0 Hc)].
Defined.

Lemma P0_ports : ports_calibrated P0.
Proof. split; [cbn; lia | reflexivity]. Qed.

Lemma connect_sender_ports_witness :
  connect_sender P0 2 = inr 2%Z /\
  connect_sender P0 3 = inl (IncompatibleReceptorType 3).
Proof.
  split.
  - apply (connect_sender_ports P0 2 P0_ports). apply list_elem_of_In. cbn. tauto.
  - apply (connect_sender_ports P0 3 P0_ports). rewrite list_elem_of_In. cbn. lia.
Defined.

(** *** Event handlers *)

Lemma handle_spike_delivers_witness :
  exists B', handle_SpikeEvent P0 e_typeB B_empty = Some B' /\
             spikes_ B' 1 0 = spikes_ B_empty 1 0 + delivered P0 e_typeB 1 0.
Proof.
  destruct (handle_spike_delivers P0 e_typeB B_empty P0_ports) as [Hok _].
  destruct (Hok ltac:(cbn; lia)) as (B' & HB' & Hs & _).
  exists B'. split; [exact HB' | apply Hs].
Defined.

Lemma handle_some (e : SpikeEvent) (B : Buffers_) :
  (se_delay e > 0)%Z -> exists B', handle_SpikeEvent P0 e B = Some B'.
Proof.
  intros Hd. unfold handle_SpikeEvent. rewrite decide_True by exact Hd. eauto.
Qed.

Lemma handle_spikes_commute_witness :
  exists B12 B21,
    (exists B1, handle_SpikeEvent P0 e_weak B_empty = Some B1 /\
                handle_SpikeEvent P0 e_typeB B1 = Some B12) /\
    (exists B2, handle_SpikeEvent P0 e_typeB B_empty = Some B2 /\
                handle_SpikeEvent P0 e_weak B2 = Some B21) /\
    spikes_ B12 0 0 = spikes_ B21 0 0.
Proof.
  destruct (handle_some e_weak B_empty ltac:(cbn; lia)) as [B1 H1].
  destruct (handle_some e_typeB B1 ltac:(cbn; lia)) as [B12 H12].
  destruct (handle_some e_typeB B_empty ltac:(cbn; lia)) as [B2 H2].
  destruct (handle_some e_weak B2 ltac:(cbn; lia)) as [B21 H21].
  exists B12, B21. split; [eauto|]. split; [eauto|].
  apply (handle_spikes_commute P0 e_weak e_typeB B_empty B1 B12 B2 B21
           P0_ports H1 H12 H2 H21 0%nat 0%Z).
Defined.

Lemma handled_spike_drained_witness :
  exists B', handle_SpikeEvent P0 e_typeB B_empty = Some B' /\
             y3_ (drain P0 B' 0 0.1 st_rest) = V_reset_ P0 /\
             y1_ (drain P0 B' 0 0.1 st_rest) = 1.
Proof.
  destruct (handle_some e_typeB B_empty ltac:(cbn; lia)) as [B' HB'].
  exists B'. split; [exact HB'|].
  destruct (handled_spike_drained P0 e_typeB B_empty B' 0.1 st_rest P0_ports HB')
    as [HtypeB _].
  apply (HtypeB eq_refl ltac:(cbn; lia)). cbn. lra.
Defined.

Lemma handled_current_read_witness :
  exists B', handle_CurrentEvent e_current B_empty = Some B' /\
             y0_ (step P0 V0 h0 B' 0 0 st_rest).1 = currents B_empty 0 + 0.5 * 2.
Proof.
  destruct (handled_current_read P0 V0 h0 e_current B_empty 0 0 st_rest
              ltac:(cbn; lia)) as (B' & HB' & _ & Hread & _).
  exists B'. split; [exact HB' | apply Hread; reflexivity].
Defined.

(** *** Update *)

Lemma V0_refractory : RefractoryCounts_ V0 = 20%Z.
Proof. reflexivity. Qed.

Lemma refractory_counter_bounded_witness :
  (0 <= r_ (update_loop P0 V0 h0 B_typeB 0 2 0 st_rest).1 <= 20)%Z.
Proof.
  apply (refractory_counter_bounded P0 V0 h0 B_typeB 0 st_rest
           ltac:(rewrite V0_refractory; lia)
           ltac:(rewrite V0_refractory; cbn; lia)
           2%Z 0%Z 2%Z _ _ (update_block P0 B_typeB st_rest)).
Defined.

Lemma refractory_silent_witness :
  sent (update_loop P0 V0 h0 B_typeB 0 10 0 st_refractory_10).2 = [] /\
  r_ (update_loop P0 V0 h0 B_typeB 0 10 0 st_refractory_10).1 = 0%Z.
Proof.
  apply (refractory_silent P0 V0 h0 B_typeB 0 10 0 st_refractory_10).
  cbn. lia.
Defined.

Lemma spike_then_silence_witness :
  sent (step P0 V0 h0 B_typeB 0 0 st_charged).2 = [0%Z] /\
  sent (update_loop P0 V0 h0 B_typeB 0 20 1
          (step P0 V0 h0 B_typeB 0 0 st_charged).1).2 = [].
Proof.
  destruct (spike_then_silence P0 V0 h0 B_typeB 0 0 st_charged
              ltac:(rewrite V0_refractory; lia) charged_crossing)
    as (H1 & H2 & _).
  split; [exact H1 | exact H2].
Defined.

Lemma update_part (from to : Z) (st : State_) :
  (0 <= from < to)%Z -> (to <= 2)%Z ->
  update P0 V0 h0 B_empty 0 2 from to st =
  Some (update_loop P0 V0 h0 B_empty 0 (Z.to_nat (to - from)) from st).
Proof.
  intros Hf Ht. unfold update. rewrite !decide_True by lia. reflexivity.
Qed.

Lemma update_blocks_compose_witness :
  update P0 V0 h0 B_empty 0 2 0 2 st_rest =
  Some ((update_loop P0 V0 h0 B_empty 0 1 1
           (update_loop P0 V0 h0 B_empty 0 1 0 st_rest).1).1,
        (update_loop P0 V0 h0 B_empty 0 1 0 st_rest).2 ++
        (update_loop P0 V0 h0 B_empty 0 1 1
           (update_loop P0 V0 h0 B_empty 0 1 0 st_rest).1).2).
Proof.
  apply (update_blocks_compose P0 V0 h0 B_empty 0 2 0 1 2 st_rest
           (update_loop P0 V0 h0 B_empty 0 1 0 st_rest).1).
  - rewrite update_part by lia. change (Z.to_nat (1 - 0)) with 1%nat.
    destruct (update_loop P0 V0 h0 B_empty 0 1 0 st_rest); reflexivity.
  - rewrite update_part by lia. change (Z.to_nat (2 - 1)) with 1%nat.
    destruct (update_loop P0 V0 h0 B_empty 0 1 1 _); reflexivity.
Defined.

Lemma update_sends_and_logs_witness :
  logged_steps (update_loop P0 V0 h0 B_typeB 0 2 0 st_charged).2 = [0%Z; 1%Z].
Proof.
  destruct (update_sends_and_logs P0 V0 h0 B_typeB 0 2 0 2 st_charged _ _
              (update_block P0 B_typeB st_charged)) as (Hl & _).
  exact Hl.
Defined.

Lemma V0_unit : 0 <= P33_ V0 <= 1 /\ 0 <= P31_ V0.
Proof.
  pose proof V0_P33_bounds as Hb. rewrite V0_P31. split; lra.
Qed.

Lemma st_reset_leaking : leaking P0 st_reset.
Proof. unfold leaking. cbn. repeat split; first [reflexivity | lra]. Qed.

Lemma B_empty_silent (lag : Z) (n : nat) : silent B_empty lag n.
Proof. intros k _. cbn. repeat split; first [lra | reflexivity]. Qed.

End More_instances.

(* ================================================================== *)
(** * Properties on doubles                                            *)
(* ================================================================== *)

Section Double_facts.
Import Double.

Lemma ddiv_Num (x y : R) : y <> 0 -> (Num x / Num y)%D = Num (x / y).
Proof. intros Hy. unfold ddiv. rewrite decide_False by exact Hy. reflexivity. Qed.

Lemma decide_dlt_Num {A : Type} (x y : R) (a b : A) :
  (if decide (Num x < Num y)%D then a else b) = (if decide (x < y) then a else b).
Proof.
  destruct (decide (x < y)) as [H|H];
    [rewrite decide_True by exact H | rewrite decide_False by exact H]; reflexivity.
Qed.

Lemma dlt_irrefl (a : double_t) : ~ (a < a)%D.
Proof. destruct a; cbn; [lra | tauto | tauto | tauto]. Qed.

Lemma dlt_dge_absurd (a b : double_t) : (a < b)%D -> (a >= b)%D -> False.
Proof. destruct a, b; cbn; first [lra | tauto]. Qed.

Lemma dle_dge (a b : double_t) : (a <= b)%D -> (b >= a)%D.
Proof. destruct a, b; cbn; first [lra | tauto]. Qed.

Lemma dadd_0_r (a : double_t) : (a + Num 0)%D = a.
Proof. destruct a; cbn; [f_equal; lra | reflexivity | reflexivity | reflexivity]. Qed.

Lemma inf_of_sign_neg (x : R) : x < 0 -> inf_of_sign x = NegInf.
Proof.
  intros Hx. unfold inf_of_sign.
  rewrite decide_False by lra. rewrite decide_True by lra. reflexivity.
Qed.

Lemma dle_not_dlt (a b : double_t) : (a <= b)%D -> ~ (b < a)%D.
Proof. destruct a, b; cbn; first [lra | tauto]. Qed.


Lemma not_dlt_dge (a b : double_t) :
  a <> NaN -> b <> NaN -> ~ (a < b)%D -> (a >= b)%D.
Proof.
  destruct a, b; cbn; intros Ha Hb H; first [lra | exact I | congruence | tauto].
Qed.




Lemma dge_not_NaN (a b : double_t) : (a >= b)%D -> a <> NaN /\ b <> NaN.
Proof. destruct a, b; cbn; intros H; split; first [congruence | tauto]. Qed.

Lemma dadd_NaN_r (a : double_t) : (a + NaN)%D = NaN.
Proof. destruct a; reflexivity. Qed.

Lemma dmul_NaN_r (a : double_t) : (a * NaN)%D = NaN.
Proof. destruct a; reflexivity. Qed.

(** *** Doubles that are not below a number

    [~ (a < Num t)]: [a] is a number at or above [t], [+infinity] or
    NaN. *)

Lemma dlt_trans (a b c : double_t) : (a < b)%D -> (b < c)%D -> (a < c)%D.
Proof. destruct a, b, c; cbn; first [lra | tauto]. Qed.

Lemma clamp_keeps_not_below (a L T : double_t) :
  ~ (a < T)%D -> ~ ((if decide (a < L)%D then L else a) < T)%D.
Proof.
  intros Ha. case_decide as HL; [|exact Ha].
  intros HT. apply Ha. exact (dlt_trans _ _ _ HL HT).
Qed.

Lemma dabs_not_below_0 (a : double_t) : ~ (dabs a < Num 0)%D.
Proof.
  destruct a as [x| | |]; cbn; try tauto.
  pose proof (Rabs_pos x). lra.
Qed.

Lemma dmul_not_below_0 (a b : double_t) :
  ~ (a < Num 0)%D -> ~ (b < Num 0)%D -> ~ (a * b < Num 0)%D.
Proof.
  destruct a as [x| | |], b as [y| | |]; cbn; intros Ha Hb; try tauto;
    unfold inf_of_sign; repeat case_decide; cbn; first [tauto | nra].
Qed.

Lemma dmul_decay_not_below (p t : R) (a : double_t) :
  0 <= p <= 1 -> t <= 0 -> ~ (a < Num t)%D -> ~ (Num p * a < Num t)%D.
Proof.
  intros Hp Ht. destruct a as [x| | |]; cbn; intros Ha; try tauto;
    unfold inf_of_sign; repeat case_decide; cbn; first [tauto | nra].
Qed.

Lemma dadd_not_below (t : R) (a b : double_t) :
  ~ (a < Num t)%D -> ~ (b < Num 0)%D -> ~ (a + b < Num t)%D.
Proof.
  destruct a as [x| | |], b as [y| | |]; cbn; intros Ha Hb; first [tauto | lra].
Qed.

End Double_facts.

Section STDP_double.
Import Double STDPDouble.

Variable pow : double_t -> double_t -> double_t.
Variable h : R.








(** On numbers [learn_] is the function of the first model, where
    [std::pow] returns a number and no time constant is zero. *)
Lemma learn_of_numbers (powR : R -> R -> R) (c : STDP.STDPConnectionMulti) (w dt : R) :
  STDP.tplus_ c <> 0 -> STDP.tneg_ c <> 0 ->
  power pow (of_numbers c) (Num dt) =
    Num (if decide (dt > 0) then powR (1 - 1 / STDP.tplus_ c) dt
         else powR (1 - 1 / STDP.tneg_ c) (- dt)) ->
  learn_ pow (of_numbers c) (Num w) (Num dt) = Num (STDP.learn_ powR c w dt).
Proof.
  intros Hp Hn Hpow. unfold learn_, STDP.learn_, power in *.
  change (Num dt > Num 0)%D with (dt > 0) in *.
  destruct (decide (dt > 0)) as [Hd|Hd].
  - rewrite Hpow.
    cbn [of_numbers Wmax_ Aplus_ dopp dexp dmul dadd].
    repeat case_decide; cbn in *; first [reflexivity | lra].
  - rewrite Hpow.
    cbn [of_numbers Wmax_ Aneg_ dopp dexp dmul dadd].
    repeat case_decide; cbn in *; first [reflexivity | lra].
Qed.

End STDP_double.

Section STDP_double_instances.
Import Double STDPDouble ScenarioDouble.






End STDP_double_instances.

(* ================================================================== *)
(** * The node on numbers and on doubles                               *)
(* ================================================================== *)

(** On parameters and states whose members are numbers, the update on
    doubles is the update of the model on numbers. *)
Section Finite_fragment.
Import Double IafDouble.

Variable P : Iaf.Parameters_.
Variable V : Iaf.Variables_.
Variable h : R.
Variable B : Iaf.Buffers_.
Variable origin : Z.

Local Abbreviation P' := (of_Parameters P).
Local Abbreviation V' := (of_Variables V).

Lemma update_currents_of_State (t : R) (s : Iaf.State_) :
  update_currents_ P' V' t (of_State s) = of_State (Iaf.update_currents_ P V t s).
Proof.
  unfold update_currents_, Iaf.update_currents_.
  cbn [of_State of_Parameters of_Variables ti_ Ti_ P22_ P21_ y0_].
  rewrite ddiv_Num by lra. cbn [dsub dadd dopp dmul].
  rewrite ddiv_Num by lra. reflexivity.
Qed.

Lemma drain_of_State (lag : Z) (t : R) (s : Iaf.State_) :
  drain P' B lag t (of_State s) = of_State (Iaf.drain P B lag t s).
Proof.
  unfold drain, Iaf.drain. repeat case_decide; reflexivity.
Qed.

Lemma integrate_of_State (t : R) (s : Iaf.State_) :
  integrate P' V' h t (of_State s) = of_State (Iaf.integrate P V h t s).
Proof.
  unfold integrate, Iaf.integrate. cbv zeta.
  change (set_y3 (P33_ V' * y3_ (of_State s) +
                  P31_ V' * y1_ (of_State s) * dabs (y2_ (of_State s)))%D (of_State s))
    with (of_State (Iaf.set_y3 (Iaf.P33_ V * Iaf.y3_ s +
                                Iaf.P31_ V * Iaf.y1_ s * Rabs (Iaf.y2_ s)) s)).
  set (s1 := Iaf.set_y3 _ s).
  change (set_y1 (P33_ V' * y1_ (of_State s1))%D (of_State s1))
    with (of_State (Iaf.set_y1 (Iaf.P33_ V * Iaf.y1_ s1) s1)).
  set (s2 := Iaf.set_y1 _ s1).
  rewrite update_currents_of_State.
  set (s3 := Iaf.update_currents_ P V (t + h / 2) s2).
  rewrite update_currents_of_State.
  set (s4 := Iaf.update_currents_ P V (t + h) s3).
  cbn [of_State y2_ currents_ dadd dmul].
  rewrite ddiv_Num by lra. reflexivity.
Qed.

Lemma lower_bound_of_State (s : Iaf.State_) :
  lower_bound P' (of_State s) = of_State (Iaf.lower_bound P s).
Proof.
  unfold lower_bound, Iaf.lower_bound. cbv zeta.
  cbn [of_State of_Parameters LowerBound_ y3_ y2_ y1_ set_y3 set_y2 set_y1
       Iaf.set_y3 Iaf.set_y2 Iaf.set_y1 Iaf.y3_ Iaf.y2_ Iaf.y1_].
  rewrite !decide_dlt_Num. repeat case_decide; reflexivity.
Qed.

Lemma advance_of_State (t : R) (s : Iaf.State_) :
  advance P' V' h t (of_State s) = of_State (Iaf.advance P V h t s).
Proof.
  unfold advance, Iaf.advance. cbn [of_State r_].
  case_decide; [|reflexivity].
  rewrite integrate_of_State, lower_bound_of_State. reflexivity.
Qed.

Lemma threshold_of_State (lag : Z) (Vm0 : R) (s : Iaf.State_) :
  threshold P' V' origin lag (Num Vm0) (of_State s) =
  of_result (Iaf.threshold P V origin lag Vm0 s).
Proof.
  unfold threshold, Iaf.threshold.
  destruct (decide (Vm0 < Iaf.Theta_ P /\ Iaf.y3_ s >= Iaf.Theta_ P)) as [H|H].
  - rewrite decide_True by exact H. reflexivity.
  - rewrite decide_False by exact H. reflexivity.
Qed.

Lemma step_of_State (lag : Z) (s : Iaf.State_) :
  step P' V' h B origin lag (of_State s) = of_result (Iaf.step P V h B origin lag s).
Proof.
  unfold step, Iaf.step. cbv zeta.
  rewrite drain_of_State, advance_of_State.
  cbn [of_State y3_]. rewrite threshold_of_State.
  destruct (Iaf.threshold P V origin lag _ _) as [s' out].
  unfold of_result. cbn [fst snd]. rewrite map_app. reflexivity.
Qed.

Lemma update_loop_of_State (n : nat) (lag : Z) (s : Iaf.State_) :
  update_loop P' V' h B origin n lag (of_State s) =
  of_result (Iaf.update_loop P V h B origin n lag s).
Proof.
  revert lag s. induction n as [|n IH]; intros lag s; [reflexivity|].
  cbn [update_loop Iaf.update_loop]. rewrite step_of_State.
  destruct (Iaf.step P V h B origin lag s) as [s1 out1].
  unfold of_result at 1. cbn [fst snd]. rewrite IH.
  destruct (Iaf.update_loop P V h B origin n (lag + 1) s1) as [s2 out2].
  unfold of_result. cbn [fst snd]. rewrite map_app. reflexivity.
Qed.

(** The block on numbers: the asserts fail together, and the states and
    actions are those of the model on numbers. *)
Lemma update_of_State (min_delay from to : Z) (s : Iaf.State_) :
  update P' V' h B origin min_delay from to (of_State s) =
  option_map of_result (Iaf.update P V h B origin min_delay from to s).
Proof.
  unfold update, Iaf.update. repeat case_decide; try reflexivity.
  cbn [option_map]. rewrite update_loop_of_State. reflexivity.
Qed.

End Finite_fragment.

Section Unbounded.
Import Double IafDouble.

Variable P : Iaf.Parameters_.
Variable V : Iaf.Variables_.
Variable h : R.
Variable B : Iaf.Buffers_.
Variable origin : Z.

Local Abbreviation P_inf := (set_LowerBound NegInf (of_Parameters P)).
Local Abbreviation V' := (of_Variables V).
Local Abbreviation time_of lag := (step_to_ms h (origin + lag + 1)).

Lemma of_State_inj (s1 s2 : Iaf.State_) : of_State s1 = of_State s2 -> s1 = s2.
Proof.
  destruct s1, s2. unfold of_State. cbn. intros H. injection H. intros. subst.
  reflexivity.
Qed.

Lemma State_eta (st : State_) :
  mk_State (y0_ st) (y1_ st) (y2_ st) (y3_ st) (currents_ st) (ti_ st) (r_ st) = st.
Proof. destruct st. reflexivity. Qed.

Lemma not_below_NegInf (a : double_t) : ~ (a < NegInf)%D.
Proof. destruct a; cbn; tauto. Qed.

(** With the [-infinity] of the constructor the three lower-bound
    assignments change nothing, whatever the state. *)
Lemma lower_bound_NegInf (P0 : Parameters_) (st : State_) :
  LowerBound_ P0 = NegInf -> lower_bound P0 st = st.
Proof.
  intros HL. unfold lower_bound. cbv zeta. rewrite HL.
  rewrite !decide_False by apply not_below_NegInf.
  unfold set_y1, set_y2, set_y3. cbn. apply State_eta.
Qed.

Lemma lower_bound_low (L : R) (s : Iaf.State_) :
  L <= Iaf.y1_ s -> L <= Iaf.y2_ s -> L <= Iaf.y3_ s ->
  Iaf.lower_bound (Iaf.set_LowerBound L P) s = s.
Proof.
  intros H1 H2 H3. unfold Iaf.lower_bound. cbv zeta.
  cbn [Iaf.LowerBound_ Iaf.set_LowerBound Iaf.set_y3 Iaf.set_y2 Iaf.set_y1
       Iaf.y3_ Iaf.y2_ Iaf.y1_].
  rewrite !decide_False by lra. destruct s. reflexivity.
Qed.

Lemma low_le (L0 : R) (lag : Z) (s : Iaf.State_) :
  let i := Iaf.integrate P V h (time_of lag) (Iaf.drain P B lag (time_of lag) s) in
  low P V h B origin L0 lag s <= L0 /\ low P V h B origin L0 lag s <= Iaf.y1_ i /\
  low P V h B origin L0 lag s <= Iaf.y2_ i /\ low P V h B origin L0 lag s <= Iaf.y3_ i.
Proof.
  cbv zeta. unfold low. cbv zeta.
  set (i := Iaf.integrate _ _ _ _ _).
  pose proof (Rmin_l L0 (Rmin (Iaf.y1_ i) (Rmin (Iaf.y2_ i) (Iaf.y3_ i)))).
  pose proof (Rmin_r L0 (Rmin (Iaf.y1_ i) (Rmin (Iaf.y2_ i) (Iaf.y3_ i)))).
  pose proof (Rmin_l (Iaf.y1_ i) (Rmin (Iaf.y2_ i) (Iaf.y3_ i))).
  pose proof (Rmin_r (Iaf.y1_ i) (Rmin (Iaf.y2_ i) (Iaf.y3_ i))).
  pose proof (Rmin_l (Iaf.y2_ i) (Iaf.y3_ i)).
  pose proof (Rmin_r (Iaf.y2_ i) (Iaf.y3_ i)).
  repeat split; lra.
Qed.

Lemma step_unbounded_low (lag : Z) (s : Iaf.State_) (L0 L : R) :
  L <= low P V h B origin L0 lag s ->
  step P_inf V' h B origin lag (of_State s) =
  of_result (Iaf.step (Iaf.set_LowerBound L P) V h B origin lag s).
Proof.
  intros HL. destruct (low_le L0 lag s) as (_ & H1 & H2 & H3). cbv zeta in *.
  rewrite <- step_of_State. unfold step. cbv zeta.
  change (drain P_inf B lag (time_of lag) (of_State s))
    with (drain (of_Parameters (Iaf.set_LowerBound L P)) B lag (time_of lag) (of_State s)).
  rewrite (drain_of_State (Iaf.set_LowerBound L P)).
  change (Iaf.drain (Iaf.set_LowerBound L P) B lag (time_of lag) s)
    with (Iaf.drain P B lag (time_of lag) s) in *.
  set (d := Iaf.drain P B lag (time_of lag) s) in *.
  assert (Ha : advance P_inf V' h (time_of lag) (of_State d) =
               advance (of_Parameters (Iaf.set_LowerBound L P)) V' h (time_of lag)
                       (of_State d)).
  { unfold advance. case_decide; [|reflexivity].
    rewrite lower_bound_NegInf by reflexivity.
    change (integrate P_inf V' h (time_of lag) (of_State d))
      with (integrate (of_Parameters (Iaf.set_LowerBound L P)) V' h (time_of lag)
                      (of_State d)).
    rewrite (integrate_of_State (Iaf.set_LowerBound L P)).
    rewrite (lower_bound_of_State (Iaf.set_LowerBound L P)).
    change (Iaf.integrate (Iaf.set_LowerBound L P) V h (time_of lag) d)
      with (Iaf.integrate P V h (time_of lag) d).
    rewrite lower_bound_low by lra. reflexivity. }
  rewrite Ha. reflexivity.
Qed.

Lemma of_result_inj (r1 r2 : Iaf.State_ * list Iaf.Action) :
  of_result r1 = of_result r2 -> r1.1 = r2.1.
Proof.
  unfold of_result. intros H. apply of_State_inj.
  exact (f_equal fst H).
Qed.

(** With the lower bound at [-infinity], a run from a state of numbers
    is the run of the model on numbers with any bound that is low
    enough. *)
Lemma update_loop_unbounded (n : nat) (lag : Z) (s : Iaf.State_) (L0 : R) :
  exists L : R, L <= L0 /\
    forall L' : R, L' <= L ->
      update_loop P_inf V' h B origin n lag (of_State s) =
      of_result (Iaf.update_loop (Iaf.set_LowerBound L' P) V h B origin n lag s).
Proof.
  revert lag s. induction n as [|n IH]; intros lag s.
  - exists L0. split; [lra | reflexivity].
  - set (L1 := low P V h B origin L0 lag s).
    set (s1 := (Iaf.step (Iaf.set_LowerBound L1 P) V h B origin lag s).1).
    destruct (IH (lag + 1)%Z s1) as (L2 & HL2 & IH').
    exists (Rmin L1 L2). split.
    + pose proof (Rmin_r L1 L2). lra.
    + intros L' HL'.
      pose proof (Rmin_l L1 L2) as Hl. pose proof (Rmin_r L1 L2) as Hr.
      assert (E1 : step P_inf V' h B origin lag (of_State s) =
                   of_result (Iaf.step (Iaf.set_LowerBound L1 P) V h B origin lag s))
        by (apply (step_unbounded_low lag s L0); unfold L1; lra).
      assert (E' : step P_inf V' h B origin lag (of_State s) =
                   of_result (Iaf.step (Iaf.set_LowerBound L' P) V h B origin lag s))
        by (apply (step_unbounded_low lag s L0); fold L1; lra).
      assert (Es : (Iaf.step (Iaf.set_LowerBound L' P) V h B origin lag s).1 = s1)
        by (apply of_result_inj; rewrite <- E', E1; reflexivity).
      cbn [update_loop Iaf.update_loop]. rewrite E'.
      destruct (Iaf.step (Iaf.set_LowerBound L' P) V h B origin lag s) as [s1' out1].
      cbn [fst] in Es. subst s1'.
      unfold of_result at 1. cbn [fst snd].
      rewrite (IH' L') by lra.
      destruct (Iaf.update_loop _ V h B origin n (lag + 1) s1) as [s2 out2].
      unfold of_result. cbn [fst snd]. rewrite map_app. reflexivity.
Qed.

End Unbounded.

(* ================================================================== *)
(** * The update on doubles                                            *)
(* ================================================================== *)

Section Update_double.
Import Double IafDouble.

Variable P : Parameters_.
Variable V : Variables_.
Variable h : R.
Variable B : Iaf.Buffers_.
Variable origin : Z.

Local Abbreviation time_at lag := (step_to_ms h (origin + lag + 1)).
Local Abbreviation crossing_at := (crosses P V h B origin).

(** *** The loop body, case by case *)

Lemma step_crossing_double (lag : Z) (st : State_) :
  crossing_at lag st ->
  let s2 := advance P V h (time_at lag) (drain P B lag (time_at lag) st) in
  let s' := set_y0 (Num (Iaf.currents B lag))
              (set_y1 (Num 0) (set_y2 (Num 0) (set_y3 (U0_ P)
                 (set_r (RefractoryCounts_ V) s2)))) in
  step P V h B origin lag st =
  (s', [set_spiketime (origin + lag + 1); send_spike lag; record_data (origin + lag) s']).
Proof.
  intros Hc. unfold step, threshold. rewrite decide_True by exact Hc. reflexivity.
Qed.

Lemma step_no_crossing_double (lag : Z) (st : State_) :
  ~ crossing_at lag st ->
  let s2 := advance P V h (time_at lag) (drain P B lag (time_at lag) st) in
  let s' := set_y0 (Num (Iaf.currents B lag)) s2 in
  step P V h B origin lag st = (s', [record_data (origin + lag) s']).
Proof.
  intros Hc. unfold step, threshold. rewrite decide_False by exact Hc. reflexivity.
Qed.

Lemma drain_r_double (lag : Z) (t : R) (st : State_) :
  r_ (drain P B lag t st) = r_ st.
Proof. unfold drain. repeat case_decide; reflexivity. Qed.

Lemma advance_refractory_double (t : R) (st : State_) :
  r_ st <> 0%Z -> advance P V h t st = set_r (r_ st - 1) st.
Proof. intros Hr. unfold advance. rewrite decide_False by exact Hr. reflexivity. Qed.

Lemma advance_active_double (t : R) (st : State_) :
  r_ st = 0%Z -> advance P V h t st = lower_bound P (integrate P V h t st).
Proof. intros Hr. unfold advance. rewrite decide_True by exact Hr. reflexivity. Qed.

Lemma refractory_no_crossing_double (lag : Z) (st : State_) :
  r_ st <> 0%Z -> ~ crossing_at lag st.
Proof.
  intros Hr [Hlow Hhigh]. cbv zeta in *.
  rewrite advance_refractory_double in Hhigh by (rewrite drain_r_double; exact Hr).
  cbn [y3_ set_r] in Hhigh. exact (dlt_dge_absurd _ _ Hlow Hhigh).
Qed.

Lemma step_recorded_double (lag : Z) (st : State_) :
  recorded (step P V h B origin lag st).2 = [(step P V h B origin lag st).1].
Proof.
  destruct (decide (crossing_at lag st)) as [Hc|Hc].
  - rewrite (step_crossing_double lag st Hc). reflexivity.
  - rewrite (step_no_crossing_double lag st Hc). reflexivity.
Qed.

Lemma update_loop_invariant_double (Inv : State_ -> Prop) :
  (forall lag st, Inv st -> Inv (step P V h B origin lag st).1) ->
  forall (n : nat) (lag : Z) (st : State_),
    Inv st ->
    Inv (update_loop P V h B origin n lag st).1 /\
    Forall Inv (recorded (update_loop P V h B origin n lag st).2).
Proof.
  intros Hstep. induction n as [|n IH]; intros lag st Hst.
  - cbn. split; [exact Hst | constructor].
  - cbn [update_loop].
    pose proof (Hstep lag st Hst) as H1.
    pose proof (step_recorded_double lag st) as Hrec.
    destruct (step P V h B origin lag st) as [s1 out1]. cbn [fst snd] in *.
    specialize (IH (lag + 1)%Z s1 H1).
    destruct (update_loop P V h B origin n (lag + 1) s1) as [s2 out2].
    cbn [fst snd] in *. destruct IH as [IH1 IH2].
    split; [exact IH1|].
    unfold recorded in *. rewrite omap_app, Hrec.
    constructor; assumption.
Qed.

Lemma update_invariant_double (Inv : State_ -> Prop) :
  (forall lag st, Inv st -> Inv (step P V h B origin lag st).1) ->
  forall (min_delay from to : Z) (st s' : State_) (out : list Action),
    Inv st ->
    update P V h B origin min_delay from to st = Some (s', out) ->
    Inv s' /\ Forall Inv (recorded out).
Proof.
  intros Hstep min_delay from to st s' out Hst Hup.
  unfold update in Hup. repeat case_decide; try discriminate.
  injection Hup as Hup.
  pose proof (update_loop_invariant_double Inv Hstep (Z.to_nat (to - from)) from st Hst)
    as Hinv.
  rewrite Hup in Hinv. exact Hinv.
Qed.

(** *** The lower-bound assignments *)

Lemma clamp_not_below (y L : double_t) :
  ~ ((if decide (y < L)%D then L else y) < L)%D.
Proof. case_decide as H; [apply dlt_irrefl | exact H]. Qed.

Lemma lower_bound_not_below (st : State_) : not_below P (lower_bound P st).
Proof.
  unfold not_below, lower_bound. cbv zeta.
  cbn [y1_ y2_ y3_ set_y1 set_y2 set_y3].
  repeat split; apply clamp_not_below.
Qed.

Lemma not_below_set_y0 (x : double_t) (st : State_) :
  not_below P st -> not_below P (set_y0 x st).
Proof. intros H. exact H. Qed.

Lemma not_below_bounded (st : State_) :
  LowerBound_ P <> NaN -> y1_ st <> NaN -> y2_ st <> NaN -> y3_ st <> NaN ->
  not_below P st -> bounded_below P st.
Proof.
  intros HL H1 H2 H3 (N1 & N2 & N3).
  repeat split; apply not_dlt_dge; assumption.
Qed.

Lemma drain_not_below (lag : Z) (t : R) (st : State_) :
  (LowerBound_ P <= Num 0)%D -> (LowerBound_ P <= V_reset_ P)%D ->
  not_below P st -> not_below P (drain P B lag t st).
Proof.
  intros H0 HV (N1 & N2 & N3).
  pose proof (dle_not_dlt _ _ H0) as Z0.
  pose proof (dle_not_dlt _ _ HV) as ZV.
  assert (Z1 : ~ (Num 1 < LowerBound_ P)%D)
    by (destruct (LowerBound_ P); cbn in *; first [lra | tauto]).
  unfold not_below, drain.
  repeat case_decide; cbn [y1_ y2_ y3_ set_y1 set_y2 set_y3 set_ti set_currents];
    repeat split; assumption.
Qed.

Lemma step_not_below (lag : Z) (st : State_) :
  (LowerBound_ P <= Num 0)%D -> (LowerBound_ P <= U0_ P)%D ->
  (LowerBound_ P <= V_reset_ P)%D ->
  not_below P st -> not_below P (step P V h B origin lag st).1.
Proof.
  intros H0 HU HV Hst.
  destruct (decide (crossing_at lag st)) as [Hc|Hc].
  - rewrite (step_crossing_double lag st Hc). unfold not_below.
    cbn [fst y1_ y2_ y3_ set_y0 set_y1 set_y2 set_y3].
    repeat split; apply dle_not_dlt; assumption.
  - rewrite (step_no_crossing_double lag st Hc). cbn [fst].
    apply not_below_set_y0. unfold advance. case_decide.
    + apply lower_bound_not_below.
    + apply (drain_not_below lag (time_at lag) st H0 HV Hst).
Qed.

(** *** Members after the steps of the loop body *)

Lemma drain_no_typeA (lag : Z) (t : R) (st : State_) :
  ~ Iaf.spikes_ B 0 lag > 0.1 ->
  ti_ (drain P B lag t st) = ti_ st /\ y2_ (drain P B lag t st) = y2_ st /\
  currents_ (drain P B lag t st) = currents_ st.
Proof.
  intros HA. unfold drain. rewrite (decide_False _ _ HA).
  case_decide; repeat split; reflexivity.
Qed.

Lemma drain_y0_double (lag : Z) (t : R) (st : State_) :
  y0_ (drain P B lag t st) = y0_ st.
Proof. unfold drain. repeat case_decide; reflexivity. Qed.

Lemma drain_ti_finite (lag : Z) (t : R) (st : State_) :
  finite (ti_ st) -> finite (ti_ (drain P B lag t st)).
Proof.
  intros Hti. unfold drain.
  repeat case_decide; cbn [ti_ set_y1 set_y3 set_ti]; first [exact Hti | eexists; reflexivity].
Qed.

Lemma drain_currents_zero (lag : Z) (t : R) (st : State_) :
  currents_ st = Num 0 -> currents_ (drain P B lag t st) = Num 0.
Proof.
  intros Hc. unfold drain.
  repeat case_decide; cbn [currents_ set_y1 set_y3 set_ti set_currents];
    first [exact Hc | reflexivity].
Qed.

Lemma integrate_y3_double (t : R) (st : State_) :
  y3_ (integrate P V h t st) =
  (P33_ V * y3_ st + P31_ V * y1_ st * dabs (y2_ st))%D.
Proof. reflexivity. Qed.

Lemma integrate_y2_shape (t : R) (st : State_) :
  exists x : double_t, y2_ (integrate P V h t st) = (y2_ st + x)%D.
Proof. eexists. reflexivity. Qed.

Lemma integrate_frame_double (t : R) (st : State_) :
  y0_ (integrate P V h t st) = y0_ st /\
  ti_ (integrate P V h t st) = ti_ st /\
  r_ (integrate P V h t st) = r_ st.
Proof. repeat split; reflexivity. Qed.

Lemma lower_bound_y3_double (st : State_) :
  y3_ (lower_bound P st) =
  if decide (y3_ st < LowerBound_ P)%D then LowerBound_ P else y3_ st.
Proof. reflexivity. Qed.

Lemma lower_bound_y2_double (st : State_) :
  y2_ (lower_bound P st) =
  if decide (y2_ st < LowerBound_ P)%D then LowerBound_ P else y2_ st.
Proof. reflexivity. Qed.

Lemma lower_bound_y1_double (st : State_) :
  y1_ (lower_bound P st) =
  if decide (y1_ st < LowerBound_ P)%D then LowerBound_ P else y1_ st.
Proof. reflexivity. Qed.

Lemma integrate_y1_double (t : R) (st : State_) :
  y1_ (integrate P V h t st) = (P33_ V * y1_ st)%D.
Proof. reflexivity. Qed.

Lemma lower_bound_frame_double (st : State_) :
  y0_ (lower_bound P st) = y0_ st /\
  currents_ (lower_bound P st) = currents_ st /\
  ti_ (lower_bound P st) = ti_ st /\
  r_ (lower_bound P st) = r_ st.
Proof. repeat split; reflexivity. Qed.

Lemma NaN_not_below (L : double_t) : ~ (NaN < L)%D.
Proof. cbn. tauto. Qed.

(** What the end of the loop body leaves of the state the update
    reached: the input current is new, a crossing resets the traces. *)
Lemma step_frame_double (lag : Z) (st : State_) :
  let s2 := advance P V h (time_at lag) (drain P B lag (time_at lag) st) in
  let s' := (step P V h B origin lag st).1 in
  y0_ s' = Num (Iaf.currents B lag) /\ currents_ s' = currents_ s2 /\
  ti_ s' = ti_ s2 /\
  (~ crossing_at lag st ->
   y1_ s' = y1_ s2 /\ y2_ s' = y2_ s2 /\ y3_ s' = y3_ s2 /\ r_ s' = r_ s2 /\
   sent (step P V h B origin lag st).2 = []).
Proof.
  cbv zeta. destruct (decide (crossing_at lag st)) as [Hc|Hc].
  - rewrite (step_crossing_double lag st Hc). cbn [fst].
    repeat split; first [reflexivity | contradiction].
  - rewrite (step_no_crossing_double lag st Hc). cbn [fst snd].
    repeat split; reflexivity.
Qed.

(** *** The kernel without input current *)

Lemma update_currents_no_input (t : R) (st : State_) :
  finite (ti_ st) -> finite (Ti_ P) -> finite (P21_ V) -> finite (P22_ V) ->
  y0_ st = Num 0 ->
  update_currents_ P V t st = set_currents (Num 0) st.
Proof.
  intros [ti Hti] [T HT] [p21 H21] [p22 H22] H0.
  unfold update_currents_. rewrite H0, Hti, HT, H21, H22.
  rewrite ddiv_Num by lra. cbn [dsub dadd dopp dmul].
  rewrite ddiv_Num by lra. cbn [dexp dmul dadd].
  f_equal. f_equal. ring.
Qed.

Lemma integrate_no_input (t : R) (st : State_) :
  finite (ti_ st) -> finite (Ti_ P) -> finite (P21_ V) -> finite (P22_ V) ->
  y0_ st = Num 0 -> currents_ st = Num 0 ->
  y2_ (integrate P V h t st) = y2_ st /\
  currents_ (integrate P V h t st) = Num 0.
Proof.
  intros Hti HT H21 H22 H0 Hc.
  unfold integrate. cbv zeta.
  set (s2 := set_y1 _ (set_y3 _ st)).
  assert (Hti2 : finite (ti_ s2)) by exact Hti.
  assert (H02 : y0_ s2 = Num 0) by exact H0.
  assert (Hc2 : currents_ s2 = Num 0) by exact Hc.
  rewrite (update_currents_no_input (t + h / 2) s2 Hti2 HT H21 H22 H02).
  set (s3 := set_currents (Num 0) s2).
  assert (Hti3 : finite (ti_ s3)) by exact Hti.
  assert (H03 : y0_ s3 = Num 0) by exact H0.
  rewrite (update_currents_no_input (t + h) s3 Hti3 HT H21 H22 H03).
  rewrite Hc2. subst s3. cbn [currents_ set_currents y2_ set_y2 dadd dmul].
  rewrite ddiv_Num by lra.
  split; [|reflexivity].
  replace ((0 + 4 * 0 + 0) * h / 6) with 0 by lra.
  change (y2_ s2) with (y2_ st). apply dadd_0_r.
Qed.

(** *** The kernel before the first type-A event *)

Lemma times_inf_times_zero (a : double_t) : (a * NegInf * Num 0)%D = NaN.
Proof.
  destruct a as [x| | |]; cbn; try reflexivity;
    unfold inf_of_sign; repeat case_decide; cbn;
    unfold inf_of_sign; repeat case_decide; first [reflexivity | lra].
Qed.

Lemma update_currents_NaN (t : R) (st : State_) :
  ti_ st = NegInf -> finite (Ti_ P) -> finite (P22_ V) -> (P22_ V < Num 0)%D ->
  currents_ (update_currents_ P V t st) = NaN.
Proof.
  intros Hti [T HT] [p22 H22] Hneg. rewrite H22 in Hneg. cbn in Hneg.
  unfold update_currents_. cbv zeta. cbn [currents_ set_currents].
  rewrite Hti, HT, H22.
  rewrite ddiv_Num by lra. cbn [dsub dadd dopp dmul].
  rewrite !(inf_of_sign_neg p22) by exact Hneg.
  cbn [dmul dadd ddiv]. rewrite decide_False by lra. cbn [dexp].
  apply times_inf_times_zero.
Qed.

Lemma integrate_NaN (t : R) (st : State_) :
  ti_ st = NegInf -> finite (Ti_ P) -> finite (P22_ V) -> (P22_ V < Num 0)%D ->
  currents_ (integrate P V h t st) = NaN /\ y2_ (integrate P V h t st) = NaN.
Proof.
  intros Hti HT H22 Hneg.
  unfold integrate. cbv zeta.
  set (s2 := set_y1 _ (set_y3 _ st)).
  assert (Hti2 : ti_ s2 = NegInf) by exact Hti.
  pose proof (update_currents_NaN (t + h / 2) s2 Hti2 HT H22 Hneg) as K3.
  set (s3 := update_currents_ P V (t + h / 2) s2) in *.
  assert (Hti3 : ti_ s3 = NegInf) by exact Hti.
  pose proof (update_currents_NaN (t + h) s3 Hti3 HT H22 Hneg) as K4.
  set (s4 := update_currents_ P V (t + h) s3) in *.
  cbn [currents_ y2_ set_y2]. rewrite K3, K4.
  split; [reflexivity|].
  rewrite dmul_NaN_r, !dadd_NaN_r. cbn [dmul ddiv].
  rewrite ?dadd_NaN_r. reflexivity.
Qed.

Lemma integrate_y3_NaN (t : R) (st : State_) :
  y2_ st = NaN -> y3_ (integrate P V h t st) = NaN.
Proof.
  intros H2. rewrite integrate_y3_double, H2. cbn [dabs].
  rewrite dmul_NaN_r. apply dadd_NaN_r.
Qed.

Lemma integrate_y2_NaN (t : R) (st : State_) :
  y2_ st = NaN -> y2_ (integrate P V h t st) = NaN.
Proof.
  intros H2. destruct (integrate_y2_shape t st) as [x ->]. rewrite H2. reflexivity.
Qed.

(** *** Steps without a type-B event *)

Lemma drain_no_typeB (lag : Z) (t : R) (st : State_) :
  ~ Iaf.spikes_ B 1 lag > 0.1 ->
  y3_ (drain P B lag t st) = y3_ st /\
  (y1_ (drain P B lag t st) = y1_ st \/ y1_ (drain P B lag t st) = Num 0).
Proof.
  intros HB. unfold drain. rewrite (decide_False _ _ HB).
  case_decide; cbn; auto.
Qed.

Lemma step_typeB_free_double (theta p33 p31 : R) (lag : Z) (st : State_) :
  Theta_ P = Num theta -> P33_ V = Num p33 -> P31_ V = Num p31 ->
  theta <= 0 -> 0 <= p33 <= 1 -> 0 <= p31 ->
  ~ Iaf.spikes_ B 1 lag > 0.1 ->
  ~ (y3_ st < Theta_ P)%D /\ ~ (y1_ st < Num 0)%D ->
  (~ (y3_ (step P V h B origin lag st).1 < Theta_ P)%D /\
   ~ (y1_ (step P V h B origin lag st).1 < Num 0)%D) /\
  sent (step P V h B origin lag st).2 = [].
Proof.
  intros HT H33 H31 Ht Hp33 Hp31 HB [H3 H1].
  destruct (step_frame_double lag st) as (_ & _ & _ & Fn). cbv zeta in *.
  set (d := drain P B lag (time_at lag) st) in *.
  destruct (drain_no_typeB lag (time_at lag) st HB) as [D3 D1]. fold d in D3, D1.
  assert (Hd3 : ~ (y3_ d < Theta_ P)%D) by (rewrite D3; exact H3).
  assert (Hd1 : ~ (y1_ d < Num 0)%D)
    by (destruct D1 as [-> | ->]; [exact H1 | cbn; lra]).
  assert (Hc : ~ crossing_at lag st) by (intros [Hlow _]; exact (Hd3 Hlow)).
  destruct (Fn Hc) as (-> & _ & -> & _ & Fs).
  split; [|exact Fs].
  unfold advance. case_decide.
  - rewrite lower_bound_y3_double, lower_bound_y1_double.
    rewrite integrate_y3_double, integrate_y1_double.
    rewrite HT, H33, H31 in *.
    split; apply clamp_keeps_not_below.
    + apply dadd_not_below; [apply dmul_decay_not_below; assumption|].
      apply dmul_not_below_0; [|apply dabs_not_below_0].
      apply dmul_not_below_0; [cbn; lra | exact Hd1].
    + apply (dmul_decay_not_below p33 0 (y1_ d)); [assumption | lra | exact Hd1].
  - split; assumption.
Qed.

Lemma update_loop_typeB_free_double (theta p33 p31 : R) :
  Theta_ P = Num theta -> P33_ V = Num p33 -> P31_ V = Num p31 ->
  theta <= 0 -> 0 <= p33 <= 1 -> 0 <= p31 ->
  IafNode.no_typeB B ->
  forall (n : nat) (lag : Z) (st : State_),
    ~ (y3_ st < Theta_ P)%D /\ ~ (y1_ st < Num 0)%D ->
    sent (update_loop P V h B origin n lag st).2 = [].
Proof.
  intros HT H33 H31 Ht Hp33 Hp31 HB.
  induction n as [|n IH]; intros lag st Hst; [reflexivity|].
  cbn [update_loop].
  destruct (step_typeB_free_double theta p33 p31 lag st HT H33 H31 Ht Hp33 Hp31
              (HB lag) Hst) as [Hst1 Hs1].
  destruct (step P V h B origin lag st) as [s1 out1]. cbn [fst snd] in *.
  specialize (IH (lag + 1)%Z s1 Hst1).
  destruct (update_loop P V h B origin n (lag + 1) s1) as [s2 out2].
  cbn [fst snd] in *.
  unfold sent in *. rewrite omap_app, Hs1, IH. reflexivity.
Qed.

End Update_double.

Section Node_double.
Import Double IafDouble.

Variable h : R.
Variable B : Iaf.Buffers_.
Variable origin : Z.

Local Abbreviation time_at lag := (step_to_ms h (origin + lag + 1)).

Lemma sent_of_Action (out : list Iaf.Action) :
  sent (map of_Action out) = IafSpec.sent out.
Proof.
  unfold sent, IafSpec.sent.
  induction out as [|a out IH]; [reflexivity|].
  destruct a; cbn; rewrite ?IH; reflexivity.
Qed.

Lemma recorded_of_Action (out : list Iaf.Action) :
  recorded (map of_Action out) = map of_State (IafSpec.recorded out).
Proof.
  unfold recorded, IafSpec.recorded.
  induction out as [|a out IH]; [reflexivity|].
  destruct a; cbn; rewrite ?IH; reflexivity.
Qed.

(** *** The lower bound *)

Lemma step_bounded_finite (P : Parameters_) (V : Variables_) (lag : Z) (st : State_) :
  finite_parameters P -> finite_variables V ->
  (LowerBound_ P <= Num 0)%D -> (LowerBound_ P <= U0_ P)%D ->
  (LowerBound_ P <= V_reset_ P)%D ->
  finite_state st /\ bounded_below P st ->
  finite_state (step P V h B origin lag st).1 /\
  bounded_below P (step P V h B origin lag st).1.
Proof.
  intros [p HP] [v ->] H0 HU HVr [[s0 ->] Hb].
  destruct HP as [-> | ->].
  - rewrite step_of_State. unfold of_result. cbn [fst].
    split; [eexists; reflexivity|].
    exact (step_bounded_invariant p v h B origin lag s0 H0 HU HVr Hb).
  - rewrite (step_unbounded_low p v h B origin lag s0 0 (low p v h B origin 0 lag s0))
      by lra.
    unfold of_result. cbn [fst]. split; [eexists; reflexivity|].
    unfold bounded_below.
    cbn [LowerBound_ set_LowerBound y1_ y2_ y3_ of_State dge]. tauto.
Qed.

(** C2 (amended).  A step that starts with [r = 0] and detects no
    crossing ends with none of [y1], [y2], [y3] below [LowerBound]:
    each is at or above it unless it is NaN (the three assignments let
    a NaN through) or [LowerBound] is.  A step that detects a crossing
    ends with them at [0], [0] and [U0], at or above [LowerBound] when
    [LowerBound <= 0] and [LowerBound <= U0].  A refractory step leaves
    them as the events drained left them.  With [LowerBound <= 0],
    [LowerBound <= U0] and [LowerBound <= V_reset], every step of a
    block that starts with none of the three below [LowerBound] ends,
    and is logged, with none of them below it, whatever the doubles
    are; and when the parameters and the state are numbers
    ([LowerBound] a number or [-infinity]), every step that starts with
    the three at or above [LowerBound] ends, and is logged, in a state
    of numbers with the three at or above it. *)
Theorem lower_bound_holds (P : Parameters_) (V : Variables_) (lag : Z) (st : State_) :
  let d := drain P B lag (time_at lag) st in
  let s' := (step P V h B origin lag st).1 in
  (r_ st = 0%Z -> ~ crosses P V h B origin lag st ->
   not_below P s' /\
   (LowerBound_ P <> NaN ->
    (y1_ s' <> NaN -> (y1_ s' >= LowerBound_ P)%D) /\
    (y2_ s' <> NaN -> (y2_ s' >= LowerBound_ P)%D) /\
    (y3_ s' <> NaN -> (y3_ s' >= LowerBound_ P)%D))) /\
  (crosses P V h B origin lag st ->
   (LowerBound_ P <= Num 0)%D -> (LowerBound_ P <= U0_ P)%D ->
   bounded_below P s') /\
  (r_ st <> 0%Z -> y1_ s' = y1_ d /\ y2_ s' = y2_ d /\ y3_ s' = y3_ d) /\
  ((LowerBound_ P <= Num 0)%D -> (LowerBound_ P <= U0_ P)%D ->
   (LowerBound_ P <= V_reset_ P)%D ->
   forall (min_delay from to : Z) (s'' : State_) (out : list Action),
     update P V h B origin min_delay from to st = Some (s'', out) ->
     (not_below P st ->
      not_below P s'' /\ Forall (not_below P) (recorded out)) /\
     (finite_parameters P -> finite_variables V ->
      finite_state st -> bounded_below P st ->
      (finite_state s'' /\ bounded_below P s'') /\
      Forall (fun s => finite_state s /\ bounded_below P s) (recorded out))).
Proof.
  cbv zeta. split; [|split; [|split]].
  - intros Hr Hc. rewrite (step_no_crossing_double P V h B origin lag st Hc).
    cbn [fst]. rewrite advance_active_double by (rewrite drain_r_double; exact Hr).
    pose proof (not_below_set_y0 P (Num (Iaf.currents B lag)) _
                  (lower_bound_not_below P
                     (integrate P V h (time_at lag) (drain P B lag (time_at lag) st))))
      as Hn.
    split; [exact Hn|].
    destruct Hn as (N1 & N2 & N3).
    intros HL. repeat split; intros Hy; apply not_dlt_dge; assumption.
  - intros Hc H0 HU. rewrite (step_crossing_double P V h B origin lag st Hc).
    unfold bounded_below. cbn [fst y1_ y2_ y3_ set_y0 set_y1 set_y2 set_y3].
    repeat split; apply dle_dge; assumption.
  - intros Hr.
    rewrite (step_no_crossing_double P V h B origin lag st
               (refractory_no_crossing_double P V h B origin lag st Hr)).
    cbn [fst].
    rewrite advance_refractory_double by (rewrite drain_r_double; exact Hr).
    repeat split; reflexivity.
  - intros H0 HU HVr min_delay from to s'' out Hup. split.
    + intros Hn.
      refine (update_invariant_double P V h B origin (not_below P) _
                min_delay from to st s'' out Hn Hup).
      intros lag' st' Hst'. apply step_not_below; assumption.
    + intros HP HV Hfin Hb.
      refine (update_invariant_double P V h B origin
                (fun s => finite_state s /\ bounded_below P s) _
                min_delay from to st s'' out (conj Hfin Hb) Hup).
      intros lag' st' Hst'. apply step_bounded_finite; assumption.
Qed.

(** *** A threshold above the resting and the reset level *)

Lemma step_below_Theta (P : Parameters_) (V : Variables_) (lag : Z) (st : State_) :
  finite_parameters P -> finite_variables V ->
  (U0_ P < Theta_ P)%D -> (V_reset_ P < Theta_ P)%D ->
  finite_state st /\ (y3_ st < Theta_ P)%D ->
  finite_state (step P V h B origin lag st).1 /\
  (y3_ (step P V h B origin lag st).1 < Theta_ P)%D.
Proof.
  intros [p HP] [v ->] HU HVr [[s0 ->] H3].
  destruct HP as [-> | ->].
  - rewrite step_of_State. unfold of_result. cbn [fst].
    split; [eexists; reflexivity|].
    exact (step_y3_below p v h B origin lag s0 HU HVr H3).
  - rewrite (step_unbounded_low p v h B origin lag s0 0 (low p v h B origin 0 lag s0))
      by lra.
    unfold of_result. cbn [fst]. split; [eexists; reflexivity|].
    exact (step_y3_below (Iaf.set_LowerBound _ p) v h B origin lag s0 HU HVr H3).
Qed.

(** X29.  Where the threshold lies above the resting and the reset
    level, the reset keeps the potential below it.  With parameters,
    internal variables and a state that are numbers (the lower bound may
    be [-infinity]; [ti_] is a number), [U0 < Theta] and
    [V_reset < Theta], every step of an update block that starts from
    [y3 < Theta] ends, and is logged, in a state of numbers with
    [y3 < Theta], whatever events and currents arrive. *)
Theorem reset_keeps_below_Theta (P : Parameters_) (V : Variables_) (st : State_) :
  finite_parameters P -> finite_variables V -> finite_state st ->
  (U0_ P < Theta_ P)%D -> (V_reset_ P < Theta_ P)%D -> (y3_ st < Theta_ P)%D ->
  forall (min_delay from to : Z) (s' : State_) (out : list Action),
    update P V h B origin min_delay from to st = Some (s', out) ->
    (finite_state s' /\ (y3_ s' < Theta_ P)%D) /\
    Forall (fun s => finite_state s /\ (y3_ s < Theta_ P)%D) (recorded out).
Proof.
  intros HP HV Hfin HU HVr H3 min_delay from to s' out Hup.
  refine (update_invariant_double P V h B origin
            (fun s => finite_state s /\ (y3_ s < Theta_ P)%D) _
            min_delay from to st s' out (conj Hfin H3) Hup).
  intros lag st' Hst'. apply step_below_Theta; assumption.
Qed.

(** *** Without type-B events *)

(** X24.  Spikes need type-B events when the threshold is not above the
    resting level.  With [Theta] a number not above [0] and internal
    variables that are numbers with [P33] in [[0, 1]] and [P31 >= 0], a
    node whose [y3] is not below [Theta] and whose [y1] is not below
    [0] sends no spike in any number of steps without a type-B event,
    whatever type-A events and currents arrive and whatever its other
    members are, NaN and the [ti_ = -infinity] of the constructor
    included.  Where the parameters and the state are numbers as well
    (the lower bound may be [-infinity]), the run ends in a state of
    numbers with [y3 >= Theta]. *)
Theorem no_spike_without_typeB (P : Parameters_) (V : Variables_)
        (n : nat) (lag : Z) (st : State_) :
  finite (Theta_ P) -> (Theta_ P <= Num 0)%D ->
  finite_variables V ->
  (Num 0 <= P33_ V)%D -> (P33_ V <= Num 1)%D -> (Num 0 <= P31_ V)%D ->
  IafNode.no_typeB B ->
  ~ (y3_ st < Theta_ P)%D -> ~ (y1_ st < Num 0)%D ->
  sent (update_loop P V h B origin n lag st).2 = [] /\
  (finite_parameters P -> finite_state st ->
   (y3_ (update_loop P V h B origin n lag st).1 >= Theta_ P)%D /\
   finite_state (update_loop P V h B origin n lag st).1).
Proof.
  intros [theta HT] HT0 [v ->] H33a H33b H31 HB H3 H1. split.
  - rewrite HT in HT0.
    apply (update_loop_typeB_free_double P (of_Variables v) h B origin
             theta (Iaf.P33_ v) (Iaf.P31_ v) HT eq_refl eq_refl HT0
             (conj H33a H33b) H31 HB n lag st (conj H3 H1)).
  - intros [p HP] [s ->].
    assert (H3' : Iaf.y3_ s >= Iaf.Theta_ p)
      by (apply Rnot_lt_ge; destruct HP as [-> | ->]; exact H3).
    assert (H1' : Iaf.y1_ s >= 0) by (apply Rnot_lt_ge; exact H1).
    destruct HP as [-> | ->].
    + rewrite update_loop_of_State. unfold of_result. cbn [fst].
      destruct (typeB_free_run p v h B origin n lag s (conj H33a H33b) H31 HT0 HB H3' H1')
        as [_ Hy].
      split; [exact Hy | eexists; reflexivity].
    + destruct (update_loop_unbounded p v h B origin n lag s 0) as (L & _ & HL).
      rewrite (HL L) by lra. unfold of_result. cbn [fst].
      destruct (typeB_free_run (Iaf.set_LowerBound L p) v h B origin n lag s
                  (conj H33a H33b) H31 HT0 HB H3' H1') as [_ Hy].
      split; [exact Hy | eexists; reflexivity].
Qed.

(** *** Without input current *)

Lemma step_no_input (P : Parameters_) (V : Variables_) (lag : Z) (st : State_) :
  finite (Ti_ P) -> finite (P21_ V) -> finite (P22_ V) ->
  Iaf.currents B lag = 0 ->
  y0_ st = Num 0 /\ currents_ st = Num 0 /\ finite (ti_ st) ->
  y0_ (step P V h B origin lag st).1 = Num 0 /\
  currents_ (step P V h B origin lag st).1 = Num 0 /\
  finite (ti_ (step P V h B origin lag st).1).
Proof.
  intros HT H21 H22 HB (H0 & Hc & Hti).
  destruct (step_frame_double P V h B origin lag st) as (F0 & Fc & Ft & _).
  cbv zeta in *. rewrite F0, Fc, Ft, HB. split; [reflexivity|].
  set (d := drain P B lag (time_at lag) st).
  assert (D0 : y0_ d = Num 0) by (unfold d; rewrite drain_y0_double; exact H0).
  assert (Dc : currents_ d = Num 0) by (apply drain_currents_zero; exact Hc).
  assert (Dt : finite (ti_ d)) by (apply drain_ti_finite; exact Hti).
  unfold advance. case_decide.
  - destruct (lower_bound_frame_double P (integrate P V h (time_at lag) d))
      as (_ & -> & -> & _).
    destruct (integrate_no_input P V h (time_at lag) d Dt HT H21 H22 D0 Dc) as [_ ->].
    destruct (integrate_frame_double P V h (time_at lag) d) as (_ & -> & _).
    split; [reflexivity | exact Dt].
  - split; [exact Dc | exact Dt].
Qed.

(** X25.  Without input current the kernel contributes nothing, once a
    type-A event has set [ti_]: when [y0 = 0], [currents = 0] and [ti_],
    [Ti], [P21] and [P22] are numbers, the integration leaves [y2] as it
    is, whatever it is; and with an empty current buffer every step of
    an update block that starts from such a state ends, and is logged,
    with [y0 = 0], [currents = 0] and a [ti_] that is a number. *)
Theorem no_input_no_kernel (P : Parameters_) (V : Variables_) (st : State_) :
  finite (ti_ st) -> finite (Ti_ P) -> finite (P21_ V) -> finite (P22_ V) ->
  y0_ st = Num 0 -> currents_ st = Num 0 ->
  (forall t, y2_ (integrate P V h t st) = y2_ st) /\
  ((forall k, Iaf.currents B k = 0) ->
   forall (min_delay from to : Z) (s' : State_) (out : list Action),
     update P V h B origin min_delay from to st = Some (s', out) ->
     (y0_ s' = Num 0 /\ currents_ s' = Num 0 /\ finite (ti_ s')) /\
     Forall (fun s => y0_ s = Num 0 /\ currents_ s = Num 0 /\ finite (ti_ s))
            (recorded out)).
Proof.
  intros Hti HT H21 H22 H0 Hc. split.
  - intros t. apply (integrate_no_input P V h t st); assumption.
  - intros HB min_delay from to s' out Hup.
    refine (update_invariant_double P V h B origin
              (fun s => y0_ s = Num 0 /\ currents_ s = Num 0 /\ finite (ti_ s)) _
              min_delay from to st s' out (conj H0 (conj Hc Hti)) Hup).
    intros lag st' Hst'. apply step_no_input; [assumption .. | apply HB | exact Hst'].
Qed.

(** *** The leak towards the threshold *)

Lemma leaking_of_State (p : Iaf.Parameters_) (P : Parameters_) (s : Iaf.State_) (L : R) :
  P = of_Parameters p \/ P = set_LowerBound NegInf (of_Parameters p) ->
  (P = of_Parameters p -> L = Iaf.LowerBound_ p) ->
  L <= Iaf.y3_ s -> L <= 0 ->
  leaking P (of_State s) -> IafNode.leaking (Iaf.set_LowerBound L p) s.
Proof.
  intros HP HL L3 L0 (Hr & H0 & Hc & H2 & HLB & H3 & H1 & HL0).
  cbn [of_State r_ y0_ y1_ y2_ y3_ currents_] in *.
  injection H0 as H0. injection Hc as Hc. injection H2 as H2.
  unfold IafNode.leaking.
  cbn [Iaf.LowerBound_ Iaf.set_LowerBound].
  cbn [dle] in H3, H1.
  repeat split; assumption.
Qed.

(** X26.  After a reset the potential leaks back geometrically until it
    meets the threshold.  With parameters and a state that are numbers
    (the lower bound may be [-infinity]; [ti_] is a number), internal
    variables that are numbers and [P33] in [[0, 1]]: from a
    non-refractory state without input ([y0 = currents = y2 = 0],
    [LowerBound <= y3 <= 0], [y1 >= 0]), [n] steps without events nor
    current end with [y3] and [y1] multiplied by [P33^n] and send
    nothing as long as [P33^n * y3 < Theta]; if the next step brings
    [P33^(n+1) * y3] to [Theta] or above, that step sends the one
    spike, resets [y3] to [U0] and arms [r = RefractoryCounts]. *)
Theorem leak_until_threshold (P : Parameters_) (v : Iaf.Variables_)
        (n : nat) (lag : Z) (st : State_) :
  finite_parameters P -> finite_state st ->
  0 <= Iaf.P33_ v <= 1 ->
  leaking P st -> IafNode.silent B lag (S n) ->
  (Num (Iaf.P33_ v ^ n) * y3_ st < Theta_ P)%D ->
  let V := of_Variables v in
  let s' := (update_loop P V h B origin n lag st).1 in
  (y3_ s' = (Num (Iaf.P33_ v ^ n) * y3_ st)%D /\
   y1_ s' = (Num (Iaf.P33_ v ^ n) * y1_ st)%D /\
   sent (update_loop P V h B origin n lag st).2 = [] /\
   finite_state s') /\
  ((Theta_ P <= Num (Iaf.P33_ v ^ S n) * y3_ st)%D ->
   sent (step P V h B origin (lag + Z.of_nat n) s').2 = [(lag + Z.of_nat n)%Z] /\
   y3_ (step P V h B origin (lag + Z.of_nat n) s').1 = U0_ P /\
   r_ (step P V h B origin (lag + Z.of_nat n) s').1 = RefractoryCounts_ (of_Variables v)).
Proof.
  intros [p HP] [s ->] H33 Hleak Hsil Hlow. cbv zeta.
  set (lag' := (lag + Z.of_nat n)%Z).
  (* a bound [L] for which the run and the next step are those on numbers *)
  assert (HL : exists L : R,
             (P = of_Parameters p -> L = Iaf.LowerBound_ p) /\
             L <= Iaf.y3_ s /\ L <= 0 /\
             update_loop P (of_Variables v) h B origin n lag (of_State s) =
               of_result (Iaf.update_loop (Iaf.set_LowerBound L p) v h B origin n lag s) /\
             forall s1 : Iaf.State_,
               s1 = (Iaf.update_loop (Iaf.set_LowerBound L p) v h B origin n lag s).1 ->
               step P (of_Variables v) h B origin lag' (of_State s1) =
               of_result (Iaf.step (Iaf.set_LowerBound L p) v h B origin lag' s1)).
  { destruct Hleak as (_ & _ & _ & _ & HLB & H3 & _ & HL0).
    destruct HP as [-> | ->].
    - exists (Iaf.LowerBound_ p).
      replace (Iaf.set_LowerBound (Iaf.LowerBound_ p) p) with p by (destruct p; reflexivity).
      split; [reflexivity|]. split; [exact HLB|]. split; [exact HL0|].
      split; [apply update_loop_of_State | intros s1 _; apply step_of_State].
    - cbn [of_State y3_ dle] in H3.
      destruct (update_loop_unbounded p v h B origin n lag s (Rmin (Iaf.y3_ s) 0))
        as (L1 & HL1 & Hrun).
      pose proof (Rmin_l (Iaf.y3_ s) 0) as Hm1. pose proof (Rmin_r (Iaf.y3_ s) 0) as Hm2.
      set (s1 := (Iaf.update_loop (Iaf.set_LowerBound L1 p) v h B origin n lag s).1).
      set (L2 := low p v h B origin L1 lag' s1).
      destruct (low_le p v h B origin L1 lag' s1) as (HL2 & _). fold L2 in HL2.
      exists L2. split; [intros E; discriminate E|].
      split; [lra|]. split; [lra|].
      assert (E2 : update_loop (set_LowerBound NegInf (of_Parameters p)) (of_Variables v)
                     h B origin n lag (of_State s) =
                   of_result (Iaf.update_loop (Iaf.set_LowerBound L2 p) v h B origin n lag s))
        by (apply Hrun; exact HL2).
      split; [exact E2|].
      intros s1' ->.
      assert (Es : (Iaf.update_loop (Iaf.set_LowerBound L2 p) v h B origin n lag s).1 = s1).
      { apply of_result_inj. rewrite <- E2. apply Hrun. lra. }
      rewrite Es. apply (step_unbounded_low p v h B origin lag' s1 L1 L2).
      unfold L2. lra. }
  destruct HL as (L & HLP & L3 & L0 & Erun & Estep).
  pose proof (leaking_of_State p P s L HP HLP L3 L0 Hleak) as Hleak'.
  assert (Hlow' : Iaf.P33_ v ^ n * Iaf.y3_ s < Iaf.Theta_ (Iaf.set_LowerBound L p))
    by (destruct HP as [-> | ->]; exact Hlow).
  destruct (leak_then_cross (Iaf.set_LowerBound L p) v h B origin n lag s
              H33 Hleak' Hsil Hlow') as ((R3 & R1 & Rs) & Rnext).
  cbv zeta in *.
  rewrite Erun. unfold of_result at 1 2 3 4. cbn [fst snd].
  rewrite sent_of_Action.
  split.
  - cbn [of_State y3_ y1_ dmul]. rewrite R3, R1.
    repeat split; first [reflexivity | exact Rs | eexists; reflexivity].
  - intros Hhigh.
    unfold of_result at 1 2 3. cbn [fst].
    rewrite (Estep _ eq_refl). unfold of_result. cbn [fst snd].
    rewrite sent_of_Action.
    assert (Hhigh' : Iaf.Theta_ (Iaf.set_LowerBound L p) <= Iaf.P33_ v ^ S n * Iaf.y3_ s)
      by (destruct HP as [-> | ->]; exact Hhigh).
    destruct (Rnext Hhigh') as (Ns & N3 & Nr).
    split; [exact Ns|]. split.
    + cbn [of_State y3_].
      destruct HP as [-> | ->]; cbn [U0_ of_Parameters set_LowerBound];
        f_equal; exact N3.
    + cbn [of_State r_]. exact Nr.
Qed.

(** *** Before the first type-A event *)

(** X27.  The state of the constructor has [ti_ = -infinity], and there
    the kernel is NaN: with [Ti] a number and [P22] a negative number,
    [update_currents_] leaves [currents_ = NaN] whatever [y0] is, also
    for [y0 = 0]; and a non-refractory step that drains no type-A event
    ends with [currents_ = NaN] and [ti_ = -infinity], and with
    [y2 = NaN] unless a crossing resets it. *)
Theorem kernel_NaN_before_typeA (P : Parameters_) (V : Variables_)
        (lag : Z) (st : State_) :
  ti_ st = NegInf -> finite (Ti_ P) -> finite (P22_ V) -> (P22_ V < Num 0)%D ->
  (forall t, currents_ (update_currents_ P V t st) = NaN) /\
  (r_ st = 0%Z -> ~ Iaf.spikes_ B 0 lag > 0.1 ->
   let s' := (step P V h B origin lag st).1 in
   currents_ s' = NaN /\ ti_ s' = NegInf /\
   (~ crosses P V h B origin lag st -> y2_ s' = NaN)).
Proof.
  intros Hti HT H22 Hneg. split.
  - intros t. apply update_currents_NaN; assumption.
  - intros Hr HA. cbv zeta.
    destruct (step_frame_double P V h B origin lag st) as (_ & Fc & Ft & Fn).
    cbv zeta in *. rewrite Fc, Ft.
    set (d := drain P B lag (time_at lag) st) in *.
    destruct (drain_no_typeA P B lag (time_at lag) st HA) as (Dt & _ & _).
    fold d in Dt. rewrite Hti in Dt.
    rewrite advance_active_double in * by (unfold d; rewrite drain_r_double; exact Hr).
    destruct (lower_bound_frame_double P (integrate P V h (time_at lag) d))
      as (_ & Lc & Lt & _).
    destruct (integrate_NaN P V h (time_at lag) d Dt HT H22 Hneg) as [Ic I2].
    destruct (integrate_frame_double P V h (time_at lag) d) as (_ & It & _).
    rewrite Lc, Lt, Ic, It.
    split; [reflexivity|]. split; [exact Dt|].
    intros Hc. destruct (Fn Hc) as (_ & -> & _).
    rewrite lower_bound_y2_double, I2.
    rewrite decide_False by apply NaN_not_below. reflexivity.
Qed.

Lemma step_before_typeA (P : Parameters_) (V : Variables_) (lag : Z) (st : State_) :
  ~ Iaf.spikes_ B 0 lag > 0.1 ->
  ti_ st = NegInf /\ y2_ st = NaN /\ r_ st = 0%Z ->
  let s' := (step P V h B origin lag st).1 in
  (ti_ s' = NegInf /\ y2_ s' = NaN /\ r_ s' = 0%Z) /\
  y3_ s' = NaN /\ sent (step P V h B origin lag st).2 = [].
Proof.
  intros HA (Hti & H2 & Hr). cbv zeta.
  destruct (step_frame_double P V h B origin lag st) as (_ & _ & Ft & Fn).
  cbv zeta in *.
  set (d := drain P B lag (time_at lag) st) in *.
  destruct (drain_no_typeA P B lag (time_at lag) st HA) as (Dt & D2 & _).
  fold d in Dt, D2. rewrite Hti in Dt. rewrite H2 in D2.
  assert (Dr : r_ d = 0%Z) by (unfold d; rewrite drain_r_double; exact Hr).
  assert (A3 : y3_ (advance P V h (time_at lag) d) = NaN).
  { rewrite advance_active_double by exact Dr.
    rewrite lower_bound_y3_double, integrate_y3_NaN by exact D2.
    rewrite decide_False by apply NaN_not_below. reflexivity. }
  assert (Hc : ~ crosses P V h B origin lag st).
  { intros [_ Hhigh]. cbv zeta in Hhigh. fold d in Hhigh. rewrite A3 in Hhigh.
    exact Hhigh. }
  destruct (Fn Hc) as (_ & F2 & F3 & Fr & Fs).
  rewrite Ft, F2, F3, Fr, A3.
  rewrite advance_active_double by exact Dr.
  destruct (lower_bound_frame_double P (integrate P V h (time_at lag) d))
    as (_ & _ & -> & ->).
  destruct (integrate_frame_double P V h (time_at lag) d) as (_ & -> & ->).
  rewrite lower_bound_y2_double, integrate_y2_NaN by exact D2.
  rewrite decide_False by apply NaN_not_below.
  repeat split; first [reflexivity | assumption].
Qed.

(** X28.  A node that has not received a type-A event is silent once
    [y2] is NaN: from a non-refractory state with [ti_ = -infinity] and
    [y2 = NaN], any number of steps without a type-A event send no
    spike, whatever type-B events and currents arrive and whatever the
    parameters are, and end non-refractory with [ti_ = -infinity] and
    [y2 = NaN]; after the first of them [y3] is NaN. *)
Theorem silent_before_typeA (P : Parameters_) (V : Variables_)
        (n : nat) (lag : Z) (st : State_) :
  ti_ st = NegInf -> y2_ st = NaN -> r_ st = 0%Z ->
  no_typeA B lag n ->
  let r := update_loop P V h B origin n lag st in
  sent r.2 = [] /\
  ti_ r.1 = NegInf /\ y2_ r.1 = NaN /\ r_ r.1 = 0%Z /\
  ((0 < n)%nat -> y3_ r.1 = NaN).
Proof.
  revert lag st. induction n as [|n IH]; intros lag st Hti H2 Hr HA.
  - cbn. repeat split; first [assumption | lia].
  - cbv zeta. cbn [update_loop].
    assert (HA0 : ~ Iaf.spikes_ B 0 lag > 0.1) by (apply HA; lia).
    destruct (step_before_typeA P V lag st HA0 (conj Hti (conj H2 Hr)))
      as ((St & S2 & Sr) & S3 & Ss).
    cbv zeta in *.
    destruct (step P V h B origin lag st) as [s1 out1]. cbn [fst snd] in *.
    assert (HA' : no_typeA B (lag + 1) n) by (intros k Hk; apply HA; lia).
    specialize (IH (lag + 1)%Z s1 St S2 Sr HA'). cbv zeta in IH.
    destruct (update_loop P V h B origin n (lag + 1) s1) as [s2 out2] eqn:Hloop.
    cbn [fst snd] in *.
    destruct IH as (Is & It & I2 & Ir & I3).
    split.
    { unfold sent in *. rewrite omap_app, Ss, Is. reflexivity. }
    repeat (split; [assumption|]).
    intros _. destruct n as [|n'].
    + cbn in Hloop. injection Hloop as <- _. exact S3.
    + apply I3. lia.
Qed.

End Node_double.

(* ================================================================== *)
(** * Instances on doubles                                             *)
(* ================================================================== *)

Section Double_instances.
Import Double.

(** *** The connection *)






End Double_instances.

Section Node_instances.
Import Double IafDouble ScenarioDouble.

(** *** The node as constructed *)

(** [P_new] holds the values of the constructor. *)
Lemma P_new_members :
  Tau_ P_new = Tau_ new_Parameters_ /\ C_ P_new = C_ new_Parameters_ /\
  TauR_ P_new = TauR_ new_Parameters_ /\ U0_ P_new = U0_ new_Parameters_ /\
  I_e_ P_new = I_e_ new_Parameters_ /\ V_reset_ P_new = V_reset_ new_Parameters_ /\
  Theta_ P_new = Theta_ new_Parameters_ /\
  LowerBound_ P_new = LowerBound_ new_Parameters_ /\
  Sigma_ P_new = Sigma_ new_Parameters_ /\ Ti_ P_new = Ti_ new_Parameters_ /\
  num_of_receptors_ P_new = num_of_receptors_ new_Parameters_.
Proof. repeat split; reflexivity. Qed.

Lemma P_new_parameters : finite_parameters P_new.
Proof. exists Scenario.P0. right. reflexivity. Qed.

Lemma V_new_variables : finite_variables V_new.
Proof. exists Scenario.V0. reflexivity. Qed.

Lemma st_anchored_finite : finite_state st_anchored.
Proof. exists Scenario.st_rest. reflexivity. Qed.

Lemma V_new_P22 : finite (P22_ V_new) /\ (P22_ V_new < Num 0)%D.
Proof.
  split; [eexists; reflexivity|].
  change (Iaf.P22_ Scenario.V0 < 0). rewrite V0_P22. lra.
Qed.

Lemma drain_empty_double (P : Parameters_) (lag : Z) (t : R) (st : State_) :
  drain P Scenario.B_empty lag t st = st.
Proof.
  unfold drain. cbn [Iaf.spikes_ Scenario.B_empty].
  rewrite !decide_False by lra. reflexivity.
Qed.

Lemma update_block_double (P : Parameters_) (V : Variables_) (B : Iaf.Buffers_)
      (st : State_) :
  update P V Scenario.h0 B 0 2 0 2 st =
  Some ((update_loop P V Scenario.h0 B 0 2 0 st).1,
        (update_loop P V Scenario.h0 B 0 2 0 st).2).
Proof.
  unfold update. rewrite !decide_True by lia.
  change (Z.to_nat (2 - 0)) with 2%nat.
  destruct (update_loop P V Scenario.h0 B 0 2 0 st); reflexivity.
Qed.

Lemma fresh_no_crossing :
  ~ crosses P_new V_new Scenario.h0 Scenario.B_empty 0 0 new_State_.
Proof.
  intros [Hlow _]. cbv zeta in Hlow. rewrite drain_empty_double in Hlow.
  cbn in Hlow. lra.
Qed.

(** The first step of the node as constructed, without events. *)
Lemma fresh_first_step :
  let s1 := (step P_new V_new Scenario.h0 Scenario.B_empty 0 0 new_State_).1 in
  y3_ s1 = Num 0 /\ y2_ s1 = NaN /\ ti_ s1 = NegInf /\ r_ s1 = 0%Z.
Proof.
  cbv zeta.
  destruct (step_frame_double P_new V_new Scenario.h0 Scenario.B_empty 0 0 new_State_)
    as (_ & _ & Ft & Fn).
  cbv zeta in *. destruct (Fn fresh_no_crossing) as (_ & F2 & F3 & Fr & _).
  rewrite Ft, F2, F3, Fr. rewrite drain_empty_double.
  rewrite advance_active_double by reflexivity.
  rewrite lower_bound_NegInf by reflexivity.
  destruct V_new_P22 as [H22 Hneg].
  destruct (integrate_NaN P_new V_new Scenario.h0
              (step_to_ms Scenario.h0 (0 + 0 + 1)) new_State_ eq_refl
              ltac:(eexists; reflexivity) H22 Hneg) as [_ ->].
  rewrite integrate_y3_double.
  split; [|repeat split; reflexivity].
  cbn [y3_ y1_ y2_ new_State_ dabs dmul dadd P33_ P31_ V_new of_Variables].
  f_equal. rewrite Rabs_R0. ring.
Qed.

(** C1.  The node as constructed, calibrated for steps of 0.1 ms, ends
    its first step, in which nothing arrives, with [y3 = 0], above the
    threshold [Theta = -1] of the constructor: the step detects no
    crossing, sends no spike and hands that state to the logger. *)
Theorem fresh_node_above_Theta :
  y3_ (step P_new V_new Scenario.h0 Scenario.B_empty 0 0 new_State_).1 = Num 0 /\
  Theta_ P_new = Num (-1) /\
  (y3_ (step P_new V_new Scenario.h0 Scenario.B_empty 0 0 new_State_).1
   > Theta_ P_new)%D /\
  sent (step P_new V_new Scenario.h0 Scenario.B_empty 0 0 new_State_).2 = [] /\
  recorded (step P_new V_new Scenario.h0 Scenario.B_empty 0 0 new_State_).2
    = [(step P_new V_new Scenario.h0 Scenario.B_empty 0 0 new_State_).1].
Proof.
  destruct fresh_first_step as (H3 & _). cbv zeta in H3.
  split; [exact H3|]. split; [reflexivity|]. split.
  - rewrite H3. cbn. lra.
  - split; [|apply step_recorded_double].
    destruct (step_frame_double P_new V_new Scenario.h0 Scenario.B_empty 0 0 new_State_)
      as (_ & _ & _ & Fn).
    apply (Fn fresh_no_crossing).
Qed.

(** *** Witnesses *)

Lemma B_typeB_no_typeA (lag : Z) (n : nat) : no_typeA Scenario.B_typeB lag n.
Proof.
  intros k _. cbn. rewrite decide_False by (intros [? _]; discriminate). lra.
Qed.

Lemma lower_bound_holds_witness :
  bounded_below (of_Parameters Scenario.P0)
    (update_loop (of_Parameters Scenario.P0) V_new Scenario.h0 Scenario.B_typeB 0 2 0
                 (of_State Scenario.st_rest)).1 /\
  Forall (fun s => finite_state s /\ bounded_below (of_Parameters Scenario.P0) s)
    (recorded
       (update_loop (of_Parameters Scenario.P0) V_new Scenario.h0 Scenario.B_typeB 0 2 0
                    (of_State Scenario.st_rest)).2) /\
  not_below P_new
    (update_loop P_new V_new Scenario.h0 Scenario.B_typeB 0 2 0 new_State_).1.
Proof.
  destruct (lower_bound_holds Scenario.h0 Scenario.B_typeB 0
              (of_Parameters Scenario.P0) V_new 0 (of_State Scenario.st_rest))
    as (_ & _ & _ & Hrun).
  destruct (Hrun ltac:(cbn; lra) ltac:(cbn; lra) ltac:(cbn; lra)
              2%Z 0%Z 2%Z _ _ (update_block_double _ _ _ _)) as [_ Hfin].
  destruct (Hfin ltac:(exists Scenario.P0; left; reflexivity) V_new_variables
              ltac:(eexists; reflexivity) ltac:(unfold bounded_below; cbn; lra))
    as [[_ Hb] Hlog].
  split; [exact Hb|]. split; [exact Hlog|].
  destruct (lower_bound_holds Scenario.h0 Scenario.B_typeB 0 P_new V_new 0 new_State_)
    as (_ & _ & _ & Hrun').
  destruct (Hrun' I I I 2%Z 0%Z 2%Z _ _ (update_block_double _ _ _ _)) as [Hany _].
  apply Hany. unfold not_below. cbn. tauto.
Defined.

Lemma no_spike_without_typeB_witness :
  sent (update_loop P_new V_new Scenario.h0 Scenario.B_on 0 5 0 new_State_).2 = [] /\
  (y3_ (update_loop P_new V_new Scenario.h0 Scenario.B_on 0 5 0 st_anchored).1
   >= Num (-1))%D.
Proof.
  destruct V0_unit as [H33 H31].
  assert (HB : IafNode.no_typeB Scenario.B_on) by (intros k; cbn; lra).
  split.
  - apply (no_spike_without_typeB Scenario.h0 Scenario.B_on 0 P_new V_new 5 0 new_State_
             ltac:(eexists; reflexivity) ltac:(cbn; lra) V_new_variables
             (proj1 H33) (proj2 H33) H31 HB); cbn; lra.
  - destruct (no_spike_without_typeB Scenario.h0 Scenario.B_on 0 P_new V_new 5 0
                st_anchored
                ltac:(eexists; reflexivity) ltac:(cbn; lra) V_new_variables
                (proj1 H33) (proj2 H33) H31 HB ltac:(cbn; lra) ltac:(cbn; lra))
      as [_ Hfin].
    destruct (Hfin P_new_parameters st_anchored_finite) as [Hy _]. exact Hy.
Defined.

Lemma no_input_no_kernel_witness :
  y2_ (integrate P_new V_new Scenario.h0 0.1 st_anchored) = y2_ st_anchored /\
  currents_ (update_loop P_new V_new Scenario.h0 Scenario.B_empty 0 2 0 st_anchored).1
    = Num 0.
Proof.
  destruct (no_input_no_kernel Scenario.h0 Scenario.B_empty 0 P_new V_new st_anchored
              ltac:(eexists; reflexivity) ltac:(eexists; reflexivity)
              ltac:(eexists; reflexivity) ltac:(eexists; reflexivity)
              eq_refl eq_refl) as [Hi Hu].
  split; [apply Hi|].
  destruct (Hu (fun _ => eq_refl) 2%Z 0%Z 2%Z _ _ (update_block_double _ _ _ _))
    as ((_ & Hc & _) & _).
  exact Hc.
Defined.

Lemma st_reset_leaking_double : leaking P_new (of_State ScenarioMore.st_reset).
Proof.
  unfold leaking.
  cbn [of_State ScenarioMore.st_reset r_ y0_ y1_ y2_ y3_ currents_
       Iaf.r_ Iaf.y0_ Iaf.y1_ Iaf.y2_ Iaf.y3_ Iaf.currents_
       P_new LowerBound_ set_LowerBound dle].
  repeat split; first [reflexivity | lra].
Qed.

Lemma leak_until_threshold_witness :
  y3_ (update_loop P_new V_new Scenario.h0 Scenario.B_empty 0 1 0
                   (of_State ScenarioMore.st_reset)).1
    = (Num (Iaf.P33_ Scenario.V0 ^ 1) * Num (-10))%D /\
  sent (update_loop P_new V_new Scenario.h0 Scenario.B_empty 0 1 0
                    (of_State ScenarioMore.st_reset)).2 = [].
Proof.
  destruct V0_unit as [H33 _].
  assert (Hlow : (Num (Iaf.P33_ Scenario.V0 ^ 1) * y3_ (of_State ScenarioMore.st_reset)
                  < Theta_ P_new)%D).
  { pose proof (exp_ineq1_le (- (1 / 300))) as He.
    assert (Hp : Iaf.P33_ Scenario.V0 = exp (- (1 / 300)))
      by (unfold Scenario.V0, Iaf.calibrate_V, Scenario.h0; cbn; f_equal; lra).
    change (Iaf.P33_ Scenario.V0 ^ 1 * -10 < -1).
    change (Iaf.P33_ Scenario.V0 ^ 1) with (Iaf.P33_ Scenario.V0 * 1).
    rewrite Hp. lra. }
  destruct (leak_until_threshold Scenario.h0 Scenario.B_empty 0 P_new Scenario.V0 1 0
              (of_State ScenarioMore.st_reset) P_new_parameters
              ltac:(eexists; reflexivity) H33
              st_reset_leaking_double (B_empty_silent 0 2) Hlow)
    as ((H3 & _ & Hs & _) & _).
  split; [exact H3 | exact Hs].
Defined.

Lemma kernel_NaN_before_typeA_witness :
  currents_ (update_currents_ P_new V_new 0.1 new_State_) = NaN /\
  y2_ (step P_new V_new Scenario.h0 Scenario.B_empty 0 0 new_State_).1 = NaN.
Proof.
  destruct V_new_P22 as [H22 Hneg].
  destruct (kernel_NaN_before_typeA Scenario.h0 Scenario.B_empty 0 P_new V_new 0
              new_State_ eq_refl ltac:(eexists; reflexivity) H22 Hneg) as [Hk Hs].
  split; [apply Hk|].
  destruct (Hs eq_refl ltac:(cbn; lra)) as (_ & _ & H2).
  apply H2, fresh_no_crossing.
Defined.

Lemma silent_before_typeA_witness :
  sent (update_loop P_new V_new Scenario.h0 Scenario.B_typeB 0 3 0
          (step P_new V_new Scenario.h0 Scenario.B_empty 0 0 new_State_).1).2 = [] /\
  y3_ (update_loop P_new V_new Scenario.h0 Scenario.B_typeB 0 3 0
         (step P_new V_new Scenario.h0 Scenario.B_empty 0 0 new_State_).1).1 = NaN.
Proof.
  destruct fresh_first_step as (_ & H2 & Hti & Hr). cbv zeta in *.
  destruct (silent_before_typeA Scenario.h0 Scenario.B_typeB 0 P_new V_new 3 0 _
              Hti H2 Hr (B_typeB_no_typeA 0 3)) as (Hs & _ & _ & _ & H3).
  split; [exact Hs | apply H3; lia].
Defined.

(** With the threshold at [1], the charged state crosses it in the step
    that drains the type-B event. *)
Lemma charged_crossing_above :
  IafSpec.crosses Scenario.P_above Scenario.V0 Scenario.h0 Scenario.B_typeB 0 0
                  Scenario.st_charged.
Proof.
  unfold IafSpec.crosses. cbv zeta. rewrite drain_typeB. split; [cbn; lra|].
  rewrite advance_active by reflexivity.
  pose proof (lower_bound_y3_ge Scenario.P_above
                (Iaf.integrate Scenario.P_above Scenario.V0 Scenario.h0
                   (step_to_ms Scenario.h0 (0 + 0 + 1))
                   (Iaf.set_y1 1 (Iaf.set_y3 (Iaf.V_reset_ Scenario.P_above)
                                             Scenario.st_charged)))) as Hge.
  rewrite integrate_y3 in Hge.
  cbn [Iaf.y3_ Iaf.y2_ Iaf.y1_ Iaf.set_y1 Iaf.set_y3 Scenario.st_charged
       Scenario.P_above Scenario.P0 Iaf.set_Theta Iaf.V_reset_] in Hge.
  rewrite (Rabs_pos_eq 1000) in Hge by lra.
  rewrite V0_P31 in Hge. pose proof V0_P33_bounds as Hb.
  change (Iaf.Theta_ Scenario.P_above) with 1.
  change (Iaf.V_reset_ Scenario.P_above) with (-10). lra.
Qed.

Lemma reset_keeps_below_Theta_witness :
  (y3_ (update_loop (of_Parameters Scenario.P_above) V_new Scenario.h0
                    Scenario.B_typeB 0 2 0 (of_State Scenario.st_charged)).1
   < Num 1)%D /\
  IafSpec.sent (Iaf.step Scenario.P_above Scenario.V0 Scenario.h0 Scenario.B_typeB 0 0
                         Scenario.st_charged).2 = [0%Z].
Proof.
  split.
  - destruct (reset_keeps_below_Theta Scenario.h0 Scenario.B_typeB 0
                (of_Parameters Scenario.P_above) V_new (of_State Scenario.st_charged)
                ltac:(exists Scenario.P_above; left; reflexivity) V_new_variables
                ltac:(eexists; reflexivity)
                ltac:(cbn; lra) ltac:(cbn; lra) ltac:(cbn; lra)
                2%Z 0%Z 2%Z _ _ (update_block_double _ _ _ _)) as [[_ H3] _].
    exact H3.
  - rewrite (step_crossing Scenario.P_above Scenario.V0 Scenario.h0 Scenario.B_typeB
               0 0 Scenario.st_charged charged_crossing_above).
    reflexivity.
Defined.

End Node_instances.
